(** * chain-able: the traversal engine of [src/deps/traverse.js]

    A shallow embedding of the JavaScript heap fragment the engine works on
    (records, sequences, dates, pattern-matchers, error-likes and boxed
    primitives, all reached through references) and of the functions of
    [traverse.js]: [copy], [walk]/[walker] with its per-node state and
    control operations, and the facade operations [get], [has], [map],
    [forEach], [reduce], [paths], [nodes] and [clone]. *)

From Stdlib Require Import ZArith Bool Lia.
From stdpp Require Import base option list strings.

Set Warnings "-register-all".

(** ** Values and objects *)

Definition loc := nat.

(** A property key.  JavaScript keys are strings; [KIdx i] stands for the
    canonical array-index string of [i], [KName s] for any other name. *)
Inductive pkey :=
| KIdx (i : nat)
| KName (s : string).

#[global] Instance pkey_eq_dec : EqDecision pkey.
Proof. solve_decision. Defined.

(** A JavaScript value: the scalars, or a reference to a heap object.
    Numbers are the integer-valued ones. *)
Inductive val :=
| VUndef
| VNull
| VBool (b : bool)
| VNum (n : Z)
| VStr (s : string)
| VRef (l : loc).

#[global] Instance val_eq_dec : EqDecision val.
Proof. solve_decision. Defined.

(** What [copy] distinguishes about an object: the tests [isArray], [isDate],
    [isRegExp], [isError], [isBoolean], [isNumber], [isString] of
    [traverse.js] read this tag.  A sequence carries its [length], a date
    its instant, an error-like its [message]. *)
Inductive okind :=
| KPlain
| KArray (len : nat)
| KDate (t : Z)
| KRegExp (src : string)
| KError (msg : val)
| KBoolean (b : bool)
| KNumber (n : Z)
| KString (s : string).

#[global] Instance okind_eq_dec : EqDecision okind.
Proof. solve_decision. Defined.

(** An object: its kind and its own enumerable properties in enumeration
    order.  Inherited properties are not part of the model. *)
Record obj := Obj { kind : okind; props : list (pkey * val) }.

#[global] Instance obj_eq_dec : EqDecision obj.
Proof. solve_decision. Defined.

(** The heap: an object lives at its location, new ones come at the end. *)
Abbreviation heap := (list obj).

Definition empty_obj : obj := Obj KPlain [].

(** A reference always denotes an object; a location past the end of the
    heap reads as an object without properties. *)
Definition deref (h : heap) (l : loc) : obj := default empty_obj (h !! l).

(** ** Errors *)

Inductive error :=
| TypeError
| OutOfFuel.

Inductive result (T : Type) :=
| Ok (x : T)
| Err (e : error).
Arguments Ok {T} x.
Arguments Err {T} e.

#[global] Instance result_ret : MRet result := fun _ x => Ok x.
#[global] Instance result_bind : MBind result :=
  fun _ _ f m => match m with Ok x => f x | Err e => Err e end.

(** ** Own properties *)

Fixpoint assoc (k : pkey) (ps : list (pkey * val)) : option val :=
  match ps with
  | [] => None
  | (k', v) :: ps' => if decide (k = k') then Some v else assoc k ps'
  end.

(** Assignment keeps the position of a key that is there and appends a new
    one. *)
Fixpoint assoc_set (k : pkey) (v : val) (ps : list (pkey * val))
  : list (pkey * val) :=
  match ps with
  | [] => [(k, v)]
  | (k', v') :: ps' =>
      if decide (k = k') then (k, v) :: ps' else (k', v') :: assoc_set k v ps'
  end.

Fixpoint assoc_del (k : pkey) (ps : list (pkey * val)) : list (pkey * val) :=
  match ps with
  | [] => []
  | (k', v') :: ps' =>
      if decide (k = k') then assoc_del k ps' else (k', v') :: assoc_del k ps'
  end.

(** [o[k] = v] on an object, for a key that the assignment makes or
    overwrites as an own enumerable property: a sequence grows its length
    when the index is past the end.  The keys for which an assignment does
    something else are the [special_key]s below. *)
Definition set_own (o : obj) (k : pkey) (v : val) : obj :=
  let kd :=
    match kind o, k with
    | KArray len, KIdx i => KArray (Nat.max len (S i))
    | kd, _ => kd
    end in
  Obj kd (assoc_set k v (props o)).

(** [delete o[k]]: the key goes, a sequence keeps its length (a hole). *)
Definition del_own (o : obj) (k : pkey) : obj :=
  Obj (kind o) (assoc_del k (props o)).

(** The integer [splice] makes of its first argument: an index key is its
    index, and a name that does not read as a number counts as 0.  A name
    that reads as a number without being an index (["-1"], ["1e0"]) is
    converted by [splice]; such names are taken not to be among the keys of
    a sequence. *)
Definition to_index (k : pkey) : nat :=
  match k with KIdx i => i | KName _ => 0 end.

Definition shift_key (start : nat) (k : pkey) : pkey :=
  match k with
  | KIdx j => if decide (start < j) then KIdx (pred j) else KIdx j
  | KName s => KName s
  end.

(** [arr.splice(start, 1)]: drops the element at [start] when there is one
    within the length, moves every later index down by one and shortens the
    sequence by one. *)
Definition splice1 (o : obj) (start : nat) : obj :=
  match kind o with
  | KArray len =>
      if decide (start < len) then
        Obj (KArray (pred len))
            (prod_map (shift_key start) id <$> assoc_del (KIdx start) (props o))
      else o
  | _ => o
  end.

(** ** The helpers required by [traverse.js] *)

(** Modelled from the spec: [is/pureObj] is not among the source files.  A
    composite is any non-null object; [copy] tests sequences, dates,
    pattern-matchers, error-likes and boxed primitives under it. *)
Definition isPureObj (v : val) : bool :=
  match v with VRef _ => true | _ => false end.

(** Modelled from the spec: [is/array] is not among the source files. *)
Definition isArray (h : heap) (v : val) : bool :=
  match v with
  | VRef l => match kind (deref h l) with KArray _ => true | _ => false end
  | _ => false
  end.

(** Modelled from the spec: [util/hasOwnProperty] is not among the source
    files.  Own-property lookup only; a scalar owns no key. *)
Definition hasOwnProperty (h : heap) (v : val) (k : pkey) : bool :=
  match v with
  | VRef l => bool_decide (is_Some (assoc k (props (deref h l))))
  | _ => false
  end.

(** Modelled from the spec: [util/keys] is not among the source files.  The
    own enumerable keys in enumeration order. *)
Definition objectKeys (h : heap) (v : val) : list pkey :=
  match v with
  | VRef l => (props (deref h l)).*1
  | _ => []
  end.

(** [!!v] *)
Definition truthy (v : val) : bool :=
  match v with
  | VUndef | VNull => false
  | VBool b => b
  | VNum n => negb (n =? 0)%Z
  | VStr s => negb (bool_decide (s = ""%string))
  | VRef _ => true
  end.

(** [a === b] *)
Definition strict_eq (a b : val) : bool := bool_decide (a = b).

(** The value of the own property [k] of [v], [undefined] when there is
    none. *)
Definition own_val (h : heap) (v : val) (k : pkey) : val :=
  match v with
  | VRef l => default VUndef (assoc k (props (deref h l)))
  | _ => VUndef
  end.

(** [v[k]] for a key that is not inherited: reading a property of
    [undefined] or [null] throws, an own property has its value, and any
    other key reads [undefined].  What a value finds on its prototype
    chain ([inherited_name] lists it for a number or a boolean) is not part
    of the model; [traverse.js] reads keys that are own, but for the loop
    of [set], which reads whatever key the caller names. *)
Definition get_prop (h : heap) (v : val) (k : pkey) : result val :=
  match v with
  | VUndef | VNull => Err TypeError
  | _ => Ok (own_val h v k)
  end.

(** [v[k] = x]: throws on [undefined] and [null], is ignored on the other
    scalars. *)
Definition set_prop (h : heap) (v : val) (k : pkey) (x : val) : result heap :=
  match v with
  | VUndef | VNull => Err TypeError
  | VRef l => Ok (<[l := set_own (deref h l) k x]> h)
  | _ => Ok h
  end.

(** [delete v[k]] *)
Definition delete_prop (h : heap) (v : val) (k : pkey) : result heap :=
  match v with
  | VUndef | VNull => Err TypeError
  | VRef l => Ok (<[l := del_own (deref h l) k]> h)
  | _ => Ok h
  end.

(** [v.splice(k, 1)] on a sequence [v]. *)
Definition splice_prop (h : heap) (v : val) (k : pkey) : heap :=
  match v with
  | VRef l => <[l := splice1 (deref h l) (to_index k)]> h
  | _ => h
  end.

Definition alloc (h : heap) (o : obj) : heap * val := (h ++ [o], VRef (length h)).

(** ** Keys that are not plain properties *)

(** The names a pattern-matcher answers to without holding them as own
    enumerable properties: [lastIndex] is own and hidden, the others are
    read-only accessors of its prototype. *)
Definition regexp_names : list string :=
  ["lastIndex"; "source"; "flags"; "global"; "ignoreCase"; "multiline";
   "sticky"; "unicode"; "unicodeSets"; "dotAll"; "hasIndices"].

(** The own, hidden names of an error-like. *)
Definition error_names : list string :=
  ["message"; "stack"; "cause"; "fileName"; "lineNumber"; "columnNumber";
   "line"; "column"; "sourceURL"].

(** The numeral of an index: digits only, without a leading zero.  As a
    key it is written [KIdx], never [KName]. *)
Definition is_digit (c : Ascii.ascii) : bool :=
  (48 <=? Ascii.nat_of_ascii c) && (Ascii.nat_of_ascii c <=? 57).

Fixpoint all_digits (s : string) : bool :=
  match s with
  | String.EmptyString => true
  | String.String c s' => is_digit c && all_digits s'
  end.

Definition index_name (n : string) : bool :=
  match n with
  | String.EmptyString => false
  | String.String c s' =>
      all_digits n
      && (negb (Ascii.nat_of_ascii c =? 48)
          || bool_decide (s' = String.EmptyString))
  end.

(** The keys of an object of kind [kd] that are not plain properties, so
    that [o[k] = v] is not [set_own] and [hasOwnProperty] is not a lookup
    among the enumerable properties: [__proto__] everywhere (the
    assignment changes the prototype or does nothing), [length] on a
    sequence (the assignment truncates it or throws) and on a boxed string,
    the indices within a boxed string (read-only), and the hidden or
    read-only names of pattern-matchers and error-likes; and a name that
    is the numeral of an index, which is the key [KIdx] and no other.  The
    objects are those of the standard library with nothing added to their
    prototypes, and a record inherits no setter and no read-only property
    but [__proto__], as one written as an object literal does. *)
Definition special_key (kd : okind) (k : pkey) : bool :=
  match k with
  | KIdx i =>
      match kd with
      | KString s => bool_decide (i < String.length s)
      | _ => false
      end
  | KName n =>
      index_name n
      || bool_decide (n = "__proto__"%string)
      || match kd with
         | KArray _ | KString _ => bool_decide (n = "length"%string)
         | KRegExp _ => bool_decide (n ∈ regexp_names)
         | KError _ => bool_decide (n ∈ error_names)
         | _ => false
         end
  end.

(** A path along which [set] meets plain properties only: no key is
    special for the object it is read from or assigned to.  The objects
    [set] creates on the way are empty records. *)
Fixpoint ordinary_path (h : heap) (node : val) (ps : list pkey) : bool :=
  match ps with
  | [] => true
  | k :: ps' =>
      match node with
      | VRef l =>
          negb (special_key (kind (deref h l)) k)
          && match assoc k (props (deref h l)) with
             | Some v => ordinary_path h v ps'
             | None => forallb (fun k' => negb (special_key KPlain k')) ps'
             end
      | _ => true
      end
  end.

(** The names a number or a boolean finds on its prototype chain
    ([Number.prototype] or [Boolean.prototype], then [Object.prototype]) in
    a program that has added nothing to them; under any other key such a
    scalar reads [undefined]. *)
Definition inherited_name (k : pkey) : bool :=
  match k with
  | KIdx _ => false
  | KName n =>
      bool_decide
        (n ∈ ["constructor"; "toString"; "toLocaleString"; "valueOf";
              "toExponential"; "toFixed"; "toPrecision";
              "hasOwnProperty"; "isPrototypeOf"; "propertyIsEnumerable";
              "__proto__"; "__defineGetter__"; "__defineSetter__";
              "__lookupGetter__"; "__lookupSetter__"])
  end.

(** ** [copy] *)

(** The fresh object [copy] starts from, by the kind of the source.  The
    tests [is/array], [is/date], [is/regexp], [is/error], [is/boolean],
    [is/number] and [is/string] are not among the source files; they are
    the cases of the kind.  [new Boolean(src)] of an object [src] is a boxed
    [true]. *)
Definition copy_shell (o : obj) : obj :=
  match kind o with
  | KArray _ => Obj (KArray 0) []
  | KDate t => Obj (KDate t) []
  | KRegExp s => Obj (KRegExp s) []
  | KError msg => Obj KPlain [(KName "message", msg)]
  | KBoolean _ => Obj (KBoolean true) []
  | KNumber n => Obj (KNumber n) []
  | KString s => Obj (KString s) []
  | KPlain => Obj KPlain []
  end.

(** One-level copy: a new object of the source's kind with every own key
    assigned; a scalar is returned as it is. *)
Definition copy (h : heap) (src : val) : heap * val :=
  match src with
  | VRef l =>
      let o := deref h l in
      let dst :=
        fold_left (fun d k => set_own d k (default VUndef (assoc k (props o))))
                  (objectKeys h src) (copy_shell o) in
      alloc h dst
  | _ => (h, src)
  end.


(** ** The per-node state of a walk *)

(** The record [walker] builds for every node.  [parent] and [circular]
    refer to a state of the ancestor stack and are kept as its index there;
    the flags that the source leaves [undefined] until they are assigned are
    options. *)
Record state := State {
  node : val;
  node_ : val;
  path : list pkey;
  parent : option nat;
  key : option pkey;
  isRoot : bool;
  level : nat;
  circular : option nat;
  keys : option (list pkey);
  isLeaf : option bool;
  notLeaf : option bool;
  notRoot : option bool;
  isLast : option bool;
  isFirst : option bool
}.

Definition set_node (x : val) (s : state) : state :=
  State x (node_ s) (path s) (parent s) (key s) (isRoot s) (level s)
        (circular s) (keys s) (isLeaf s) (notLeaf s) (notRoot s)
        (isLast s) (isFirst s).

Definition set_siblings (last first : bool) (s : state) : state :=
  State (node s) (node_ s) (path s) (parent s) (key s) (isRoot s) (level s)
        (circular s) (keys s) (isLeaf s) (notLeaf s) (notRoot s)
        (Some last) (Some first).

(** The state literal at the head of [walker]. *)
Definition new_state (nd nd_ : val) (pth : list pkey) (parents : list state)
  : state :=
  State nd nd_ pth
        (match parents with [] => None | _ => Some (pred (length parents)) end)
        (last pth)
        (bool_decide (length pth = 0))
        (length pth)
        None None None None None None None.

(** The scan of [updateState]: the first state of the stack whose original
    value is the visited one. *)
Definition scan (parents : list state) (nd_ : val) : option nat :=
  fst <$> list_find (fun p => node_ p = nd_) parents.

Definition updateState (h : heap) (parents : list state) (s : state) : state :=
  if isPureObj (node s) then
    let ks :=
      match keys s with
      | Some ks =>
          if negb (strict_eq (node_ s) (node s)) then objectKeys h (node s)
          else ks
      | None => objectKeys h (node s)
      end in
    let leaf := bool_decide (length ks = 0) in
    let circ :=
      match scan parents (node_ s) with
      | Some i => Some i
      | None => circular s
      end in
    State (node s) (node_ s) (path s) (parent s) (key s) (isRoot s) (level s)
          circ (Some ks) (Some leaf) (Some (negb leaf)) (Some (negb (isRoot s)))
          (isLast s) (isFirst s)
  else
    State (node s) (node_ s) (path s) (parent s) (key s) (isRoot s) (level s)
          (circular s) None (Some true) (Some false) (Some (negb (isRoot s)))
          (isLast s) (isFirst s).

(** ** Callbacks, hooks and the walker *)

(** What a callback or hook is handed besides the bound state: the value,
    the value and key of a child ([pre]), or the state of a child ([post]). *)
Inductive harg :=
| HNode (x : val)
| HPre (x : val) (k : pkey)
| HPost (child : state).

(** What a callback or hook can read: the heap, the ancestor stack
    ([this.parents]) and the state it is bound to ([this]). *)
Record view := View {
  v_heap : heap;
  v_parents : list state;
  v_this : state
}.

(** What one run of a callback or hook does: it moves the variables of its
    closure on, creates objects (placed at the end of the heap, in order),
    calls operations of the state it is bound to, in order, and returns a
    value. *)
Record outcome (C X : Type) := Outcome {
  o_user : C;
  o_new : list obj;
  o_acts : list X;
  o_ret : val
}.
Arguments Outcome {C X} _ _ _ _.
Arguments o_user {C X} _.
Arguments o_new {C X} _.
Arguments o_acts {C X} _.
Arguments o_ret {C X} _.

Section Walker.

(** The variables the callbacks close over. *)
Context {A : Type}.

(** The operations of a state that a callback can call. *)
Inductive action :=
| AUpdate (x : val) (stopHere : bool)
| ADelete (stopHere : bool)
| ARemove (stopHere : bool)
| AStop
| ABlock
| ABefore (f : A -> view -> harg -> outcome A action)
| AAfter (f : A -> view -> harg -> outcome A action)
| APre (f : A -> view -> harg -> outcome A action)
| APost (f : A -> view -> harg -> outcome A action).

Definition handler := A -> view -> harg -> outcome A action.

Record modifiers := Mods {
  before : option handler;
  after : option handler;
  pre : option handler;
  post : option handler
}.

(** The variables of one [walker] activation. *)
Record locals := Locals {
  l_state : state;
  keepGoing : bool;
  l_mods : modifiers
}.

(** The variables of one [walk]: the heap, [path], [parents], [alive] and
    the callbacks' closure.  Two more fields keep the history of the walk:
    [w_visits] records, for every run of the callback, the ancestor stack
    and the state it ran on, and [w_stopped] how many runs were recorded
    when [stop] was first called. *)
Record wstate := WState {
  w_heap : heap;
  w_path : list pkey;
  w_parents : list state;
  w_alive : bool;
  w_user : A;
  w_visits : list (list state * state);
  w_stopped : option nat
}.

Definition with_heap (h : heap) (w : wstate) : wstate :=
  WState h (w_path w) (w_parents w) (w_alive w) (w_user w) (w_visits w)
         (w_stopped w).
Definition with_path (p : list pkey) (w : wstate) : wstate :=
  WState (w_heap w) p (w_parents w) (w_alive w) (w_user w) (w_visits w)
         (w_stopped w).
Definition with_parents (ps : list state) (w : wstate) : wstate :=
  WState (w_heap w) (w_path w) ps (w_alive w) (w_user w) (w_visits w)
         (w_stopped w).
(** [alive = false]; the first time, the number of recorded runs is kept. *)
Definition stop_walk (w : wstate) : wstate :=
  WState (w_heap w) (w_path w) (w_parents w) false (w_user w) (w_visits w)
         (match w_stopped w with
          | Some n => Some n
          | None => Some (length (w_visits w))
          end).
Definition with_user (a : A) (w : wstate) : wstate :=
  WState (w_heap w) (w_path w) (w_parents w) (w_alive w) a (w_visits w)
         (w_stopped w).
Definition with_visit (v : list state * state) (w : wstate) : wstate :=
  WState (w_heap w) (w_path w) (w_parents w) (w_alive w) (w_user w)
         (w_visits w ++ [v]) (w_stopped w).

Definition with_state (s : state) (lc : locals) : locals :=
  Locals s (keepGoing lc) (l_mods lc).
Definition with_mods (m : modifiers) (lc : locals) : locals :=
  Locals (l_state lc) (keepGoing lc) m.

(** [if (stopHere) keepGoing = false] *)
Definition stop_here (stopHere : bool) (lc : locals) : locals :=
  if stopHere then Locals (l_state lc) false (l_mods lc) else lc.

(** [state.parent.node]: reading [node] of an [undefined] parent throws. *)
Definition parent_node (w : wstate) (s : state) : result val :=
  match parent s with
  | None => Err TypeError
  | Some i =>
      match w_parents w !! i with
      | Some p => Ok (node p)
      | None => Err TypeError
      end
  end.

(** [state.key] used as a property name. *)
Definition key_name (s : state) : pkey := default (KName "undefined") (key s).

(** One call of an operation of the state of [lc]. *)
Definition exec_action (a : action) (w : wstate) (lc : locals)
  : result (wstate * locals) :=
  let s := l_state lc in
  match a with
  | AUpdate x stopHere =>
      h ← (if negb (isRoot s) then
             pn ← parent_node w s; set_prop (w_heap w) pn (key_name s) x
           else Ok (w_heap w));
      Ok (with_heap h w, stop_here stopHere (with_state (set_node x s) lc))
  | ADelete stopHere =>
      pn ← parent_node w s;
      h ← delete_prop (w_heap w) pn (key_name s);
      Ok (with_heap h w, stop_here stopHere lc)
  | ARemove stopHere =>
      match parent s with
      | None => Ok (w, lc)
      | Some _ =>
          pn ← parent_node w s;
          h ← (if isArray (w_heap w) pn
               then Ok (splice_prop (w_heap w) pn (key_name s))
               else delete_prop (w_heap w) pn (key_name s));
          Ok (with_heap h w, stop_here stopHere lc)
      end
  | AStop => Ok (stop_walk w, lc)
  | ABlock => Ok (w, Locals (l_state lc) false (l_mods lc))
  | ABefore f =>
      let m := l_mods lc in
      Ok (w, with_mods (Mods (Some f) (after m) (pre m) (post m)) lc)
  | AAfter f =>
      let m := l_mods lc in
      Ok (w, with_mods (Mods (before m) (Some f) (pre m) (post m)) lc)
  | APre f =>
      let m := l_mods lc in
      Ok (w, with_mods (Mods (before m) (after m) (Some f) (post m)) lc)
  | APost f =>
      let m := l_mods lc in
      Ok (w, with_mods (Mods (before m) (after m) (pre m) (Some f)) lc)
  end.

Fixpoint exec_actions (acts : list action) (w : wstate) (lc : locals)
  : result (wstate * locals) :=
  match acts with
  | [] => Ok (w, lc)
  | a :: acts' => '(w', lc') ← exec_action a w lc; exec_actions acts' w' lc'
  end.

(** [f.call(state, ...)]: the closure moves on, the objects it creates
    enter the heap, its calls of state operations run. *)
Definition run_handler (f : handler) (arg : harg) (w : wstate) (lc : locals)
  : result (wstate * locals * val) :=
  let o := f (w_user w) (View (w_heap w) (w_parents w) (l_state lc)) arg in
  let w1 := with_heap (w_heap w ++ o_new o) (with_user (o_user o) w) in
  '(w2, lc2) ← exec_actions (o_acts o) w1 lc;
  Ok (w2, lc2, o_ret o).

(** A hook that may not be registered. *)
Definition run_hook (f : option handler) (arg : harg) (w : wstate) (lc : locals)
  : result (wstate * locals) :=
  match f with
  | Some f => '(w', lc', _) ← run_handler f arg w lc; Ok (w', lc')
  | None => Ok (w, lc)
  end.

(** While its children are visited a state sits on top of the ancestor
    stack: what a hook changes in it shows there. *)
Definition set_top (s : state) (w : wstate) : wstate :=
  with_parents (removelast (w_parents w) ++ [s]) w.

Definition run_hook_top (f : option handler) (arg : harg) (w : wstate)
  (lc : locals) : result (wstate * locals) :=
  '(w', lc') ← run_hook f arg w lc;
  Ok (set_top (l_state lc') w', lc').

Section Visit.

Variable cb : handler.
Variable immutable : bool.

(** The visit of a child, [walker] one level down. *)
Variable rec : wstate -> val -> result (wstate * state).

(** The body of [forEach(state.keys, (key, i) => ...)], for the keys from
    the [i]-th on; [n] is [state.keys.length]. *)
Fixpoint each_key (n : nat) (ks : list pkey) (i : nat) (w : wstate)
  (lc : locals) : result (wstate * locals) :=
  match ks with
  | [] => Ok (w, lc)
  | k :: ks' =>
      let w := with_path (w_path w ++ [k]) w in
      '(w, lc) ← match pre (l_mods lc) with
                 | Some f =>
                     x ← get_prop (w_heap w) (node (l_state lc)) k;
                     run_hook_top (Some f) (HPre x k) w lc
                 | None => Ok (w, lc)
                 end;
      x ← get_prop (w_heap w) (node (l_state lc)) k;
      '(w, child) ← rec w x;
      h ← (if immutable && hasOwnProperty (w_heap w) (node (l_state lc)) k
           then set_prop (w_heap w) (node (l_state lc)) k (node child)
           else Ok (w_heap w));
      let w := with_heap h w in
      let child :=
        set_siblings (bool_decide (i = pred n)) (bool_decide (i = 0)) child in
      '(w, lc) ← run_hook_top (post (l_mods lc)) (HPost child) w lc;
      let w := with_path (removelast (w_path w)) w in
      each_key n ks' (S i) w lc
  end.

(** The callback's turn: [cb.call(state, state.node)], the update by a
    defined return value, and the [before] hook. *)
Definition call_callback (w : wstate) (s : state) : result (wstate * locals) :=
  let lc := Locals s true (Mods None None None None) in
  '(w, lc, ret) ← run_handler cb (HNode (node s))
                    (with_visit (w_parents w, s) w) lc;
  '(w, lc) ← (if negb (strict_eq ret VUndef)
              then exec_action (AUpdate ret false) w lc
              else Ok (w, lc));
  run_hook (before (l_mods lc)) (HNode (node (l_state lc))) w lc.

(** The descent: a composite that is not circular is pushed, its state
    brought up to date and its children visited. *)
Definition descend (w : wstate) (lc : locals) : result (wstate * locals) :=
  if isPureObj (node (l_state lc)) && bool_decide (circular (l_state lc) = None)
  then
    let s := updateState (w_heap w) (w_parents w ++ [l_state lc]) (l_state lc) in
    let lc := with_state s lc in
    let w := with_parents (w_parents w ++ [s]) w in
    let ks := default [] (keys s) in
    '(w, lc) ← each_key (length ks) ks 0 w lc;
    Ok (with_parents (removelast (w_parents w)) w, lc)
  else Ok (w, lc).

(** The body of [walker]. *)
Definition visit (w : wstate) (nd_ : val) : result (wstate * state) :=
  let '(h, nd) := if immutable then copy (w_heap w) nd_ else (w_heap w, nd_) in
  let w := with_heap h w in
  let s := new_state nd nd_ (w_path w) (w_parents w) in
  if negb (w_alive w) then Ok (w, s)
  else
    let s := updateState (w_heap w) (w_parents w) s in
    '(w, lc) ← call_callback w s;
    if negb (keepGoing lc) then Ok (w, l_state lc)
    else
      '(w, lc) ← descend w lc;
      '(w, lc) ← run_hook (after (l_mods lc)) (HNode (node (l_state lc))) w lc;
      Ok (w, l_state lc).

End Visit.

(** [walker]: the fuel bounds the depth of the descent. *)
Fixpoint walker (fuel : nat) (cb : handler) (immutable : bool) (w : wstate)
  (nd_ : val) : result (wstate * state) :=
  match fuel with
  | 0 => Err OutOfFuel
  | S fuel' => visit cb immutable (walker fuel' cb immutable) w nd_
  end.

Definition walk (fuel : nat) (h : heap) (a : A) (root : val) (cb : handler)
  (immutable : bool) : result (wstate * val) :=
  '(w, s) ← walker fuel cb immutable (WState h [] [] true a [] None) root;
  Ok (w, node s).

End Walker.

Arguments action : clear implicits.
Arguments handler : clear implicits.
Arguments modifiers : clear implicits.
Arguments locals : clear implicits.
Arguments wstate : clear implicits.

(** ** The facade *)

Module Traverse.

Record t := Make { value : val }.

(** The loop of [get]: the first missing segment ends it with [undefined]. *)
Fixpoint get_from (h : heap) (node : val) (ps : list pkey) : result val :=
  match ps with
  | [] => Ok node
  | key :: ps' =>
      if negb (truthy node) || negb (hasOwnProperty h node key) then Ok VUndef
      else node' ← get_prop h node key; get_from h node' ps'
  end.

Definition get (h : heap) (this : t) (ps : list pkey) : result val :=
  get_from h (value this) ps.

Fixpoint has_from (h : heap) (node : val) (ps : list pkey) : result bool :=
  match ps with
  | [] => Ok true
  | key :: ps' =>
      if negb (truthy node) || negb (hasOwnProperty h node key) then Ok false
      else node' ← get_prop h node key; has_from h node' ps'
  end.

Definition has (h : heap) (this : t) (ps : list pkey) : result bool :=
  has_from h (value this) ps.

(** [map]: the walk in copy-on-write mode; [this.value] is not assigned. *)
Definition map {A} (fuel : nat) (h : heap) (this : t) (a : A) (cb : handler A)
  : result (wstate A * t * val) :=
  '(w, r) ← walk fuel h a (value this) cb true;
  Ok (w, this, r).

(** [forEach]: the walk in place; [this.value] becomes its result. *)
Definition forEach {A} (fuel : nat) (h : heap) (this : t) (a : A)
  (cb : handler A) : result (wstate A * t * val) :=
  '(w, r) ← walk fuel h a (value this) cb false;
  Ok (w, Make r, r).

(** A reducer: called on the bound state with the accumulator and the node,
    it returns the next accumulator. *)
Definition reducer (C : Type) :=
  C -> view -> val -> val -> outcome C (action (C * val)).

(** The callback [reduce] hands to [forEach]; the accumulator [acc] is a
    variable of its closure. *)
Definition reduce_cb {C} (skip : bool) (cb : reducer C) : handler (C * val) :=
  fun a vw arg =>
    let x := match arg with HNode x => x | _ => VUndef end in
    if negb (isRoot (v_this vw)) || negb skip then
      let o := cb a.1 vw a.2 x in
      Outcome (o_user o, o_ret o) (o_new o) (o_acts o) VUndef
    else Outcome a [] [] VUndef.

(** [reduce(cb, init)]; [init = None] is the call with one argument. *)
Definition reduce {C} (fuel : nat) (h : heap) (this : t) (c : C)
  (cb : reducer C) (init : option val) : result (wstate (C * val) * t * val) :=
  let skip := bool_decide (init = None) in
  let acc := if skip then value this else default VUndef init in
  '(w, this', _) ← forEach fuel h this (c, acc) (reduce_cb skip cb);
  Ok (w, this', (w_user w).2).

Definition paths_cb : handler (list (list pkey)) :=
  fun acc vw _ => Outcome (acc ++ [path (v_this vw)]) [] [] VUndef.

Definition paths (fuel : nat) (h : heap) (this : t)
  : result (wstate (list (list pkey)) * t * list (list pkey)) :=
  '(w, this', _) ← forEach fuel h this [] paths_cb;
  Ok (w, this', w_user w).

Definition nodes_cb : handler (list val) :=
  fun acc vw _ => Outcome (acc ++ [node (v_this vw)]) [] [] VUndef.

Definition nodes (fuel : nat) (h : heap) (this : t)
  : result (wstate (list val) * t * list val) :=
  '(w, this', _) ← forEach fuel h this [] nodes_cb;
  Ok (w, this', w_user w).

(** The variables of one [clone]: the heap and the two parallel lists. *)
Record cstate := CState {
  c_heap : heap;
  c_parents : list val;
  c_nodes : list val
}.

Section Clone.

Variable rec : cstate -> val -> result (cstate * val).

(** [forEach(objectKeys(src), key => { dst[key] = clone(src[key]) })] *)
Fixpoint clone_keys (src dst : val) (ks : list pkey) (c : cstate)
  : result cstate :=
  match ks with
  | [] => Ok c
  | key :: ks' =>
      x ← get_prop (c_heap c) src key;
      '(c, y) ← rec c x;
      h ← set_prop (c_heap c) dst key y;
      clone_keys src dst ks' (CState h (c_parents c) (c_nodes c))
  end.

(** The body of the inner [clone]. *)
Definition clone_body (c : cstate) (src : val) : result (cstate * val) :=
  match list_find (fun p => p = src) (c_parents c) with
  | Some (i, _) => Ok (c, default VUndef (c_nodes c !! i))
  | None =>
      if isPureObj src then
        let '(h, dst) := copy (c_heap c) src in
        let c := CState h (c_parents c ++ [src]) (c_nodes c ++ [dst]) in
        c ← clone_keys src dst (objectKeys (c_heap c) src) c;
        Ok (CState (c_heap c) (removelast (c_parents c))
                   (removelast (c_nodes c)), dst)
      else Ok (c, src)
  end.

End Clone.

Fixpoint clone_from (fuel : nat) (c : cstate) (src : val)
  : result (cstate * val) :=
  match fuel with
  | 0 => Err OutOfFuel
  | S fuel' => clone_body (clone_from fuel') c src
  end.

Definition clone (fuel : nat) (h : heap) (this : t) : result (heap * val) :=
  '(c, r) ← clone_from fuel (CState h [] []) (value this);
  Ok (c_heap c, r).

(** The loop of [set] and the assignment after it: every segment but the
    last is entered, an empty record being assigned first where the key is
    missing; the last segment is assigned the value.  With no segment at
    all, [ps[0]] is [undefined], which names the key ["undefined"]. *)
Fixpoint set_from (h : heap) (node : val) (ps : list pkey) (x : val)
  : result heap :=
  match ps with
  | [] => set_prop h node (KName "undefined") x
  | [key] => set_prop h node key x
  | key :: (_ :: _) as ps' =>
      h1 ← (if hasOwnProperty h node key then Ok h
            else let '(h', o) := alloc h empty_obj in set_prop h' node key o);
      node' ← get_prop h1 node key;
      set_from h1 node' ps' x
  end.

Definition set (h : heap) (this : t) (ps : list pkey) (x : val)
  : result (heap * val) :=
  h' ← set_from h (value this) ps x;
  Ok (h', x).

(** [function (x) { cb.call(this, this, x) }]: the callback is handed the
    state and the value; what it returns is dropped. *)
Definition forEachs_cb {A} (cb : handler A) : handler A :=
  fun a vw arg =>
    let o := cb a vw arg in Outcome (o_user o) (o_new o) (o_acts o) VUndef.

(** [forEachs]: [forEach] with the callback wrapped. *)
Definition forEachs {A} (fuel : nat) (h : heap) (this : t) (a : A)
  (cb : handler A) : result (wstate A * t * val) :=
  forEach fuel h this a (forEachs_cb cb).

End Traverse.

(** ** Notions of the specification *)

(** Path resolution in the words of the specification: every segment is an
    own property of a container; anything else is absence. *)
Fixpoint resolve (h : heap) (node : val) (ps : list pkey) : option val :=
  match ps with
  | [] => Some node
  | k :: ps' =>
      match node with
      | VRef l =>
          match assoc k (props (deref h l)) with
          | Some x => resolve h x ps'
          | None => None
          end
      | _ => None
      end
  end.

(** The first ancestor, counted from the root, whose original value is the
    reference [x]. *)
Fixpoint first_ancestor (originals : list val) (x : val) : option nat :=
  match originals with
  | [] => None
  | y :: rest =>
      if decide (y = x) then Some 0 else S <$> first_ancestor rest x
  end.

(** What the callback reads when [walker] is entered at [nd_] while the walk
    is alive: the heap (after the copy, in copy-on-write mode), the ancestor
    stack and the state it runs on. *)
Definition entry_view {A} (immutable : bool) (w : wstate A) (nd_ : val)
  : view :=
  let '(h, nd) := if immutable then copy (w_heap w) nd_ else (w_heap w, nd_) in
  View h (w_parents w)
       (updateState h (w_parents w)
                    (new_state nd nd_ (w_path w) (w_parents w))).

Definition entry_state {A} (immutable : bool) (w : wstate A) (nd_ : val)
  : state := v_this (entry_view immutable w nd_).

(** What the callback does there. *)
Definition entry_outcome {A} (cb : handler A) (immutable : bool) (w : wstate A)
  (nd_ : val) : outcome A (action A) :=
  cb (w_user w) (entry_view immutable w nd_)
     (HNode (node (entry_state immutable w nd_))).

(** The variables of a walk when it starts. *)
Definition init_wstate {A} (h : heap) (a : A) : wstate A :=
  WState h [] [] true a [] None.

(** A value that is not a reference to one of the objects [P]. *)
Definition avoids (P : loc -> Prop) (v : val) : Prop :=
  match v with VRef l => ~ P l | _ => True end.

(** What a callback or hook finds in a walk in copy-on-write mode, as far
    as the objects [P] of the original go: the current node of its state is
    none of them, nor is the current node of an ancestor; the callback and
    the [before] and [after] hooks are handed the current node, and the
    [post] hook the state of a child whose current node is none of them
    either.  The [pre] hook is handed what the key holds before the child is
    visited, which is an original. *)
Definition view_avoids (P : loc -> Prop) (vw : view) (arg : harg) : Prop :=
  avoids P (node (v_this vw))
  /\ Forall (fun p => avoids P (node p)) (v_parents vw)
  /\ match arg with
     | HNode x => x = node (v_this vw)
     | HPre _ _ => True
     | HPost child => avoids P (node child)
     end.

(** A state operation that installs no reference to an object of [P], nor
    registers a hook that would do so where it runs in such a walk. *)
Inductive action_avoids {A} (P : loc -> Prop) : action A -> Prop :=
| avoids_update x b : avoids P x -> action_avoids P (AUpdate x b)
| avoids_delete b : action_avoids P (ADelete b)
| avoids_remove b : action_avoids P (ARemove b)
| avoids_stop : action_avoids P AStop
| avoids_block : action_avoids P ABlock
| avoids_before f :
    (forall a vw arg, view_avoids P vw arg ->
                      Forall (action_avoids P) (o_acts (f a vw arg))) ->
    action_avoids P (ABefore f)
| avoids_after f :
    (forall a vw arg, view_avoids P vw arg ->
                      Forall (action_avoids P) (o_acts (f a vw arg))) ->
    action_avoids P (AAfter f)
| avoids_pre f :
    (forall a vw arg, view_avoids P vw arg ->
                      Forall (action_avoids P) (o_acts (f a vw arg))) ->
    action_avoids P (APre f)
| avoids_post f :
    (forall a vw arg, view_avoids P vw arg ->
                      Forall (action_avoids P) (o_acts (f a vw arg))) ->
    action_avoids P (APost f).

(** A callback that, where it runs in a walk in copy-on-write mode, never
    replaces a node by a reference to an object of [P], neither by [update]
    nor by its return value.  Nothing is asked of it on a state whose
    current node is an object of [P]: in such a walk no state is. *)
Definition handler_avoids {A} (P : loc -> Prop) (cb : handler A) : Prop :=
  forall a vw arg,
    view_avoids P vw arg ->
    Forall (action_avoids P) (o_acts (cb a vw arg))
    /\ avoids P (o_ret (cb a vw arg)).

(** A callback that only looks: it moves its closure on by [g] and creates
    nothing, calls no state operation and returns [undefined]. *)
Definition passive {A} (g : A -> view -> A) : handler A :=
  fun a vw _ => Outcome (g a vw) [] [] VUndef.

(** A reducer that computes the next accumulator from the accumulator and
    the node and does nothing else. *)
Definition pure_reducer (f : val -> val -> val) : Traverse.reducer unit :=
  fun c _ acc x => Outcome c [] [] (f acc x).

(** The nodes a walk in place reaches from [v] below the ancestors with the
    originals [anc]: [v] itself and, unless [v] is a scalar or recurs among
    its ancestors, what is reached from each of its children. *)
Fixpoint count_reached (fuel : nat) (h : heap) (anc : list val) (v : val)
  : nat :=
  match fuel with
  | 0 => 0
  | S fuel' =>
      if isPureObj v && bool_decide (v ∉ anc) then
        S (sum_list
             ((fun k => count_reached fuel' h (anc ++ [v]) (own_val h v k))
                <$> objectKeys h v))
      else 1
  end.

(** The same count without the circular nodes: a composite that recurs
    among its ancestors is left out. *)
Fixpoint count_noncircular (fuel : nat) (h : heap) (anc : list val) (v : val)
  : nat :=
  match fuel with
  | 0 => 0
  | S fuel' =>
      if isPureObj v then
        if bool_decide (v ∈ anc) then 0
        else
          S (sum_list
               ((fun k => count_noncircular fuel' h (anc ++ [v]) (own_val h v k))
                  <$> objectKeys h v))
      else 1
  end.

(** ** Walks that only look *)

(** A visit: the ancestor stack and the state the callback ran on. *)
Abbreviation visits := (list (list state * state)).

(** No hook registered. *)
Abbreviation no_mods := (Mods None None None None).

(** A callback that creates nothing, calls no state operation and returns
    [undefined]; it may move its closure on. *)
Definition looks_only {A} (cb : handler A) : Prop :=
  forall a vw arg,
    o_new (cb a vw arg) = [] /\ o_acts (cb a vw arg) = []
    /\ o_ret (cb a vw arg) = VUndef.

(** How the closure of a callback moves on at a visit of a walk over the
    heap [h]. *)
Definition user_step {A} (cb : handler A) (h : heap) (a : A)
  (v : list state * state) : A :=
  o_user (cb a (View h v.1 v.2) (HNode (node v.2))).

Section Looking.

Variable h : heap.

(** The visits under the keys [ks] of the composite [v], whose state is the
    last of [ps]. *)
Fixpoint looked_keys
  (rec : list pkey -> list state -> val -> option (list (list state * state) * state))
  (pth : list pkey) (ps : list state) (v : val) (ks : list pkey)
  : option (list (list state * state)) :=
  match ks with
  | [] => Some []
  | k :: ks' =>
      '(vs1, _) ← rec (pth ++ [k]) ps (own_val h v k);
      vs2 ← looked_keys rec pth ps v ks';
      Some (vs1 ++ vs2)
  end.

(** The visits of a walk in place that only looks, entered at [v] with the
    path [pth] and the ancestor stack [ps], in order, and the state of [v]
    when its visit returns. *)
Fixpoint looked (fuel : nat) (pth : list pkey) (ps : list state) (v : val)
  : option (list (list state * state) * state) :=
  match fuel with
  | 0 => None
  | S fuel' =>
      let s := updateState h ps (new_state v v pth ps) in
      if isPureObj v && bool_decide (circular s = None) then
        let s2 := updateState h (ps ++ [s]) s in
        vs ← looked_keys (looked fuel') pth (ps ++ [s2]) v (default [] (keys s2));
        Some ((ps, s) :: vs, s2)
      else Some ([(ps, s)], s)
  end.

End Looking.

(** What the walker of the children is assumed to do, one level down. *)
Definition follows {A} (cb : handler A) (h : heap)
  (rec : wstate A -> val -> result (wstate A * state))
  (prec : list pkey -> list state -> val
          -> option (list (list state * state) * state)) : Prop :=
  forall pth ps a vis st x,
    rec (WState h pth ps true a vis st) x
    = match prec pth ps x with
      | Some (vs, s) =>
          Ok (WState h pth ps true (fold_left (user_step cb h) vs a)
                     (vis ++ vs) st, s)
      | None => Err OutOfFuel
      end.

(** ** Example heaps and callbacks *)

Module Examples.

(** [o = {}; o.self = o] *)
Definition self_heap : heap := [Obj KPlain [(KName "self", VRef 0)]].

(** [{x: d, y: 10, z: 5}] with [d] a date of instant [t]. *)
Definition date_heap (t : Z) : heap :=
  [Obj KPlain [(KName "x", VRef 1); (KName "y", VNum 10); (KName "z", VNum 5)];
   Obj (KDate t) []].

(** [{a: {b: 1}}] *)
Definition nested_heap : heap :=
  [Obj KPlain [(KName "a", VRef 1)]; Obj KPlain [(KName "b", VNum 1)]].

(** [{a: undefined}] *)
Definition undef_heap : heap := [Obj KPlain [(KName "a", VUndef)]].

(** [["a", {k: 1}, "c"]] *)
Definition seq_heap : heap :=
  [Obj (KArray 3) [(KIdx 0, VStr "a"); (KIdx 1, VRef 1); (KIdx 2, VStr "c")];
   Obj KPlain [(KName "k", VNum 1)]].

Definition noop : handler unit := passive (fun a _ => a).

(** [function (x) { if (typeof x === 'number') this.update(x + 100) }] *)
Definition add100 : handler unit :=
  fun a _ arg =>
    match arg with
    | HNode (VNum n) => Outcome a [] [AUpdate (VNum (n + 100)) false] VUndef
    | _ => Outcome a [] [] VUndef
    end.

(** [function () { if (this.isRoot) return this.node_ }]: the root is
    replaced by its original. *)
Definition restore_root : handler unit :=
  fun a vw _ =>
    if isRoot (v_this vw) then Outcome a [] [] (node_ (v_this vw))
    else Outcome a [] [] VUndef.

(** [function () { if (this.key == 1) this.remove(true) }] *)
Definition remove_second : handler unit :=
  fun a vw _ =>
    if decide (key (v_this vw) = Some (KIdx 1))
    then Outcome a [] [ARemove true] VUndef
    else Outcome a [] [] VUndef.

(** [function () { if (this.isRoot) this.delete() }] *)
Definition delete_root : handler unit :=
  fun a vw _ =>
    if isRoot (v_this vw) then Outcome a [] [ADelete false] VUndef
    else Outcome a [] [] VUndef.

(** [function () { if (this.isRoot) this.stop() }] *)
Definition stop_at_root : handler unit :=
  fun a vw _ =>
    if isRoot (v_this vw) then Outcome a [] [AStop] VUndef
    else Outcome a [] [] VUndef.

(** [(acc, x) => typeof x === 'number' ? acc + x : acc], numbers only. *)
Definition add_numbers (acc x : val) : val :=
  match acc, x with
  | VNum a, VNum b => VNum (a + b)
  | _, _ => acc
  end.

End Examples.

(** ** Invariants of a walk *)

Section Invariants.

Context {A : Type}.
Implicit Types (w : wstate A) (lc : locals A) (s : state).

(** What an operation leaves alone: the walk's [path], [parents], closure
    and record of visits, and every field of the state but [node]. *)
Definition same_frame w lc w' lc' : Prop :=
  w_path w' = w_path w /\ w_parents w' = w_parents w
  /\ w_user w' = w_user w /\ w_visits w' = w_visits w
  /\ node_ (l_state lc') = node_ (l_state lc)
  /\ path (l_state lc') = path (l_state lc)
  /\ parent (l_state lc') = parent (l_state lc)
  /\ key (l_state lc') = key (l_state lc)
  /\ isRoot (l_state lc') = isRoot (l_state lc)
  /\ circular (l_state lc') = circular (l_state lc)
  /\ keys (l_state lc') = keys (l_state lc)
  /\ (w_alive w = false -> w_alive w' = false)
  /\ (keepGoing lc = false -> keepGoing lc' = false).

(** What a stopped walk keeps: it stays stopped and no callback runs. *)
Definition stays_stopped w w' : Prop :=
  w_alive w' = false /\ w_visits w' = w_visits w.

(** The walk's record of visits only grows, by visits that satisfy [P]. *)
Definition grows (P : list state * state -> Prop) w w' : Prop :=
  exists vs, w_visits w' = w_visits w ++ vs /\ Forall P vs.

(** The history of stopping is in step with [alive]: as long as [stop] was
    not called the walk is alive; from the first call on it is not, and no
    run of the callback has been recorded since. *)
Definition stop_recorded w : Prop :=
  match w_stopped w with
  | Some n => w_alive w = false /\ length (w_visits w) = n
  | None => w_alive w = true
  end.

(** The objects [P] are in the heap [h] and are what they were in [h0]. *)
Definition heap_keeps (P : loc -> Prop) (h0 h : heap) : Prop :=
  (forall l, P l -> l < length h) /\ (forall l, P l -> h !! l = h0 !! l).

(** The heap of the walk keeps the objects [P], and no state of the
    ancestor stack has one of them as its current node. *)
Definition keeps (P : loc -> Prop) (h0 : heap) w : Prop :=
  heap_keeps P h0 (w_heap w)
  /\ Forall (fun p => avoids P (node p)) (w_parents w).

Definition hook_avoids (P : loc -> Prop) (f : option (handler A)) : Prop :=
  match f with
  | Some f => forall a vw arg, view_avoids P vw arg ->
                               Forall (action_avoids P) (o_acts (f a vw arg))
  | None => True
  end.

(** The current node of the state is none of the objects [P], and neither
    will a registered hook make it one. *)
Definition locals_avoid (P : loc -> Prop) lc : Prop :=
  avoids P (node (l_state lc))
  /\ hook_avoids P (before (l_mods lc)) /\ hook_avoids P (after (l_mods lc))
  /\ hook_avoids P (pre (l_mods lc)) /\ hook_avoids P (post (l_mods lc)).

End Invariants.

(** ** More notions for the engine *)

(** One past the largest index among the keys: the [length] a sequence gets
    when these keys are assigned to an empty one. *)
Fixpoint extent (ps : list (pkey * val)) : nat :=
  match ps with
  | [] => 0
  | (KIdx i, _) :: ps' => Nat.max (S i) (extent ps')
  | (KName _, _) :: ps' => extent ps'
  end.

(** The kind of the copy of an object of kind [kd] with the own properties
    [ps]. *)
Definition copied_kind (kd : okind) (ps : list (pkey * val)) : okind :=
  match kd with
  | KArray _ => KArray (extent ps)
  | KError _ => KPlain
  | KBoolean _ => KBoolean true
  | kd => kd
  end.

(** The operations that veto the descent when they succeed: [block], and
    [update] and [delete] called with [stopHere]. *)
Definition vetoes {A} (a : action A) : bool :=
  match a with
  | ABlock => true
  | AUpdate _ true => true
  | ADelete true => true
  | _ => false
  end.

(** The ancestors' paths are the prefixes of the walk's [path]. *)
Definition prefixes {A} (w : wstate A) : Prop :=
  forall i p, w_parents w !! i = Some p -> path p = take i (w_path w).

(** The shape of the state of a visit below the ancestors [anc]. *)
Definition shaped (v : list state * state) : Prop :=
  let '(anc, s) := v in
  level s = length anc
  /\ length (path s) = length anc
  /\ isRoot s = bool_decide (anc = [])
  /\ parent s = (match anc with [] => None | _ => Some (pred (length anc)) end)
  /\ key s = last (path s)
  /\ (forall i p, anc !! i = Some p -> path p = take i (path s)).

(** What the visit of a child is assumed to keep, for the shape of the
    visits: it restores the walk's [path] and ancestor stack, and the visits
    it records are [shaped]. *)
Definition restores {A} (rec : wstate A -> val -> result (wstate A * state))
  : Prop :=
  forall w x w' s,
    length (w_path w) = length (w_parents w) -> prefixes w ->
    rec w x = Ok (w', s) ->
    w_path w' = w_path w /\ w_parents w' = w_parents w /\ grows shaped w w'.

(** The loop over the children: between two children the walk's [path] is
    [pth], the path of the state of the loop, which is on top of the
    ancestors [ps0]. *)
Definition in_loop {A} (ps0 : list state) (pth : list pkey) (w : wstate A)
  (lc : locals A) : Prop :=
  w_path w = pth
  /\ (exists top, w_parents w = ps0 ++ [top] /\ path top = pth)
  /\ path (l_state lc) = pth.

(** Where a visit is, seen from the node the walk was entered at: its path
    continues the path of the entry by keys that resolve to its node. *)
Definition placed (h : heap) (pth : list pkey) (v : val)
  (x : list state * state) : Prop :=
  exists rel, path x.2 = pth ++ rel /\ resolve h v rel = Some (node x.2).

(** A value that is no dangling reference into a heap of [n] objects. *)
Definition in_heap (n : nat) (v : val) : bool :=
  match v with VRef l => bool_decide (l < n) | _ => true end.

(** A heap without dangling references: every value that one of its objects
    holds, as a property or as the message of an error-like, is
    [in_heap]. *)
Definition closed (h : heap) : bool :=
  forallb (fun o =>
             forallb (fun kv => in_heap (length h) kv.2) (props o)
             && match kind o with
                | KError msg => in_heap (length h) msg
                | _ => true
                end) h.

(** [v'] stands for [v] in a deep copy of a heap of [n] objects: the same
    scalar, or an object that was not in the heap. *)
Definition fresh_for (n : nat) (v v' : val) : Prop :=
  match v with
  | VRef _ => exists l', v' = VRef l' /\ n <= l'
  | _ => v' = v
  end.

(** The heap [h] still has the objects of [h0], as they were. *)
Definition extends (h0 h : heap) : Prop :=
  forall l, l < length h0 -> h !! l = h0 !! l.

(** The objects one [clone] of the heap [h0] has made so far are those from
    [length h0] on; [orig] lists their origins in the order they were made:
    the object [length h0 + j] was made for the object [orig !! j].  The
    image of a value is an object made for it or, of a scalar, what [g]
    makes of it: the scalar itself in [clone]. *)
Definition image (g : val -> val) (n : nat) (orig : list loc) (v v' : val)
  : Prop :=
  match v with
  | VRef m => exists j, v' = VRef (n + j) /\ orig !! j = Some m
  | _ => v' = g v
  end.

(** The [i]-th new object is finished: under every key of its origin it
    holds the image of what the origin holds there. *)
Definition mirrors (g : val -> val) (h0 : heap) (orig : list loc) (h : heap)
  (i : nat) : Prop :=
  exists m,
    orig !! i = Some m
    /\ forall k v,
         assoc k (props (deref h0 m)) = Some v ->
         exists v', assoc k (props (deref h (length h0 + i))) = Some v'
                    /\ image g (length h0) orig v v'.

(** What holds between the calls of the inner [clone]: the objects of [h0]
    are as they were, the two lists pair each original on the way from the
    root with the object made for it, and every new object that is not in
    the making is finished. *)
Definition cloning (h0 : heap) (orig : list loc) (c : Traverse.cstate) : Prop :=
  extends h0 (Traverse.c_heap c)
  /\ length (Traverse.c_heap c) = length h0 + length orig
  /\ Forall2 (fun p nd => exists m j, p = VRef m /\ nd = VRef (length h0 + j)
                                      /\ orig !! j = Some m)
             (Traverse.c_parents c) (Traverse.c_nodes c)
  /\ forall i, i < length orig -> VRef (length h0 + i) ∉ Traverse.c_nodes c ->
               mirrors id h0 orig (Traverse.c_heap c) i.

(** The flags of a state when the callback runs on it: [notRoot] and
    [notLeaf] negate [isRoot] and [isLeaf]; a scalar is a leaf without keys,
    a composite has its keys and is a leaf when it has none; [isFirst] and
    [isLast] are not yet assigned. *)
Definition flagged (v : list state * state) : Prop :=
  let s := v.2 in
  notRoot s = Some (negb (isRoot s))
  /\ isFirst s = None /\ isLast s = None
  /\ exists leaf,
       isLeaf s = Some leaf /\ notLeaf s = Some (negb leaf)
       /\ if isPureObj (node s)
          then exists ks, keys s = Some ks /\ leaf = bool_decide (length ks = 0)
          else keys s = None /\ leaf = true.

(** ** Notions for [map] as a transformer of leaves *)

(** [function (x) { if (typeof x !== 'object') return f(x) }]: the callback
    that returns [f x] at a scalar and nothing at a composite. *)
Definition leaf_map {A} (f : val -> val) : handler A :=
  fun a _ arg =>
    Outcome a [] []
      (match arg with
       | HNode x => if isPureObj x then VUndef else f x
       | _ => VUndef
       end).

(** What a walk with [leaf_map f] makes of a scalar: a defined result
    replaces it. *)
Definition replaced (f : val -> val) (x : val) : val :=
  if decide (f x = VUndef) then x else f x.

(** A reference held by the object [l] of a heap of [n] objects points
    forwards. *)
Definition forward (n : nat) (l : loc) (v : val) : bool :=
  match v with VRef m => bool_decide (l < m < n) | _ => true end.

(** A heap laid out forwards: every reference that an object holds, as a
    property or as the message of an error-like, is to a later object of
    the heap.  Such a heap has neither a cycle nor a dangling reference. *)
Fixpoint ordered_from (n : nat) (l : loc) (h : heap) : bool :=
  match h with
  | [] => true
  | o :: h' =>
      forallb (fun kv => forward n l kv.2) (props o)
      && match kind o with KError msg => forward n l msg | _ => true end
      && ordered_from n (S l) h'
  end.

Definition ordered (h : heap) : bool := ordered_from (length h) 0 h.

(** The fuel that is enough to visit [v] in a heap of [n] objects laid out
    forwards. *)
Definition enough (n : nat) (fuel : nat) (v : val) : Prop :=
  match v with VRef l => n < l + fuel | _ => 0 < fuel end.

(** What holds when [walker] is entered at the value [v] of the original
    heap [h0], in copy-on-write mode with [leaf_map]: the objects of [h0]
    are as they were, [v] lies after the originals of its ancestors, the
    node of its parent is a new object, and every new object that is not
    the node of an ancestor is finished. *)
Definition leaf_pre (g : val -> val) (h0 : heap) (orig : list loc) (hp : heap)
  (pth : list pkey) (ps : list state) (v : val) : Prop :=
  extends h0 hp
  /\ length hp = length h0 + length orig
  /\ length pth = length ps
  /\ match v with
     | VRef l =>
         l < length h0
         /\ Forall (fun p => exists m, node_ p = VRef m /\ m < l) ps
     | _ => True
     end
  /\ (forall top, last ps = Some top ->
                  exists d, node top = VRef d /\ length h0 <= d < length hp)
  /\ (forall i, i < length orig -> VRef (length h0 + i) ∉ node <$> ps ->
                mirrors g h0 orig hp i).

(** What holds when it returns the state [s]: its node is the image of
    [v]; of the objects that were there only the node of the parent has
    changed, and only under the key of [v]. *)
Definition leaf_post (g : val -> val) (h0 : heap) (orig : list loc) (hp : heap)
  (pth : list pkey) (ps : list state) (v : val)
  (orig' : list loc) (h' : heap) (s : state) : Prop :=
  orig `prefix_of` orig'
  /\ extends h0 h'
  /\ length h' = length h0 + length orig'
  /\ image g (length h0) orig' v (node s)
  /\ (forall i, i < length orig' -> VRef (length h0 + i) ∉ node <$> ps ->
                mirrors g h0 orig' h' i)
  /\ (forall l0, l0 < length hp ->
                 (forall top, last ps = Some top -> node top <> VRef l0) ->
                 h' !! l0 = hp !! l0)
  /\ (forall top d k,
        last ps = Some top -> node top = VRef d -> last pth = Some k ->
        (forall k', k' <> k -> assoc k' (props (deref h' d))
                               = assoc k' (props (deref hp d)))
        /\ (is_Some (assoc k (props (deref hp d))) ->
            is_Some (assoc k (props (deref h' d))))).

(** The walker of the children, with fuel [fuel]. *)
Definition leaf_walks {A} (f : val -> val) (h0 : heap) (fuel : nat)
  (rec : wstate A -> val -> result (wstate A * state)) : Prop :=
  forall orig hp pth ps a vis st v,
    enough (length h0) fuel v ->
    leaf_pre (replaced f) h0 orig hp pth ps v ->
    exists orig' h' vis' s,
      rec (WState hp pth ps true a vis st) v
      = Ok (WState h' pth ps true a vis' st, s)
      /\ leaf_post (replaced f) h0 orig hp pth ps v orig' h' s.

(** A heap whose objects have distinct own keys, as [Object.keys] gives
    them. *)
Definition well_keyed (h : heap) : bool :=
  forallb (fun o => bool_decide (NoDup (props o).*1)) h.

(** ** The order of the hooks *)

(** What an observer of a walk records: the runs of the callback and of
    the four hooks, each with the path of the state it is bound to and what
    it is handed. *)
Inductive event :=
| EVisit (pth : list pkey) (x : val)
| EBefore (pth : list pkey) (x : val)
| EPre (pth : list pkey) (x : val) (k : pkey)
| EPost (pth : list pkey) (child : list pkey) (first last : option bool)
| EAfter (pth : list pkey) (x : val).

Definition log_before : handler (list event) :=
  fun a vw arg =>
    Outcome (a ++ [EBefore (path (v_this vw))
                     (match arg with HNode x => x | _ => VUndef end)])
            [] [] VUndef.

Definition log_after : handler (list event) :=
  fun a vw arg =>
    Outcome (a ++ [EAfter (path (v_this vw))
                     (match arg with HNode x => x | _ => VUndef end)])
            [] [] VUndef.

Definition log_pre : handler (list event) :=
  fun a vw arg =>
    Outcome (a ++ match arg with
                  | HPre x k => [EPre (path (v_this vw)) x k]
                  | _ => []
                  end)
            [] [] VUndef.

Definition log_post : handler (list event) :=
  fun a vw arg =>
    Outcome (a ++ match arg with
                  | HPost c =>
                      [EPost (path (v_this vw)) (path c) (isFirst c) (isLast c)]
                  | _ => []
                  end)
            [] [] VUndef.

(** The observer: a callback that records its run and registers the four
    recording hooks at every node. *)
Definition tracer : handler (list event) :=
  fun a vw arg =>
    Outcome (a ++ [EVisit (path (v_this vw))
                     (match arg with HNode x => x | _ => VUndef end)])
            []
            [ABefore log_before; AAfter log_after; APre log_pre; APost log_post]
            VUndef.

Abbreviation all_logs :=
  (Mods (Some log_before) (Some log_after) (Some log_pre) (Some log_post)).

Section Expected.

Variable h : heap.

(** What is recorded in the loop over the keys [ks] of [v], from the
    [i]-th of [n] on: for each key the [pre] hook, the records of the
    child, and the [post] hook, which is handed the child marked as first
    or last. *)
Fixpoint expected_keys (rec : list pkey -> val -> option (list event))
  (pth : list pkey) (v : val) (ks : list pkey) (i n : nat)
  : option (list event) :=
  match ks with
  | [] => Some []
  | k :: ks' =>
      evs1 ← rec (pth ++ [k]) (own_val h v k);
      evs2 ← expected_keys rec pth v ks' (S i) n;
      Some (EPre pth (own_val h v k) k
              :: evs1
              ++ EPost pth (pth ++ [k]) (Some (bool_decide (i = 0)))
                       (Some (bool_decide (i = pred n)))
              :: evs2)
  end.

(** What is recorded at [v], below the ancestors with the originals
    [anc]: the callback, the [before] hook, the children if [v] is a
    composite that does not recur among its ancestors, and the [after]
    hook. *)
Fixpoint expected (fuel : nat) (anc : list val) (pth : list pkey) (v : val)
  : option (list event) :=
  match fuel with
  | 0 => None
  | S fuel' =>
      if isPureObj v && bool_decide (v ∉ anc) then
        evs ← expected_keys (expected fuel' (anc ++ [v])) pth v
                (objectKeys h v) 0 (length (objectKeys h v));
        Some ([EVisit pth v; EBefore pth v] ++ evs ++ [EAfter pth v])
      else Some [EVisit pth v; EBefore pth v; EAfter pth v]
  end.

End Expected.

(** What holds when [walker] is entered in copy-on-write mode with a
    callback that only looks, over the heap [h0]: the objects of [h0] are
    as they were, and the originals of the ancestors are distinct objects
    of [h0]. *)
Definition map_pre (h0 : heap) (fuel : nat) (hp : heap) (ps : list state)
  : Prop :=
  extends h0 hp
  /\ NoDup (node_ <$> ps)
  /\ Forall (fun x => exists i, x = VRef i /\ i < length h0) (node_ <$> ps)
  /\ length h0 < fuel + length ps.

(** The walker of the children, with fuel [fuel]: it returns, and has
    written into no object that was there. *)
Definition map_walks {A} (h0 : heap) (fuel : nat)
  (rec : wstate A -> val -> result (wstate A * state)) : Prop :=
  forall hp pth ps a vis st v,
    in_heap (length h0) v = true ->
    map_pre h0 fuel hp ps ->
    exists h' a' vis' s,
      rec (WState hp pth ps true a vis st) v
      = Ok (WState h' pth ps true a' vis' st, s)
      /\ length hp <= length h'
      /\ (forall l0, l0 < length hp -> h' !! l0 = hp !! l0)
      /\ node s = (if isPureObj v then VRef (length hp) else v).

(** More callbacks for the examples. *)
Module MoreExamples.

(** [function () { this.block() }] *)
Definition block_all : handler unit :=
  fun a _ _ => Outcome a [] [ABlock] VUndef.

(** [function () { if (this.isRoot) return 7 }] *)
Definition seven_at_root : handler unit :=
  fun a vw _ =>
    if isRoot (v_this vw) then Outcome a [] [] (VNum 7)
    else Outcome a [] [] VUndef.

(** [function (x) { return x }]: in [forEachs] the return value is dropped. *)
Definition echo : handler unit :=
  fun a _ arg =>
    Outcome a [] [] (match arg with HNode x => x | _ => VUndef end).

(** [function () { return this.node }] *)
Definition this_node : handler unit :=
  fun a vw _ => Outcome a [] [] (node (v_this vw)).

End MoreExamples.

(** * [gc.js]: the memory-release helper, a client of the engine *)

Module GC.

(** [path.map(pathPart => ignore.includes(pathPart)).includes(true)] *)
Definition shouldIgnore (ignore : list pkey) (pth : list pkey) : bool :=
  existsb (fun pathPart => bool_decide (pathPart ∈ ignore)) pth.

(** The callback handed to [forEachs].  Its argument [traverser] is the
    state of the visit; a state has no field [value], so the [value] it
    destructures is [undefined], whatever the node.  [is/obj] is not among
    the source files: [is_obj] stands for [isObj]. *)
Definition gc_cb (is_obj : val -> bool) (ignore : list pkey) : handler unit :=
  fun a vw _ =>
    let value := VUndef in
    if negb (shouldIgnore ignore (path (v_this vw)))
       && negb (isArray (v_heap vw) value) && negb (is_obj value)
    then Outcome a [] [ARemove false] VUndef
    else Outcome a [] [] VUndef.

(** [for (let p = 0; p < props.length; p++) delete obj[p]], from [p] on;
    [n] is what is left of [props.length]. *)
Fixpoint delete_indices (h : heap) (obj : val) (p n : nat) : result heap :=
  match n with
  | 0 => Ok h
  | S n' => h' ← delete_prop h obj (KIdx p); delete_indices h' obj (S p) n'
  end.

(** [markForGarbageCollection(obj, ignore)].  [util/props] is not among the
    source files; of the list that [ObjectProperties(obj)] returns the
    function reads the length only, which is the argument [nprops]. *)
Definition markForGarbageCollection (is_obj : val -> bool) (fuel : nat)
  (h : heap) (obj : val) (nprops : nat) (ignore : list pkey) : result heap :=
  h1 ← (if decide (10 < nprops) then
          '(w, _, _) ← Traverse.forEachs fuel h (Traverse.Make obj) tt
                         (gc_cb is_obj ignore);
          Ok (w_heap w)
        else Ok h);
  delete_indices h1 obj 0 nprops.

(** What holds when [walker] is entered below the root [l] in a walk in
    place with [gc_cb]: the state of the root is the first of the ancestor
    stack and the only one whose node is the root, which is no sequence;
    the ancestors are distinct objects of the heap. *)
Definition gc_pre (l : loc) (fuel : nat) (hp : heap) (pth : list pkey)
  (ps : list state) : Prop :=
  length pth = length ps
  /\ (exists s0 rest,
        ps = s0 :: rest /\ node s0 = VRef l /\ node_ s0 = VRef l
        /\ Forall (fun p => node p <> VRef l) rest)
  /\ Forall (fun p => isPureObj (node p) = true) ps
  /\ isArray hp (VRef l) = false
  /\ NoDup (node_ <$> ps)
  /\ Forall (fun x => exists i, x = VRef i /\ i < length hp) (node_ <$> ps)
  /\ length hp < fuel + length ps.

(** What the visit has done to the root when it returns: a child of the
    root on a path that is not ignored has deleted its key, and nothing
    else has changed. *)
Definition gc_post (l : loc) (ignore : list pkey) (hp : heap)
  (pth : list pkey) (ps : list state) (h' : heap) : Prop :=
  length h' = length hp
  /\ kind (deref h' l) = kind (deref hp l)
  /\ forall k,
       assoc k (props (deref h' l))
       = if decide (length ps = 1 /\ last pth = Some k
                    /\ shouldIgnore ignore pth = false)
         then None else assoc k (props (deref hp l)).

(** The walker of the children, with fuel [fuel]. *)
Definition gc_walks (is_obj : val -> bool) (l : loc) (ignore : list pkey)
  (fuel : nat) (rec : wstate unit -> val -> result (wstate unit * state))
  : Prop :=
  forall hp pth ps vis st v,
    gc_pre l fuel hp pth ps ->
    exists h' vis' s,
      rec (WState hp pth ps true tt vis st) v
      = Ok (WState h' pth ps true tt vis' st, s)
      /\ gc_post l ignore hp pth ps h'.

End GC.

(** * Properties *)

(** ** Results *)

Lemma bind_Ok {T U} (m : result T) (f : T -> result U) (y : U) :
  m ≫= f = Ok y -> exists x, m = Ok x /\ f x = Ok y.
Proof. destruct m as [x|e]; simpl; [eauto | discriminate]. Qed.

Ltac inv_bind H :=
  let x := fresh "x" in
  let Hx := fresh "Hx" in
  apply bind_Ok in H; destruct H as (x & Hx & H).

Tactic Notation "bind_inv" hyp(H) "as" simple_intropattern(p) ident(Hx) :=
  apply bind_Ok in H; destruct H as [p [Hx H]].

(** ** Path lookup: [get] and [has] *)

Section PathLookup.

Variable h : heap.

Lemma own_step (node : val) (k : pkey) :
  negb (truthy node) || negb (hasOwnProperty h node k) = false ->
  exists l x, node = VRef l /\ assoc k (props (deref h l)) = Some x
              /\ get_prop h node k = Ok x.
Proof.
  intros H. apply orb_false_iff in H as [_ H]. apply negb_false_iff in H.
  destruct node; simpl in H; try discriminate.
  apply bool_decide_eq_true in H as [x Hx].
  exists l, x. simpl. rewrite Hx. auto.
Qed.

Lemma absent_step (node : val) (k : pkey) :
  negb (truthy node) || negb (hasOwnProperty h node k) = true ->
  resolve h node [k] = None.
Proof.
  intros H. destruct node; simpl; try reflexivity.
  simpl in H. apply negb_true_iff, bool_decide_eq_false in H.
  destruct (assoc k (props (deref h l))) eqn:E; [|reflexivity].
  exfalso. apply H. eauto.
Qed.

Lemma resolve_cons_None (node : val) (k : pkey) (ps : list pkey) :
  resolve h node [k] = None -> resolve h node (k :: ps) = None.
Proof.
  destruct node; simpl; auto.
  destruct (assoc k (props (deref h l))); [discriminate | auto].
Qed.

Lemma get_from_resolve (ps : list pkey) : forall node,
  Traverse.get_from h node ps = Ok (default VUndef (resolve h node ps)).
Proof.
  induction ps as [|k ps IH]; intros node; [reflexivity|].
  cbn [Traverse.get_from].
  destruct (negb (truthy node) || negb (hasOwnProperty h node k)) eqn:E.
  - by rewrite (resolve_cons_None _ _ _ (absent_step _ _ E)).
  - destruct (own_step _ _ E) as (l & x & -> & Hx & Hg).
    rewrite Hg. simpl. rewrite Hx. apply IH.
Qed.

Lemma has_from_resolve (ps : list pkey) : forall node,
  Traverse.has_from h node ps = Ok (bool_decide (is_Some (resolve h node ps))).
Proof.
  induction ps as [|k ps IH]; intros node.
  - reflexivity.
  - cbn [Traverse.has_from].
    destruct (negb (truthy node) || negb (hasOwnProperty h node k)) eqn:E.
    + by rewrite (resolve_cons_None _ _ _ (absent_step _ _ E)).
    + destruct (own_step _ _ E) as (l & x & -> & Hx & Hg).
      rewrite Hg. simpl. rewrite Hx. apply IH.
Qed.

(** C5.  [get] and [has] never throw: on every heap, root and key path they
    return a value.  Both resolve the path through own properties of
    containers only ([resolve]); [get] returns what the path resolves to and
    [undefined] when a key is missing or a value on the way is not a
    container, and [has] returns [false] exactly in that case of absence and
    [true] otherwise. *)
Theorem get_has_absence (this : Traverse.t) (ps : list pkey) :
  Traverse.get h this ps = Ok (default VUndef (resolve h (Traverse.value this) ps))
  /\ Traverse.has h this ps
     = Ok (bool_decide (is_Some (resolve h (Traverse.value this) ps)))
  /\ (Traverse.has h this ps = Ok false
      <-> resolve h (Traverse.value this) ps = None)
  /\ (resolve h (Traverse.value this) ps = None
      -> Traverse.get h this ps = Ok VUndef).
Proof.
  unfold Traverse.get, Traverse.has.
  rewrite get_from_resolve, has_from_resolve.
  split; [reflexivity|]. split; [reflexivity|]. split; [split|].
  - intros [= H]. apply bool_decide_eq_false in H.
    destruct (resolve _ _ _); [exfalso; eauto | reflexivity].
  - by intros ->.
  - by intros ->.
Qed.

End PathLookup.

(** A key that holds [undefined] is present: [get] returns the stored
    [undefined] and [has] returns [true]. *)
Example get_has_stored_undefined :
  Traverse.get Examples.undef_heap (Traverse.Make (VRef 0)) [KName "a"] = Ok VUndef
  /\ Traverse.has Examples.undef_heap (Traverse.Make (VRef 0)) [KName "a"] = Ok true.
Proof. split; reflexivity. Qed.

(** ** State operations *)

Section Operations.

Context {A : Type}.
Implicit Types (w : wstate A) (lc : locals A) (a : action A) (s : state).

Lemma same_frame_refl w lc : same_frame w lc w lc.
Proof. unfold same_frame; tauto. Qed.

Lemma same_frame_trans w1 lc1 w2 lc2 w3 lc3 :
  same_frame w1 lc1 w2 lc2 -> same_frame w2 lc2 w3 lc3 ->
  same_frame w1 lc1 w3 lc3.
Proof.
  unfold same_frame. intros H1 H2.
  destruct H1 as (?&?&?&?&?&?&?&?&?&?&?&?&?).
  destruct H2 as (?&?&?&?&?&?&?&?&?&?&?&?&?).
  repeat split; try congruence; auto.
Qed.

Lemma stop_here_state b lc : l_state (stop_here b lc) = l_state lc.
Proof. by destruct b. Qed.

Lemma stop_here_keepGoing b lc :
  keepGoing lc = false -> keepGoing (stop_here b lc) = false.
Proof. by destruct b. Qed.

Lemma exec_action_frame a w lc w' lc' :
  exec_action a w lc = Ok (w', lc') -> same_frame w lc w' lc'.
Proof.
  destruct a as [x b|b|b| | |f|f|f|f]; simpl; intros H.
  - inv_bind H. injection H as <- <-.
    unfold same_frame; destruct b; simpl; repeat split; auto.
  - inv_bind H. inv_bind H. injection H as <- <-.
    unfold same_frame; destruct b; simpl; repeat split; auto.
  - destruct (parent (l_state lc)).
    + inv_bind H. inv_bind H. injection H as <- <-.
      unfold same_frame; destruct b; simpl; repeat split; auto.
    + injection H as <- <-. apply same_frame_refl.
  - injection H as <- <-. unfold same_frame. simpl. repeat split; auto.
  - injection H as <- <-. unfold same_frame. simpl. repeat split; auto.
  - injection H as <- <-. unfold same_frame. simpl. repeat split; auto.
  - injection H as <- <-. unfold same_frame. simpl. repeat split; auto.
  - injection H as <- <-. unfold same_frame. simpl. repeat split; auto.
  - injection H as <- <-. unfold same_frame. simpl. repeat split; auto.
Qed.

Lemma exec_actions_frame acts : forall w lc w' lc',
  exec_actions acts w lc = Ok (w', lc') -> same_frame w lc w' lc'.
Proof.
  induction acts as [|a acts IH]; simpl; intros w lc w' lc' H.
  - injection H as <- <-. apply same_frame_refl.
  - inv_bind H. destruct x as [w1 lc1].
    eapply same_frame_trans; [eapply exec_action_frame | eapply IH]; eauto.
Qed.

Lemma exec_actions_app acts1 acts2 w lc :
  exec_actions (acts1 ++ acts2) w lc
  = '(w', lc') ← exec_actions acts1 w lc; exec_actions acts2 w' lc'.
Proof.
  revert w lc. induction acts1 as [|a acts1 IH]; intros w lc; [reflexivity|].
  simpl. destruct (exec_action a w lc) as [[w1 lc1]|e]; simpl; auto.
Qed.

(** [delete] on a state without parent throws, whatever ran before it on
    that state. *)
Lemma exec_actions_delete_root acts b : forall w lc,
  ADelete b ∈ acts -> parent (l_state lc) = None ->
  exec_actions acts w lc = Err TypeError.
Proof.
  induction acts as [|a acts IH]; intros w lc Hin Hp.
  - by apply elem_of_nil in Hin.
  - apply elem_of_cons in Hin as [<- | Hin].
    + simpl. unfold parent_node. by rewrite Hp.
    + simpl. destruct (exec_action a w lc) as [[w1 lc1]|e] eqn:E; simpl.
      * apply IH; [done|].
        apply exec_action_frame in E. unfold same_frame in E.
        destruct E as (_&_&_&_&_&_&E&_). by rewrite E.
      * destruct a; simpl in E; try discriminate.
        -- destruct (isRoot (l_state lc)); simpl in E; [discriminate|].
           unfold parent_node in E. rewrite Hp in E. simpl in E. congruence.
        -- unfold parent_node in E. rewrite Hp in E. simpl in E. congruence.
        -- rewrite Hp in E. discriminate.
Qed.

(** Once [remove(true)] has run on a state with a parent, descent is
    vetoed, unless the walk has thrown. *)
Lemma exec_actions_remove_veto acts : forall w lc w' lc',
  ARemove true ∈ acts -> parent (l_state lc) <> None ->
  exec_actions acts w lc = Ok (w', lc') -> keepGoing lc' = false.
Proof.
  induction acts as [|a acts IH]; intros w lc w' lc' Hin Hp H.
  - by apply elem_of_nil in Hin.
  - simpl in H. inv_bind H. destruct x as [w1 lc1].
    apply elem_of_cons in Hin as [<- | Hin].
    + assert (keepGoing lc1 = false) as Hk.
      { simpl in Hx. destruct (parent (l_state lc)); [|done].
        inv_bind Hx. inv_bind Hx. by injection Hx as <- <-. }
      apply exec_actions_frame in H. unfold same_frame in H.
      destruct H as (_&_&_&_&_&_&_&_&_&_&_&_&H). auto.
    + assert (parent (l_state lc1) = parent (l_state lc)) as Hp1.
      { apply exec_action_frame in Hx. unfold same_frame in Hx. tauto. }
      apply (IH w1 lc1 w' lc'); [done | by rewrite Hp1 | done].
Qed.

Lemma run_handler_frame (f : handler A) arg w lc w' lc' r :
  run_handler f arg w lc = Ok (w', lc', r) ->
  w_path w' = w_path w /\ w_parents w' = w_parents w
  /\ w_visits w' = w_visits w
  /\ node_ (l_state lc') = node_ (l_state lc)
  /\ path (l_state lc') = path (l_state lc)
  /\ parent (l_state lc') = parent (l_state lc)
  /\ isRoot (l_state lc') = isRoot (l_state lc)
  /\ circular (l_state lc') = circular (l_state lc)
  /\ (w_alive w = false -> w_alive w' = false)
  /\ (keepGoing lc = false -> keepGoing lc' = false).
Proof.
  unfold run_handler. intros H. inv_bind H. destruct x as [w1 lc1].
  injection H as <- <- <-.
  apply exec_actions_frame in Hx. unfold same_frame in Hx. simpl in Hx.
  destruct Hx as (?&?&?&?&?&?&?&?&?&?&?&?&?). repeat split; auto.
Qed.

Lemma run_hook_frame (f : option (handler A)) arg w lc w' lc' :
  run_hook f arg w lc = Ok (w', lc') ->
  w_path w' = w_path w /\ w_parents w' = w_parents w
  /\ w_visits w' = w_visits w
  /\ node_ (l_state lc') = node_ (l_state lc)
  /\ path (l_state lc') = path (l_state lc)
  /\ parent (l_state lc') = parent (l_state lc)
  /\ isRoot (l_state lc') = isRoot (l_state lc)
  /\ circular (l_state lc') = circular (l_state lc)
  /\ (w_alive w = false -> w_alive w' = false)
  /\ (keepGoing lc = false -> keepGoing lc' = false).
Proof.
  destruct f as [f|]; simpl; intros H.
  - inv_bind H. destruct x as [[w1 lc1] r]. injection H as <- <-.
    eapply run_handler_frame; eauto.
  - injection H as <- <-. repeat split; auto.
Qed.

End Operations.

(** ** One visit *)

Section VisitFacts.

Context {A : Type}.
Implicit Types (w : wstate A) (lc : locals A) (s : state) (cb : handler A).

Lemma updateState_fields h ps s :
  node (updateState h ps s) = node s
  /\ node_ (updateState h ps s) = node_ s
  /\ path (updateState h ps s) = path s
  /\ parent (updateState h ps s) = parent s
  /\ key (updateState h ps s) = key s
  /\ isRoot (updateState h ps s) = isRoot s
  /\ level (updateState h ps s) = level s.
Proof. unfold updateState. destruct (isPureObj (node s)); simpl; tauto. Qed.

Lemma entry_view_heap imm w nd_ :
  v_heap (entry_view imm w nd_)
  = (if imm then copy (w_heap w) nd_ else (w_heap w, nd_)).1.
Proof. unfold entry_view. by destruct (if imm then _ else _). Qed.

Lemma entry_view_parents imm w nd_ :
  v_parents (entry_view imm w nd_) = w_parents w.
Proof. unfold entry_view. by destruct (if imm then _ else _). Qed.

Lemma entry_view_eta imm w nd_ :
  View (v_heap (entry_view imm w nd_)) (w_parents w) (entry_state imm w nd_)
  = entry_view imm w nd_.
Proof.
  unfold entry_state, entry_view. by destruct (if imm then _ else _).
Qed.

Lemma entry_state_fields imm w nd_ :
  node (entry_state imm w nd_)
  = (if imm then copy (w_heap w) nd_ else (w_heap w, nd_)).2
  /\ node_ (entry_state imm w nd_) = nd_
  /\ path (entry_state imm w nd_) = w_path w
  /\ parent (entry_state imm w nd_)
     = match w_parents w with [] => None | _ => Some (pred (length (w_parents w))) end
  /\ isRoot (entry_state imm w nd_) = bool_decide (length (w_path w) = 0).
Proof.
  unfold entry_state, entry_view.
  destruct (if imm then _ else _) as [h nd]. simpl.
  pose proof (updateState_fields h (w_parents w)
                (new_state nd nd_ (w_path w) (w_parents w))) as H.
  simpl in H. destruct H as (->&->&->&->&_&->&_). tauto.
Qed.

(** The short circuit of a walk that was stopped. *)
Lemma visit_stopped cb imm rec w nd_ :
  w_alive w = false ->
  visit cb imm rec w nd_
  = let '(h, nd) := if imm then copy (w_heap w) nd_ else (w_heap w, nd_) in
    Ok (with_heap h w, new_state nd nd_ (w_path w) (w_parents w)).
Proof.
  intros Ha. unfold visit. destruct (if imm then _ else _) as [h nd].
  simpl. by rewrite Ha.
Qed.

Lemma visit_alive cb imm rec w nd_ :
  w_alive w = true ->
  visit cb imm rec w nd_
  = '(w1, lc) ← call_callback cb (with_heap (v_heap (entry_view imm w nd_)) w)
                  (entry_state imm w nd_);
    if negb (keepGoing lc) then Ok (w1, l_state lc)
    else
      '(w2, lc) ← descend imm rec w1 lc;
      '(w3, lc) ← run_hook (after (l_mods lc)) (HNode (node (l_state lc))) w2 lc;
      Ok (w3, l_state lc).
Proof.
  intros Ha. unfold visit, entry_state, entry_view.
  destruct (if imm then _ else _) as [h nd]. simpl. by rewrite Ha.
Qed.

Lemma call_callback_unfold cb imm w nd_ :
  call_callback cb (with_heap (v_heap (entry_view imm w nd_)) w)
                (entry_state imm w nd_)
  = let o := entry_outcome cb imm w nd_ in
    let s := entry_state imm w nd_ in
    let w1 := WState (v_heap (entry_view imm w nd_) ++ o_new o) (w_path w)
                     (w_parents w) (w_alive w) (o_user o)
                     (w_visits w ++ [(w_parents w, s)]) (w_stopped w) in
    '(w2, lc2) ← exec_actions (o_acts o) w1 (Locals s true (Mods None None None None));
    '(w3, lc3) ← (if negb (strict_eq (o_ret o) VUndef)
                  then exec_action (AUpdate (o_ret o) false) w2 lc2
                  else Ok (w2, lc2));
    run_hook (before (l_mods lc3)) (HNode (node (l_state lc3))) w3 lc3.
Proof.
  unfold call_callback, run_handler, entry_outcome. simpl.
  rewrite entry_view_eta.
  destruct (exec_actions _ _ _) as [[w2 lc2]|e]; reflexivity.
Qed.

(** The callback's turn leaves the original, the links and a veto as they
    are. *)
Lemma call_callback_frame cb w s w' lc' :
  call_callback cb w s = Ok (w', lc') ->
  w_path w' = w_path w /\ w_parents w' = w_parents w
  /\ w_visits w' = w_visits w ++ [(w_parents w, s)]
  /\ node_ (l_state lc') = node_ s
  /\ path (l_state lc') = path s
  /\ parent (l_state lc') = parent s
  /\ isRoot (l_state lc') = isRoot s
  /\ circular (l_state lc') = circular s
  /\ (w_alive w = false -> w_alive w' = false).
Proof.
  unfold call_callback. intros H.
  inv_bind H. destruct x as [[w1 lc1] ret].
  inv_bind H. destruct x as [w2 lc2].
  apply run_handler_frame in Hx. simpl in Hx.
  apply run_hook_frame in H.
  assert (same_frame w1 lc1 w2 lc2) as Hf.
  { destruct (negb (strict_eq ret VUndef)).
    - by apply exec_action_frame in Hx0.
    - injection Hx0 as <- <-. apply same_frame_refl. }
  unfold same_frame in Hf.
  destruct Hx as (?&?&?&?&?&?&?&?&?&?).
  destruct Hf as (?&?&?&?&?&?&?&?&?&?&?&?&?).
  destruct H as (?&?&?&?&?&?&?&?&?&?).
  repeat split; try congruence. auto.
Qed.

End VisitFacts.

(** ** Own properties under [delete] and [splice] *)

Lemma assoc_del_same (k : pkey) (ps : list (pkey * val)) :
  assoc k (assoc_del k ps) = None.
Proof.
  induction ps as [|[k' v] ps IH]; [done|].
  cbn [assoc_del]. destruct (decide (k = k')) as [->|Hne]; [done|].
  cbn [assoc]. by rewrite decide_False.
Qed.

Lemma assoc_del_other (k k' : pkey) (ps : list (pkey * val)) :
  k' <> k -> assoc k' (assoc_del k ps) = assoc k' ps.
Proof.
  intros Hne. induction ps as [|[k0 v] ps IH]; [done|].
  cbn [assoc_del assoc]. destruct (decide (k = k0)) as [<-|Hne0].
  - by rewrite decide_False.
  - cbn [assoc]. by rewrite IH.
Qed.

Lemma assoc_shift_above (start j : nat) (ps : list (pkey * val)) :
  assoc (KIdx start) ps = None -> start <= j ->
  assoc (KIdx j) (prod_map (shift_key start) id <$> ps) = assoc (KIdx (S j)) ps.
Proof.
  intros Hs Hj. induction ps as [|[k v] ps IH]; [done|].
  cbn [assoc] in Hs. rewrite fmap_cons. cbn [prod_map fst snd assoc].
  destruct (decide (KIdx start = k)) as [<-|Hk]; [discriminate|].
  specialize (IH Hs).
  destruct k as [i|n]; cbn [shift_key].
  - destruct (decide (start < i)).
    + destruct (decide (KIdx j = KIdx (pred i))) as [[= E]|Hne].
      * rewrite decide_True; [done | f_equal; lia].
      * rewrite decide_False; [done | intros [= E]; apply Hne; f_equal; lia].
    + assert (i < start) by (assert (i <> start) by congruence; lia).
      rewrite !decide_False; [done | intros [= E]; lia | intros [= E]; lia].
  - by rewrite !decide_False.
Qed.

Lemma assoc_shift_below (start j : nat) (ps : list (pkey * val)) :
  j < start ->
  assoc (KIdx j) (prod_map (shift_key start) id <$> ps) = assoc (KIdx j) ps.
Proof.
  intros Hj. induction ps as [|[k v] ps IH]; [done|].
  rewrite fmap_cons. cbn [prod_map fst snd assoc].
  destruct k as [i|n]; cbn [shift_key].
  - destruct (decide (start < i)).
    + rewrite !decide_False; [done | intros [= E]; lia | intros [= E]; lia].
    + by rewrite IH.
  - by rewrite !decide_False.
Qed.

(** ** [delete] and [remove] *)

Section DeleteRemove.

Context {A : Type}.
Implicit Types (w : wstate A) (lc : locals A) (s : state) (cb : handler A).

(** C10.  [delete] has no root guard: when the callback calls it on the
    state of the root, whose parent is [undefined], the walk ends with a
    TypeError, in either mode and whatever else the callback does there. *)
Theorem delete_on_root_throws cb (immutable : bool) (fuel : nat) (h : heap)
  (a : A) (root : val) (stopHere : bool) :
  ADelete stopHere ∈ o_acts (entry_outcome cb immutable (init_wstate h a) root) ->
  walk (S fuel) h a root cb immutable = Err TypeError.
Proof.
  intros Hin. unfold walk. fold (init_wstate h a).
  cbn [walker]. rewrite visit_alive by reflexivity.
  rewrite call_callback_unfold. cbv zeta.
  rewrite (exec_actions_delete_root _ stopHere); [reflexivity | done |].
  simpl. by destruct (entry_state_fields immutable (init_wstate h a) root)
    as (_&_&_&->&_).
Qed.

(** Descent is decided by [keepGoing] once the callback has had its turn. *)
Lemma visit_vetoed cb imm rec rec' w nd_ :
  w_alive w = true ->
  (forall w1 lc1,
     call_callback cb (with_heap (v_heap (entry_view imm w nd_)) w)
                   (entry_state imm w nd_) = Ok (w1, lc1) ->
     keepGoing lc1 = false) ->
  visit cb imm rec w nd_ = visit cb imm rec' w nd_.
Proof.
  intros Ha Hk. rewrite !visit_alive by done.
  destruct (call_callback _ _ _) as [[w1 lc1]|e]; [|reflexivity].
  simpl. by rewrite (Hk w1 lc1).
Qed.

(** C6.  [remove] on a state: without parent (the root) it changes nothing
    and raises nothing; with a parent whose current node is a sequence it
    splices the state's index out, so that the sequence is shorter by one,
    every later index moves down by one and the earlier ones stay; with any
    other parent object it deletes the state's key and leaves the other
    keys.  [remove(true)] moreover vetoes the descent: the visit then never
    calls the walker on a child.  On [["a", {k: 1}, "c"]], [remove(true)]
    at index 1 leaves [["a", "c"]], and the walk visits the root and the
    indices 0, 1 and 2 but nothing below index 1. *)
Theorem remove_operation w lc (stopHere : bool) :
  (parent (l_state lc) = None ->
   exec_action (ARemove stopHere) w lc = Ok (w, lc))
  /\ (forall i p l,
        parent (l_state lc) = Some i -> w_parents w !! i = Some p ->
        node p = VRef l ->
        exec_action (ARemove stopHere) w lc
        = Ok (with_heap
                (<[l := if isArray (w_heap w) (VRef l)
                        then splice1 (deref (w_heap w) l)
                                     (to_index (key_name (l_state lc)))
                        else del_own (deref (w_heap w) l)
                                     (key_name (l_state lc))]> (w_heap w)) w,
              stop_here stopHere lc))
  /\ (forall o len start,
        kind o = KArray len -> start < len ->
        kind (splice1 o start) = KArray (pred len)
        /\ (forall j, start <= j ->
              assoc (KIdx j) (props (splice1 o start))
              = assoc (KIdx (S j)) (props o))
        /\ (forall j, j < start ->
              assoc (KIdx j) (props (splice1 o start))
              = assoc (KIdx j) (props o)))
  /\ (forall o k,
        kind (del_own o k) = kind o
        /\ assoc k (props (del_own o k)) = None
        /\ (forall k', k' <> k ->
              assoc k' (props (del_own o k)) = assoc k' (props o)))
  /\ keepGoing (stop_here true lc) = false
  /\ (forall cb imm rec rec' w0 nd_,
        w_alive w0 = true -> w_parents w0 <> [] ->
        ARemove true ∈ o_acts (entry_outcome cb imm w0 nd_) ->
        visit cb imm rec w0 nd_ = visit cb imm rec' w0 nd_)
  /\ (forall fuel,
        exists final : wstate unit,
          Traverse.forEach (S (S fuel)) Examples.seq_heap
            (Traverse.Make (VRef 0)) tt Examples.remove_second
          = Ok (final, Traverse.Make (VRef 0), VRef 0)
          /\ deref (w_heap final) 0
             = Obj (KArray 2) [(KIdx 0, VStr "a"); (KIdx 1, VStr "c")]
          /\ (fun v => path v.2) <$> w_visits final
             = [[]; [KIdx 0]; [KIdx 1]; [KIdx 2]]).
Proof.
  split; [|split; [|split; [|split; [|split; [|split]]]]].
  - intros Hp. simpl. by rewrite Hp.
  - intros i p l Hp Hi Hn. simpl. unfold parent_node. rewrite Hp, Hi, Hn.
    simpl. by destruct (kind (deref (w_heap w) l)).
  - intros o len start Hk Hlt. unfold splice1. rewrite Hk.
    rewrite decide_True by done. simpl. split; [done|]. split.
    + intros j Hj. rewrite assoc_shift_above; [|apply assoc_del_same|done].
      apply assoc_del_other. intros [= E]. lia.
    + intros j Hj. rewrite assoc_shift_below by done.
      apply assoc_del_other. intros [= E]. lia.
  - intros o k. simpl. split; [done|]. split; [apply assoc_del_same|].
    intros k' Hne. by apply assoc_del_other.
  - reflexivity.
  - intros cb imm rec rec' w0 nd_ Ha Hps Hin.
    apply visit_vetoed; [done|]. intros w1 lc1 H.
    rewrite call_callback_unfold in H. cbv zeta in H.
    inv_bind H. destruct x as [w2 lc2]. inv_bind H. destruct x as [w3 lc3].
    apply exec_actions_remove_veto in Hx; [|done|].
    + assert (keepGoing lc3 = false) as Hk3.
      { destruct (negb (strict_eq _ _)).
        - apply exec_action_frame in Hx0. unfold same_frame in Hx0.
          destruct Hx0 as (_&_&_&_&_&_&_&_&_&_&_&_&Hk). auto.
        - by injection Hx0 as <- <-. }
      apply run_hook_frame in H.
      destruct H as (_&_&_&_&_&_&_&_&_&Hk). auto.
    + simpl. destruct (entry_state_fields imm w0 nd_) as (_&_&_&->&_).
      by destruct (w_parents w0).
  - intros fuel. eexists. split; [vm_compute; reflexivity|]. split; reflexivity.
Qed.

End DeleteRemove.

(** In copy-on-write mode the walker writes the child's node back under its
    key when the parent has that key: after [remove(true)] at index 1 of
    [["a", {k: 1}, "c"]] the parent has an index 1 again, the former index
    2, and the copy of the removed child is written over it. *)
Example remove_in_map_written_back :
  exists w,
    Traverse.map 3 Examples.seq_heap (Traverse.Make (VRef 0)) tt
                 Examples.remove_second
    = Ok (w, Traverse.Make (VRef 0), VRef 2)
    /\ deref (w_heap w) 2 = Obj (KArray 2) [(KIdx 0, VStr "a"); (KIdx 1, VRef 3)]
    /\ deref (w_heap w) 3 = Obj KPlain [(KName "k", VNum 1)].
Proof. eexists. split; [vm_compute; reflexivity|]. split; reflexivity. Qed.

(** [delete] on the root of [{a: {b: 1}}]. *)
Lemma delete_on_root_throws_witness :
  ADelete false
    ∈ o_acts (entry_outcome Examples.delete_root false
                (init_wstate Examples.nested_heap tt) (VRef 0))
  /\ walk 1 Examples.nested_heap tt (VRef 0) Examples.delete_root false
     = Err TypeError.
Proof.
  split.
  - vm_compute. apply list_elem_of_here.
  - apply (delete_on_root_throws Examples.delete_root false 0
             Examples.nested_heap tt (VRef 0) false).
    vm_compute. apply list_elem_of_here.
Defined.

(** ** Stopping a walk *)

Section Stop.

Context {A : Type}.
Implicit Types (w : wstate A) (lc : locals A) (s : state) (cb : handler A).

Lemma run_hook_top_stopped (f : option (handler A)) arg w lc w' lc' :
  w_alive w = false -> run_hook_top f arg w lc = Ok (w', lc') ->
  stays_stopped w w'.
Proof.
  unfold run_hook_top. intros Ha H. inv_bind H. destruct x as [w1 lc1].
  injection H as <- <-. apply run_hook_frame in Hx.
  destruct Hx as (_&_&Hv&_&_&_&_&_&Hal&_). split; simpl; auto.
Qed.

Lemma each_key_stopped imm (rec : wstate A -> val -> result (wstate A * state))
  n ks :
  (forall w x w' s, w_alive w = false -> rec w x = Ok (w', s) ->
                    stays_stopped w w') ->
  forall i w lc w' lc',
    w_alive w = false -> each_key imm rec n ks i w lc = Ok (w', lc') ->
    stays_stopped w w'.
Proof.
  intros Hrec. induction ks as [|k ks IH]; intros i w lc w' lc' Ha H.
  - injection H as <- <-. by split.
  - cbn [each_key] in H.
    inv_bind H. destruct x as [w1 lc1].
    assert (stays_stopped w w1) as [Ha1 Hv1].
    { destruct (pre (l_mods lc)).
      - inv_bind Hx. apply run_hook_top_stopped in Hx; [|done].
        destruct Hx as [? ?]. by split.
      - injection Hx as <- <-. by split. }
    inv_bind H. inv_bind H. destruct x0 as [w2 child].
    apply Hrec in Hx1 as [Ha2 Hv2]; [|done].
    inv_bind H. inv_bind H. destruct x1 as [w3 lc3].
    apply run_hook_top_stopped in Hx2 as [Ha3 Hv3]; [|done].
    apply IH in H as [Ha4 Hv4]; [|done].
    split; [done|]. rewrite Hv4. simpl. rewrite Hv3. simpl.
    rewrite Hv2, Hv1. done.
Qed.

Lemma walker_stopped_eq cb imm fuel w nd_ :
  w_alive w = false ->
  walker (S fuel) cb imm w nd_
  = let '(h, nd) := if imm then copy (w_heap w) nd_ else (w_heap w, nd_) in
    Ok (with_heap h w, new_state nd nd_ (w_path w) (w_parents w)).
Proof. intros Ha. cbn [walker]. by apply visit_stopped. Qed.

Lemma walker_stays_stopped cb imm fuel w nd_ w' s :
  w_alive w = false -> walker fuel cb imm w nd_ = Ok (w', s) ->
  stays_stopped w w'.
Proof.
  intros Ha H. destruct fuel as [|fuel]; [discriminate|].
  rewrite walker_stopped_eq in H by done.
  destruct (if imm then _ else _) as [h nd]. injection H as <- <-.
  by split.
Qed.

Lemma exec_action_recorded (a : action A) w lc w' lc' :
  stop_recorded w -> exec_action a w lc = Ok (w', lc') -> stop_recorded w'.
Proof.
  unfold stop_recorded. intros Hw H.
  destruct a as [x b|b|b| | |f|f|f|f]; simpl in H.
  - bind_inv H as h Hh. by injection H as <- <-.
  - bind_inv H as pn Hpn. bind_inv H as h Hh. by injection H as <- <-.
  - destruct (parent (l_state lc)).
    + bind_inv H as pn Hpn. bind_inv H as h Hh. by injection H as <- <-.
    + by injection H as <- <-.
  - injection H as <- <-. simpl.
    destruct (w_stopped w) as [n|]; [destruct Hw|]; by split.
  - by injection H as <- <-.
  - by injection H as <- <-.
  - by injection H as <- <-.
  - by injection H as <- <-.
  - by injection H as <- <-.
Qed.

Lemma exec_actions_recorded (acts : list (action A)) : forall w lc w' lc',
  stop_recorded w -> exec_actions acts w lc = Ok (w', lc') -> stop_recorded w'.
Proof.
  induction acts as [|a acts IH]; intros w lc w' lc' Hw H.
  - by injection H as <- <-.
  - simpl in H. bind_inv H as [w1 lc1] H1.
    eapply IH; [|exact H]. by eapply exec_action_recorded.
Qed.

Lemma run_handler_recorded (f : handler A) arg w lc w' lc' r :
  stop_recorded w -> run_handler f arg w lc = Ok (w', lc', r) ->
  stop_recorded w'.
Proof.
  unfold run_handler. intros Hw H. bind_inv H as [w1 lc1] H1.
  injection H as <- <- <-. by eapply exec_actions_recorded in H1.
Qed.

Lemma run_hook_recorded (f : option (handler A)) arg w lc w' lc' :
  stop_recorded w -> run_hook f arg w lc = Ok (w', lc') -> stop_recorded w'.
Proof.
  intros Hw H. destruct f as [f|]; simpl in H.
  - bind_inv H as [[w1 lc1] r] H1. injection H as <- <-.
    by eapply run_handler_recorded.
  - by injection H as <- <-.
Qed.

Lemma run_hook_top_recorded (f : option (handler A)) arg w lc w' lc' :
  stop_recorded w -> run_hook_top f arg w lc = Ok (w', lc') -> stop_recorded w'.
Proof.
  unfold run_hook_top. intros Hw H. bind_inv H as [w1 lc1] H1.
  injection H as <- <-. by eapply run_hook_recorded in H1.
Qed.

Lemma call_callback_recorded cb w s w' lc' :
  stop_recorded w -> w_alive w = true ->
  call_callback cb w s = Ok (w', lc') -> stop_recorded w'.
Proof.
  intros Hw Ha H. unfold call_callback in H.
  bind_inv H as [[w1 lc1] ret] Hrun. bind_inv H as [w2 lc2] Hret.
  eapply run_handler_recorded in Hrun.
  - eapply run_hook_recorded; [|exact H].
    destruct (negb (strict_eq ret VUndef)).
    + by eapply exec_action_recorded.
    + by injection Hret as <- <-.
  - unfold stop_recorded in *. simpl.
    destruct (w_stopped w) as [n|]; [|done]. destruct Hw. congruence.
Qed.

Lemma each_key_recorded imm
  (rec : wstate A -> val -> result (wstate A * state)) n ks :
  (forall w x w' s, stop_recorded w -> rec w x = Ok (w', s) ->
                    stop_recorded w') ->
  forall i w lc w' lc',
    stop_recorded w -> each_key imm rec n ks i w lc = Ok (w', lc') ->
    stop_recorded w'.
Proof.
  intros Hrec. induction ks as [|k ks IH]; intros i w lc w' lc' Hw H.
  - by injection H as <- <-.
  - cbn [each_key] in H.
    bind_inv H as [w1 lc1] Hpre.
    assert (stop_recorded w1) as Hw1.
    { destruct (pre (l_mods lc)).
      - bind_inv Hpre as x Hget. by eapply run_hook_top_recorded in Hpre.
      - by injection Hpre as <- <-. }
    bind_inv H as x Hget. bind_inv H as [w2 child] Hchild.
    apply Hrec in Hchild; [|done].
    bind_inv H as h2 Hset. bind_inv H as [w3 lc3] Hpost.
    eapply run_hook_top_recorded in Hpost; [|done].
    by eapply IH in H.
Qed.

Lemma visit_recorded cb imm
  (rec : wstate A -> val -> result (wstate A * state)) w nd_ w' s :
  (forall w x w' s, stop_recorded w -> rec w x = Ok (w', s) ->
                    stop_recorded w') ->
  stop_recorded w -> visit cb imm rec w nd_ = Ok (w', s) -> stop_recorded w'.
Proof.
  intros Hrec Hw H. destruct (w_alive w) eqn:Ha.
  - rewrite visit_alive in H by done.
    bind_inv H as [w1 lc1] Hcall.
    eapply call_callback_recorded in Hcall; [|done|done].
    destruct (negb (keepGoing lc1)); [by injection H as <- <-|].
    bind_inv H as [w2 lc2] Hd. bind_inv H as [w3 lc3] Haf.
    injection H as <- <-.
    eapply run_hook_recorded; [|exact Haf].
    unfold descend in Hd. destruct (isPureObj _ && _).
    + bind_inv Hd as [w4 lc4] Hk. injection Hd as <- <-.
      by eapply each_key_recorded in Hk.
    + by injection Hd as <- <-.
  - rewrite visit_stopped in H by done.
    destruct (if imm then _ else _) as [h nd]. by injection H as <- <-.
Qed.

Lemma walker_recorded cb imm fuel : forall w nd_ w' s,
  stop_recorded w -> walker fuel cb imm w nd_ = Ok (w', s) -> stop_recorded w'.
Proof.
  induction fuel as [|fuel IH]; intros w nd_ w' s Hw H; [discriminate|].
  cbn [walker] in H. eapply visit_recorded; eauto.
Qed.

(** C3.  [stop] clears the walk's [alive] flag, and nothing sets it again:
    it stays cleared through every later state operation.  A visit entered
    while it is cleared returns at once: its result is the fresh state of
    the node (over the copy, in copy-on-write mode) and the walk's variables
    as they were, so neither the callback nor a hook ran and no child was
    visited, whatever the callback and the fuel.  In the rest of the loop
    over the children of a visit in progress, and in any visit, no callback
    runs any more.  Over a whole walk: when it returns it is alive exactly
    if [stop] was never called, and if [stop] was called, the callback has
    run as many times as it had when [stop] was first called. *)
Theorem stop_short_circuits cb (immutable : bool) (fuel : nat) w nd_ :
  (forall lc, exec_action AStop w lc = Ok (stop_walk w, lc)
              /\ w_alive (stop_walk w) = false)
  /\ (forall acts lc w' lc',
        w_alive w = false -> exec_actions acts w lc = Ok (w', lc') ->
        w_alive w' = false)
  /\ (w_alive w = false ->
      walker (S fuel) cb immutable w nd_
      = let '(h, nd) := if immutable then copy (w_heap w) nd_
                        else (w_heap w, nd_) in
        Ok (with_heap h w, new_state nd nd_ (w_path w) (w_parents w)))
  /\ (forall w' s,
        w_alive w = false -> walker fuel cb immutable w nd_ = Ok (w', s) ->
        w_alive w' = false /\ w_visits w' = w_visits w
        /\ w_user w' = w_user w /\ w_path w' = w_path w
        /\ w_parents w' = w_parents w
        /\ (immutable = false -> w' = w))
  /\ (forall n ks i lc w' lc',
        w_alive w = false ->
        each_key immutable (walker fuel cb immutable) n ks i w lc = Ok (w', lc') ->
        w_alive w' = false /\ w_visits w' = w_visits w)
  /\ (forall h a root final r,
        walk fuel h a root cb immutable = Ok (final, r) ->
        match w_stopped final with
        | Some n => w_alive final = false /\ length (w_visits final) = n
        | None => w_alive final = true
        end).
Proof.
  split; [|split; [|split; [|split; [|split]]]].
  - intros lc. by split.
  - intros acts lc w' lc' Ha H. apply exec_actions_frame in H.
    unfold same_frame in H. destruct H as (_&_&_&_&_&_&_&_&_&_&_&H&_). auto.
  - apply walker_stopped_eq.
  - intros w' s Ha H. destruct fuel as [|fuel']; [discriminate|].
    rewrite walker_stopped_eq in H by done.
    destruct immutable; simpl in H.
    + destruct (copy (w_heap w) nd_) as [h nd]. injection H as <- <-.
      simpl. repeat split; auto. discriminate.
    + injection H as <- <-. destruct w; simpl in *. repeat split; auto.
  - intros n ks i lc w' lc' Ha H.
    eapply each_key_stopped in H; [apply H | | done].
    intros w1 x w2 s Ha1 H1. eapply walker_stays_stopped; eauto.
  - intros h a root final r H. unfold walk in H.
    bind_inv H as [w1 s1] Hw. injection H as <- <-.
    by apply walker_recorded in Hw.
Qed.

End Stop.

(** [stop] at the root of [{a: {b: 1}}]: the root is descended into, since
    [stop] is no veto, but the callback runs on the root only. *)
Example stop_at_root_visits_root_only :
  exists w,
    Traverse.forEach 3 Examples.nested_heap (Traverse.Make (VRef 0)) tt
                     Examples.stop_at_root
    = Ok (w, Traverse.Make (VRef 0), VRef 0)
    /\ w_alive w = false /\ w_stopped w = Some 1
    /\ (fun v => path v.2) <$> w_visits w = [[]]
    /\ w_heap w = Examples.nested_heap.
Proof. eexists. split; [vm_compute; reflexivity|]. repeat split. Qed.

(** ** The circular link *)

Lemma first_ancestor_Some (l : list val) (x : val) : forall i,
  first_ancestor l x = Some i
  <-> l !! i = Some x /\ forall j, j < i -> l !! j <> Some x.
Proof.
  induction l as [|y l IH]; intros i; cbn [first_ancestor].
  - split; [discriminate | by intros [? _]].
  - destruct (decide (y = x)) as [->|Hne].
    + split.
      * intros [= <-]. split; [done | intros j Hj; lia].
      * intros [Hi Hlt]. destruct i as [|i]; [done|].
        exfalso. apply (Hlt 0); [lia | done].
    + split.
      * intros H. apply fmap_Some in H as (i' & E & ->).
        apply IH in E as [Hi Hlt]. split; [done|].
        intros [|j] Hj; simpl; [congruence | apply Hlt; lia].
      * intros [Hi Hlt]. destruct i as [|i]; simpl in Hi; [congruence|].
        assert (first_ancestor l x = Some i) as ->; [|done].
        apply IH. split; [done|]. intros j Hj. apply (Hlt (S j)). lia.
Qed.

Lemma first_ancestor_is_Some (l : list val) (x : val) :
  is_Some (first_ancestor l x) <-> exists i, l !! i = Some x.
Proof.
  split.
  - intros [i Hi]. apply first_ancestor_Some in Hi as [Hi _]. eauto.
  - intros [i Hi]. induction l as [|y l IH] in i, Hi |- *; [done|].
    cbn [first_ancestor]. destruct (decide (y = x)); [eauto|].
    destruct i as [|i]; simpl in Hi; [congruence|].
    destruct (IH i Hi) as [i' ->]. simpl. eauto.
Qed.

Lemma scan_first_ancestor (ps : list state) (x : val) :
  scan ps x = first_ancestor (node_ <$> ps) x.
Proof.
  unfold scan. induction ps as [|p ps IH]; [done|].
  cbn [list_find fmap list_fmap first_ancestor].
  destruct (decide (node_ p = x)); [done|].
  rewrite <- IH. by destruct (list_find _ ps) as [[i q]|].
Qed.

Section Circular.

Context {A : Type}.
Implicit Types (w : wstate A) (lc : locals A) (s : state) (cb : handler A).

(** The link of the state the callback runs on. *)
Lemma entry_state_circular imm w nd_ :
  circular (entry_state imm w nd_)
  = if isPureObj nd_ then first_ancestor (node_ <$> w_parents w) nd_ else None.
Proof.
  unfold entry_state, entry_view.
  destruct imm; [destruct nd_ | destruct nd_]; simpl;
    rewrite ?scan_first_ancestor; try reflexivity;
    by destruct (first_ancestor _ _).
Qed.

Lemma grows_refl P w w' : w_visits w' = w_visits w -> grows P w w'.
Proof. intros E. exists []. by rewrite app_nil_r. Qed.

Lemma grows_trans P w1 w2 w3 : grows P w1 w2 -> grows P w2 w3 -> grows P w1 w3.
Proof.
  intros (vs1 & E1 & F1) (vs2 & E2 & F2). exists (vs1 ++ vs2).
  split; [by rewrite E2, E1, app_assoc | by apply Forall_app].
Qed.

Lemma run_hook_top_visits (f : option (handler A)) arg w lc w' lc' :
  run_hook_top f arg w lc = Ok (w', lc') -> w_visits w' = w_visits w.
Proof.
  unfold run_hook_top. intros H. inv_bind H. destruct x as [w1 lc1].
  injection H as <- <-. apply run_hook_frame in Hx. simpl. tauto.
Qed.

Lemma each_key_grows P imm (rec : wstate A -> val -> result (wstate A * state))
  n ks :
  (forall w x w' s, rec w x = Ok (w', s) -> grows P w w') ->
  forall i w lc w' lc',
    each_key imm rec n ks i w lc = Ok (w', lc') -> grows P w w'.
Proof.
  intros Hrec. induction ks as [|k ks IH]; intros i w lc w' lc' H.
  - injection H as <- <-. by apply grows_refl.
  - cbn [each_key] in H.
    bind_inv H as [w1 lc1] Hpre.
    assert (w_visits w1 = w_visits w) as Hv1.
    { destruct (pre (l_mods lc)).
      - bind_inv Hpre as x Hget. by apply run_hook_top_visits in Hpre.
      - by injection Hpre as <- <-. }
    bind_inv H as x Hget. bind_inv H as [w2 child] Hchild.
    apply Hrec in Hchild.
    bind_inv H as h2 Hset. bind_inv H as [w3 lc3] Hpost.
    apply run_hook_top_visits in Hpost. simpl in Hpost.
    apply IH in H.
    eapply grows_trans; [apply grows_refl, Hv1|].
    eapply grows_trans; [apply Hchild|].
    eapply grows_trans; [apply grows_refl, Hpost | apply H].
Qed.

Lemma descend_grows P imm (rec : wstate A -> val -> result (wstate A * state))
  w lc w' lc' :
  (forall w x w' s, rec w x = Ok (w', s) -> grows P w w') ->
  descend imm rec w lc = Ok (w', lc') -> grows P w w'.
Proof.
  intros Hrec. unfold descend.
  destruct (isPureObj _ && _); intros H.
  - inv_bind H. destruct x as [w1 lc1]. injection H as <- <-.
    eapply each_key_grows in Hx; [|done].
    destruct Hx as (vs & E & F). exists vs. by split.
  - injection H as <- <-. by apply grows_refl.
Qed.

Lemma visit_grows P cb imm (rec : wstate A -> val -> result (wstate A * state))
  w nd_ w' s :
  P (w_parents w, entry_state imm w nd_) ->
  (forall w x w' s, rec w x = Ok (w', s) -> grows P w w') ->
  visit cb imm rec w nd_ = Ok (w', s) -> grows P w w'.
Proof.
  intros HP Hrec H. destruct (w_alive w) eqn:Ha.
  - rewrite visit_alive in H by done.
    inv_bind H. destruct x as [w1 lc1].
    apply call_callback_frame in Hx. simpl in Hx.
    destruct Hx as (_&_&Hv&_).
    assert (grows P w w1) as G1.
    { exists [(w_parents w, entry_state imm w nd_)]. split; [done|].
      by apply Forall_singleton. }
    destruct (negb (keepGoing lc1)).
    + by injection H as <- <-.
    + inv_bind H. destruct x as [w2 lc2].
      inv_bind H. destruct x as [w3 lc3]. injection H as <- <-.
      apply descend_grows with (P := P) in Hx; [|done].
      apply run_hook_frame in Hx0. destruct Hx0 as (_&_&Hv3&_).
      eapply grows_trans; [apply G1|].
      eapply grows_trans; [apply Hx | by apply grows_refl].
  - rewrite visit_stopped in H by done.
    destruct (if imm then _ else _) as [h nd]. injection H as <- <-.
    by apply grows_refl.
Qed.

Lemma walker_grows P cb imm :
  (forall w nd_, P (w_parents w, entry_state imm w nd_)) ->
  forall fuel w nd_ w' s,
    walker fuel cb imm w nd_ = Ok (w', s) -> grows P w w'.
Proof.
  intros HP. induction fuel as [|fuel IH]; intros w nd_ w' s H; [discriminate|].
  cbn [walker] in H. eapply visit_grows; eauto.
Qed.

(** A node whose link is set when the callback has had its turn is not
    descended into. *)
Lemma visit_circular cb imm rec rec' w nd_ :
  w_alive w = true -> is_Some (circular (entry_state imm w nd_)) ->
  visit cb imm rec w nd_ = visit cb imm rec' w nd_.
Proof.
  intros Ha Hc. rewrite !visit_alive by done.
  destruct (call_callback _ _ _) as [[w1 lc1]|e] eqn:E; [|reflexivity].
  simpl. destruct (negb (keepGoing lc1)); [reflexivity|].
  apply call_callback_frame in E. destruct E as (_&_&_&_&_&_&_&Hc1&_).
  unfold descend. destruct Hc as [i Hi]. rewrite Hc1, Hi.
  by rewrite andb_false_r.
Qed.

End Circular.

(** C1 (as amended).  In every walk, in either mode, the state a callback
    runs on has its circular link set if and only if the node's original is
    a reference that is also the original of a state of the ancestor stack,
    the strict ancestors of the node; the link then is the first such
    ancestor.  A node whose link is set at that point is visited without
    any descent: the visit never calls the walker on a child.  For
    [o = {}; o.self = o], [forEach] with a callback that only looks runs
    the callback on the root, not circular, and on its [self] child,
    flagged circular with the root as its link, and returns. *)
Theorem circular_link {A} (cb : handler A) (immutable : bool) :
  (forall fuel h a root w r anc s,
     walk fuel h a root cb immutable = Ok (w, r) ->
     (anc, s) ∈ w_visits w ->
     (is_Some (circular s)
      <-> exists l i p, node_ s = VRef l /\ anc !! i = Some p /\ node_ p = VRef l)
     /\ (forall i, circular s = Some i ->
           exists p, anc !! i = Some p /\ node_ p = node_ s
                     /\ forall j q, j < i -> anc !! j = Some q ->
                                    node_ q <> node_ s))
  /\ (forall rec rec' w nd_,
        w_alive w = true -> is_Some (circular (entry_state immutable w nd_)) ->
        visit cb immutable rec w nd_ = visit cb immutable rec' w nd_)
  /\ (forall (g : A -> view -> A) a fuel,
        exists w,
          Traverse.forEach (S (S fuel)) Examples.self_heap
            (Traverse.Make (VRef 0)) a (passive g)
          = Ok (w, Traverse.Make (VRef 0), VRef 0)
          /\ (fun v => (path v.2, circular v.2)) <$> w_visits w
             = [([], None); ([KName "self"], Some 0)]
          /\ w_heap w = Examples.self_heap).
Proof.
  split; [|split].
  - intros fuel h a root w r anc s H Hin.
    unfold walk in H. bind_inv H as [w' s'] Hw. injection H as <- <-.
    apply walker_grows
      with (P := fun v => circular v.2
                         = if isPureObj (node_ v.2)
                           then first_ancestor (node_ <$> v.1) (node_ v.2)
                           else None) in Hw.
    + destruct Hw as (vs & E & F). simpl in E. subst.
      rewrite Forall_forall in F. specialize (F _ Hin). simpl in F.
      split.
      * rewrite F. split.
        -- intros Hs. destruct (node_ s) as [| | | | |l] eqn:En;
             simpl in Hs; try by destruct Hs.
           apply first_ancestor_is_Some in Hs as [i Hi].
           rewrite list_lookup_fmap in Hi.
           destruct (anc !! i) as [p|] eqn:Ep; [|discriminate].
           injection Hi as Hi. eauto 6.
        -- intros (l & i & p & -> & Hi & Hp). simpl.
           apply first_ancestor_is_Some. exists i.
           by rewrite list_lookup_fmap, Hi, <- Hp.
      * intros i Hi. rewrite F in Hi.
        destruct (isPureObj (node_ s)); [|discriminate].
        apply first_ancestor_Some in Hi as [Hi Hlt].
        rewrite list_lookup_fmap in Hi.
        destruct (anc !! i) as [p|] eqn:Ep; [|discriminate].
        injection Hi as Hi. exists p. split; [done|]. split; [done|].
        intros j q Hj Hq Heq. apply (Hlt j Hj).
        by rewrite list_lookup_fmap, Hq, <- Heq.
    + intros w0 nd_. simpl. rewrite entry_state_circular.
      by destruct (entry_state_fields immutable w0 nd_) as (_&->&_).
  - intros rec rec' w nd_. apply visit_circular.
  - intros g a fuel. eexists. split; [vm_compute; reflexivity|].
    split; reflexivity.
Qed.

(** Once a composite has been pushed on the ancestor stack, the second
    [updateState] scans a stack that holds the state itself: from then on
    its link is set, to itself.  In the walk of [{a: {b: 1}}] the state of
    the root, as the visit of [a] finds it on the stack, is linked although
    the root has no ancestor. *)
Lemma pushed_state_links_itself :
  ~ (forall w r anc s i p,
       walk 3 Examples.nested_heap tt (VRef 0) Examples.noop false = Ok (w, r) ->
       (anc, s) ∈ w_visits w -> anc !! i = Some p ->
       is_Some (circular p) ->
       exists j q, j < i /\ anc !! j = Some q /\ node_ q = node_ p).
Proof.
  intros H.
  assert (exists w r anc s p,
            walk 3 Examples.nested_heap tt (VRef 0) Examples.noop false
            = Ok (w, r)
            /\ (anc, s) ∈ w_visits w /\ anc !! 0 = Some p
            /\ is_Some (circular p))
    as (w & r & anc & s & p & E & Hin & Hp & Hc).
  { eexists _, _, _, _, _. split; [vm_compute; reflexivity|].
    split; [apply list_elem_of_further, list_elem_of_here|].
    split; [reflexivity|]. simpl. eauto. }
  destruct (H w r anc s 0 p E Hin Hp Hc) as (j & q & Hj & _). lia.
Qed.

(** ** [map] on [{x: d, y: 10, z: 5}] *)

(** The [x] field of the result of [map] is not the date [d] of the
    original: [walker] copies every node it visits, dates included. *)
Lemma map_date_not_same_reference :
  ~ (exists w this r,
       Traverse.map 3 (Examples.date_heap 0) (Traverse.Make (VRef 0)) tt
                    Examples.add100 = Ok (w, this, r)
       /\ get_prop (w_heap w) r (KName "x") = Ok (VRef 1)).
Proof.
  intros (w & this & r & E & Hx).
  vm_compute in E. injection E as <- <- <-. vm_compute in Hx. discriminate.
Qed.

(** C2 (as amended).  For the root [{x: d, y: 10, z: 5}] with [d] a date,
    [map] with the callback that adds 100 to every number returns a new
    root, distinct from the original, whose [y] and [z] are 110 and 105
    and whose [x] is a new date with the instant of [d], distinct from [d];
    the original root and [d] are as they were, and the facade still holds
    the original root. *)
Theorem map_date_example (t : Z) (fuel : nat) :
  exists w,
    Traverse.map (S (S fuel)) (Examples.date_heap t) (Traverse.Make (VRef 0)) tt
                 Examples.add100
    = Ok (w, Traverse.Make (VRef 0), VRef 2)
    /\ VRef 2 <> VRef 0
    /\ deref (w_heap w) 2
       = Obj KPlain [(KName "x", VRef 3); (KName "y", VNum 110);
                     (KName "z", VNum 105)]
    /\ VRef 3 <> VRef 1
    /\ deref (w_heap w) 3 = Obj (KDate t) []
    /\ deref (w_heap w) 0 = deref (Examples.date_heap t) 0
    /\ deref (w_heap w) 1 = deref (Examples.date_heap t) 1.
Proof.
  eexists. split; [vm_compute; reflexivity|].
  repeat split; try discriminate; reflexivity.
Qed.

(** ** Copy-on-write: what [map] leaves alone *)

Section CopyOnWrite.

Context {A : Type}.
Implicit Types (w : wstate A) (lc : locals A) (s : state) (cb : handler A).

Variable P : loc -> Prop.
Variable h0 : heap.

Lemma heap_keeps_insert (h : heap) (l : loc) (o : obj) :
  heap_keeps P h0 h -> ~ P l -> heap_keeps P h0 (<[l := o]> h).
Proof.
  intros [Hlen Hlk] Hl. split.
  - intros l' Hl'. rewrite length_insert. auto.
  - intros l' Hl'. rewrite list_lookup_insert_ne; [auto | congruence].
Qed.

Lemma heap_keeps_app (h h' : heap) :
  heap_keeps P h0 h -> heap_keeps P h0 (h ++ h').
Proof.
  intros [Hlen Hlk]. split.
  - intros l Hl. rewrite length_app. specialize (Hlen l Hl). lia.
  - intros l Hl. rewrite lookup_app_l; auto.
Qed.

Lemma set_prop_keeps (h h' : heap) (v x : val) (k : pkey) :
  heap_keeps P h0 h -> avoids P v -> set_prop h v k x = Ok h' ->
  heap_keeps P h0 h'.
Proof.
  intros Hk Hv H. destruct v; simpl in H; try discriminate;
    injection H as <-; auto using heap_keeps_insert.
Qed.

Lemma delete_prop_keeps (h h' : heap) (v : val) (k : pkey) :
  heap_keeps P h0 h -> avoids P v -> delete_prop h v k = Ok h' ->
  heap_keeps P h0 h'.
Proof.
  intros Hk Hv H. destruct v; simpl in H; try discriminate;
    injection H as <-; auto using heap_keeps_insert.
Qed.

Lemma splice_prop_keeps (h : heap) (v : val) (k : pkey) :
  heap_keeps P h0 h -> avoids P v -> heap_keeps P h0 (splice_prop h v k).
Proof.
  intros Hk Hv. destruct v; simpl; auto using heap_keeps_insert.
Qed.

Lemma copy_keeps (h : heap) (v : val) :
  heap_keeps P h0 h ->
  heap_keeps P h0 (copy h v).1 /\ avoids P (copy h v).2.
Proof.
  intros Hk. destruct v; simpl; try by split.
  split; [by apply heap_keeps_app|].
  intros Hl. destruct Hk as [Hlen _]. specialize (Hlen _ Hl). lia.
Qed.

Lemma Forall_removelast {T} (Q : T -> Prop) (l : list T) :
  Forall Q l -> Forall Q (removelast l).
Proof.
  induction 1 as [|x l Hx Hl IH]; simpl; [constructor|].
  destruct l; [constructor | by constructor].
Qed.

Lemma parent_node_avoids w s pn :
  keeps P h0 w -> parent_node w s = Ok pn -> avoids P pn.
Proof.
  intros [_ Hps] H. unfold parent_node in H.
  destruct (parent s) as [i|]; [|discriminate].
  destruct (w_parents w !! i) as [p|] eqn:E; [|discriminate].
  injection H as <-. rewrite Forall_forall in Hps.
  apply Hps. by eapply list_elem_of_lookup_2.
Qed.

Lemma exec_action_keeps (a : action A) w lc w' lc' :
  keeps P h0 w -> locals_avoid P lc -> action_avoids P a ->
  exec_action a w lc = Ok (w', lc') ->
  keeps P h0 w' /\ locals_avoid P lc'.
Proof.
  intros Hw Hlc Ha H. pose proof Hw as [Hh Hps].
  pose proof Hlc as (Hn & Hb & Haf & Hpr & Hpo).
  destruct a as [x b|b|b| | |f|f|f|f]; simpl in H; inversion Ha; subst.
  - bind_inv H as h Hh'. injection H as <- <-.
    assert (heap_keeps P h0 h).
    { destruct (negb (isRoot (l_state lc))).
      - bind_inv Hh' as pn Hpn.
        eapply set_prop_keeps;
          [exact Hh | eapply parent_node_avoids; eauto | exact Hh'].
      - by injection Hh' as <-. }
    split; [by split|]. destruct b; by repeat split.
  - bind_inv H as pn Hpn. bind_inv H as h Hh'. injection H as <- <-.
    split; [split; [|done] | by destruct b].
    eapply delete_prop_keeps;
      [exact Hh | eapply parent_node_avoids; eauto | exact Hh'].
  - destruct (parent (l_state lc)).
    + bind_inv H as pn Hpn. bind_inv H as h Hh'. injection H as <- <-.
      split; [split; [|done] | by destruct b].
      destruct (isArray (w_heap w) pn).
      * injection Hh' as <-.
        eapply splice_prop_keeps; [exact Hh | eapply parent_node_avoids; eauto].
      * eapply delete_prop_keeps;
          [exact Hh | eapply parent_node_avoids; eauto | exact Hh'].
    + injection H as <- <-. by split.
  - injection H as <- <-. by split.
  - injection H as <- <-. by split.
  - injection H as <- <-. split; [done|]. by repeat split.
  - injection H as <- <-. split; [done|]. by repeat split.
  - injection H as <- <-. split; [done|]. by repeat split.
  - injection H as <- <-. split; [done|]. by repeat split.
Qed.

Lemma exec_actions_keeps (acts : list (action A)) : forall w lc w' lc',
  keeps P h0 w -> locals_avoid P lc -> Forall (action_avoids P) acts ->
  exec_actions acts w lc = Ok (w', lc') ->
  keeps P h0 w' /\ locals_avoid P lc'.
Proof.
  induction acts as [|a acts IH]; intros w lc w' lc' Hw Hlc Ha H.
  - by injection H as <- <-.
  - simpl in H. bind_inv H as [w1 lc1] H1.
    apply Forall_cons in Ha as [Ha Hacts].
    destruct (exec_action_keeps _ _ _ _ _ Hw Hlc Ha H1) as [Hw1 Hlc1].
    eauto.
Qed.

(** The view a handler is run on in a walk that keeps the objects [P]. *)
Lemma run_view_avoids arg w lc :
  keeps P h0 w -> locals_avoid P lc ->
  match arg with
  | HNode x => x = node (l_state lc)
  | HPre _ _ => True
  | HPost child => avoids P (node child)
  end ->
  view_avoids P (View (w_heap w) (w_parents w) (l_state lc)) arg.
Proof. intros [_ Hps] [Hn _] Harg. by repeat split. Qed.

Lemma run_handler_keeps (f : handler A) arg w lc w' lc' r :
  keeps P h0 w -> locals_avoid P lc ->
  view_avoids P (View (w_heap w) (w_parents w) (l_state lc)) arg ->
  (forall a vw arg, view_avoids P vw arg ->
                    Forall (action_avoids P) (o_acts (f a vw arg))) ->
  run_handler f arg w lc = Ok (w', lc', r) ->
  keeps P h0 w' /\ locals_avoid P lc'.
Proof.
  intros [Hh Hps] Hlc Hv Hf H. unfold run_handler in H.
  bind_inv H as [w1 lc1] H1. injection H as <- <- <-.
  eapply exec_actions_keeps in H1; eauto.
  split; simpl; [by apply heap_keeps_app | done].
Qed.

Lemma run_hook_keeps (f : option (handler A)) arg w lc w' lc' :
  keeps P h0 w -> locals_avoid P lc ->
  view_avoids P (View (w_heap w) (w_parents w) (l_state lc)) arg ->
  hook_avoids P f ->
  run_hook f arg w lc = Ok (w', lc') ->
  keeps P h0 w' /\ locals_avoid P lc'.
Proof.
  intros Hw Hlc Hv Hf H. destruct f as [f|]; simpl in H.
  - bind_inv H as [[w1 lc1] r] H1. injection H as <- <-.
    eapply run_handler_keeps; eauto.
  - by injection H as <- <-.
Qed.

Lemma run_hook_top_keeps (f : option (handler A)) arg w lc w' lc' :
  keeps P h0 w -> locals_avoid P lc ->
  view_avoids P (View (w_heap w) (w_parents w) (l_state lc)) arg ->
  hook_avoids P f ->
  run_hook_top f arg w lc = Ok (w', lc') ->
  keeps P h0 w' /\ locals_avoid P lc'.
Proof.
  intros Hw Hlc Hv Hf H. unfold run_hook_top in H.
  bind_inv H as [w1 lc1] H1. injection H as <- <-.
  eapply run_hook_keeps in H1 as [[Hh Hps] Hlc1]; eauto.
  split; [|done]. split; [done|]. simpl.
  apply Forall_app. split; [by apply Forall_removelast|].
  apply Forall_singleton. by destruct Hlc1.
Qed.

Lemma each_key_keeps imm (rec : wstate A -> val -> result (wstate A * state))
  n ks :
  (forall w x w' s, keeps P h0 w -> rec w x = Ok (w', s) ->
                    keeps P h0 w' /\ avoids P (node s)) ->
  forall i w lc w' lc',
    keeps P h0 w -> locals_avoid P lc ->
    each_key imm rec n ks i w lc = Ok (w', lc') ->
    keeps P h0 w' /\ locals_avoid P lc'.
Proof.
  intros Hrec. induction ks as [|k ks IH]; intros i w lc w' lc' Hw Hlc H.
  - by injection H as <- <-.
  - cbn [each_key] in H.
    bind_inv H as [w1 lc1] Hpre.
    assert (keeps P h0 w1 /\ locals_avoid P lc1) as [Hw1 Hlc1].
    { destruct (pre (l_mods lc)) as [f|] eqn:Ef.
      - bind_inv Hpre as x Hget.
        eapply run_hook_top_keeps in Hpre; eauto.
        + apply run_view_avoids; [|done..].
          destruct Hw as [Hh Hps]. by split.
        + destruct Hlc as (_&_&_&Hpr&_). by rewrite Ef in Hpr.
      - by injection Hpre as <- <-. }
    bind_inv H as x Hget. bind_inv H as [w2 child] Hchild.
    apply Hrec in Hchild as [[Hh2 Hps2] Hc]; [|done].
    bind_inv H as h2 Hset. bind_inv H as [w3 lc3] Hpost.
    assert (heap_keeps P h0 h2) as Hh2'.
    { destruct (imm && _).
      - eapply set_prop_keeps; [exact Hh2 | apply Hlc1 | exact Hset].
      - by injection Hset as <-. }
    eapply run_hook_top_keeps in Hpost as [Hw3 Hlc3];
      [| by split | done | by apply run_view_avoids | apply Hlc1].
    eapply IH; [| exact Hlc3 | exact H]. done.
Qed.

Lemma descend_keeps imm (rec : wstate A -> val -> result (wstate A * state))
  w lc w' lc' :
  (forall w x w' s, keeps P h0 w -> rec w x = Ok (w', s) ->
                    keeps P h0 w' /\ avoids P (node s)) ->
  keeps P h0 w -> locals_avoid P lc ->
  descend imm rec w lc = Ok (w', lc') ->
  keeps P h0 w' /\ locals_avoid P lc'.
Proof.
  intros Hrec [Hh Hps] Hlc H. unfold descend in H.
  destruct (isPureObj _ && _); [|by injection H as <- <-].
  bind_inv H as [w1 lc1] Hk. injection H as <- <-.
  eapply each_key_keeps in Hk as [[Hh1 Hps1] Hlc1]; [| done | |].
  - split; [|done]. split; [done|]. simpl. by apply Forall_removelast.
  - split; [done|]. simpl. apply Forall_app. split; [done|].
    apply Forall_singleton.
    destruct (updateState_fields (w_heap w) (w_parents w ++ [l_state lc])
                (l_state lc)) as (->&_). apply Hlc.
  - destruct Hlc as (Hn & Hrest). split; [|done]. simpl.
    by destruct (updateState_fields (w_heap w) (w_parents w ++ [l_state lc])
                   (l_state lc)) as (->&_).
Qed.

Lemma call_callback_keeps cb w s w' lc' :
  handler_avoids P cb -> keeps P h0 w -> avoids P (node s) ->
  call_callback cb w s = Ok (w', lc') ->
  keeps P h0 w' /\ locals_avoid P lc'.
Proof.
  intros Hcb Hw Hs H. unfold call_callback in H.
  bind_inv H as [[w1 lc1] ret] Hrun. bind_inv H as [w2 lc2] Hret.
  assert (view_avoids P (View (w_heap w) (w_parents w) s) (HNode (node s)))
    as Hv by (destruct Hw; by repeat split).
  assert (avoids P ret) as Havr.
  { unfold run_handler in Hrun. bind_inv Hrun as [w9 lc9] Hacts.
    injection Hrun as _ _ <-. by apply Hcb. }
  eapply run_handler_keeps in Hrun as [Hw1 Hlc1];
    [| by destruct Hw | by repeat split | exact Hv | intros; by apply Hcb].
  assert (keeps P h0 w2 /\ locals_avoid P lc2) as [Hw2 Hlc2].
  { destruct (negb (strict_eq ret VUndef)).
    - eapply exec_action_keeps; eauto. by constructor.
    - by injection Hret as <- <-. }
  eapply (run_hook_keeps (before (l_mods lc2)) (HNode (node (l_state lc2)))
            w2 lc2);
    [done | done | by apply run_view_avoids | apply Hlc2 | exact H].
Qed.

Lemma visit_keeps cb (rec : wstate A -> val -> result (wstate A * state))
  w nd_ w' s :
  handler_avoids P cb ->
  (forall w x w' s, keeps P h0 w -> rec w x = Ok (w', s) ->
                    keeps P h0 w' /\ avoids P (node s)) ->
  keeps P h0 w -> visit cb true rec w nd_ = Ok (w', s) ->
  keeps P h0 w' /\ avoids P (node s).
Proof.
  intros Hcb Hrec [Hh Hps] H.
  destruct (copy_keeps (w_heap w) nd_ Hh) as [Hh1 Hn1].
  destruct (w_alive w) eqn:Ha.
  - rewrite visit_alive in H by done.
    bind_inv H as [w1 lc1] Hcall.
    eapply call_callback_keeps in Hcall as [Hw1 Hlc1]; [| done | |].
    + destruct (negb (keepGoing lc1)).
      * injection H as <- <-. split; [done | apply Hlc1].
      * bind_inv H as [w2 lc2] Hd. bind_inv H as [w3 lc3] Haf.
        injection H as <- <-.
        eapply descend_keeps in Hd as [Hw2 Hlc2]; eauto.
        eapply (run_hook_keeps (after (l_mods lc2)) _ w2 lc2) in Haf
          as [Hw3 Hlc3];
          [| done | done | by apply run_view_avoids | apply Hlc2].
        split; [done | apply Hlc3].
    + split; [|done]. simpl. by rewrite entry_view_heap.
    + by destruct (entry_state_fields true w nd_) as (->&_).
  - rewrite visit_stopped in H by done.
    destruct (copy (w_heap w) nd_) as [h nd]. injection H as <- <-.
    by split.
Qed.

Lemma walker_keeps cb :
  handler_avoids P cb ->
  forall fuel w nd_ w' s,
    keeps P h0 w -> walker fuel cb true w nd_ = Ok (w', s) ->
    keeps P h0 w' /\ avoids P (node s).
Proof.
  intros Hcb. induction fuel as [|fuel IH]; intros w nd_ w' s Hw H;
    [discriminate|].
  cbn [walker] in H. eapply visit_keeps; eauto.
Qed.

End CopyOnWrite.


(** The callbacks [x => x] and [function () { return this.node }] put no
    original in the place of a node in a walk in copy-on-write mode: what
    they return there is the current node, a copy. *)
Lemma echo_avoids (P : loc -> Prop) : handler_avoids P MoreExamples.echo.
Proof.
  intros a vw arg (Hn & _ & Harg). split; [constructor|].
  destruct arg as [x|x k|c]; cbn [MoreExamples.echo o_ret]; [by subst | done..].
Qed.

Lemma this_node_avoids (P : loc -> Prop) :
  handler_avoids P MoreExamples.this_node.
Proof. intros a vw arg (Hn & _). split; [constructor | exact Hn]. Qed.



(** ** [clone] *)

Section CloneFacts.

Import Traverse.

Lemma clone_keys_lists (rec : cstate -> val -> result (cstate * val))
  src dst ks :
  (forall c x c' y, rec c x = Ok (c', y) ->
                    c_parents c' = c_parents c /\ c_nodes c' = c_nodes c) ->
  forall c c', clone_keys rec src dst ks c = Ok c' ->
               c_parents c' = c_parents c /\ c_nodes c' = c_nodes c.
Proof.
  intros Hrec. induction ks as [|k ks IH]; intros c c' H.
  - by injection H as <-.
  - cbn [clone_keys] in H. bind_inv H as x Hget.
    bind_inv H as [c1 y] Hc. bind_inv H as h Hset.
    apply Hrec in Hc as [<- <-]. by apply IH in H.
Qed.

Lemma clone_from_lists fuel : forall c src c' r,
  clone_from fuel c src = Ok (c', r) ->
  c_parents c' = c_parents c /\ c_nodes c' = c_nodes c.
Proof.
  induction fuel as [|fuel IH]; intros c src c' r H; [discriminate|].
  cbn [clone_from] in H. unfold clone_body in H.
  destruct (list_find _ _) as [[i p]|].
  - by injection H as <- <-.
  - destruct (isPureObj src); [|by injection H as <- <-].
    destruct (copy (c_heap c) src) as [h dst].
    bind_inv H as c1 Hk. injection H as <- <-.
    apply clone_keys_lists in Hk as [-> ->]; [|exact IH]. simpl.
    by rewrite !removelast_last.
Qed.

End CloneFacts.

(** ** Walks that only look *)

Section LookingWalk.

Context {A : Type}.
Variable cb : handler A.
Hypothesis Hcb : looks_only cb.
Variable h : heap.

Lemma call_callback_looks (w : wstate A) (s : state) :
  call_callback cb w s
  = Ok (WState (w_heap w) (w_path w) (w_parents w) (w_alive w)
               (o_user (cb (w_user w) (View (w_heap w) (w_parents w) s)
                           (HNode (node s))))
               (w_visits w ++ [(w_parents w, s)]) (w_stopped w),
        Locals s true no_mods).
Proof.
  unfold call_callback, run_handler. simpl.
  destruct (Hcb (w_user w) (View (w_heap w) (w_parents w) s) (HNode (node s)))
    as (Hn & Ha & Hr).
  rewrite Hn, Ha, Hr. simpl. by rewrite app_nil_r.
Qed.

Lemma each_key_looks rec prec n pth ps s2 l :
  follows cb h rec prec -> node s2 = VRef l ->
  forall ks i a vis st,
    each_key false rec n ks i (WState h pth (ps ++ [s2]) true a vis st)
             (Locals s2 true no_mods)
    = match looked_keys h prec pth (ps ++ [s2]) (VRef l) ks with
      | Some vs =>
          Ok (WState h pth (ps ++ [s2]) true (fold_left (user_step cb h) vs a)
                     (vis ++ vs) st,
              Locals s2 true no_mods)
      | None => Err OutOfFuel
      end.
Proof.
  intros Hrec Hs2. unfold follows in Hrec.
  induction ks as [|k ks IH]; intros i a vis st.
  - simpl. by rewrite app_nil_r.
  - cbn [each_key looked_keys]. simpl. rewrite Hs2. simpl.
    change (with_path (pth ++ [k]) (WState h pth (ps ++ [s2]) true a vis st))
      with (WState h (pth ++ [k]) (ps ++ [s2]) true a vis st).
    rewrite Hrec.
    destruct (prec (pth ++ [k]) (ps ++ [s2]) _) as [[vs1 c]|]; [|reflexivity].
    simpl. unfold set_top, with_path, with_parents, with_heap. simpl.
    rewrite !removelast_last. rewrite IH.
    destruct (looked_keys h prec pth (ps ++ [s2]) (VRef l) ks) as [vs2|];
      [|reflexivity].
    simpl. by rewrite fold_left_app, app_assoc.
Qed.

Lemma visit_looks rec prec pth ps a vis st v :
  follows cb h rec prec ->
  visit cb false rec (WState h pth ps true a vis st) v
  = match
      (let s := updateState h ps (new_state v v pth ps) in
       if isPureObj v && bool_decide (circular s = None) then
         let s2 := updateState h (ps ++ [s]) s in
         vs ← looked_keys h prec pth (ps ++ [s2]) v (default [] (keys s2));
         Some ((ps, s) :: vs, s2)
       else Some ([(ps, s)], s))
    with
    | Some (vs, s) =>
        Ok (WState h pth ps true (fold_left (user_step cb h) vs a)
                   (vis ++ vs) st, s)
    | None => Err OutOfFuel
    end.
Proof.
  intros Hrec. rewrite visit_alive by reflexivity.
  rewrite call_callback_looks. cbn [mbind result_bind negb keepGoing l_state].
  unfold entry_state, entry_view. cbn [fst snd w_heap w_path w_parents v_heap
    v_this v_parents w_user w_alive w_visits with_heap].
  set (s := updateState h ps (new_state v v pth ps)).
  assert (node s = v) as Hn.
  { unfold s. by destruct (updateState_fields h ps (new_state v v pth ps))
      as (->&_). }
  unfold descend. cbn [l_state w_heap w_parents]. rewrite Hn.
  assert (o_user (cb a (View h ps s) (HNode v)) = user_step cb h a (ps, s))
    as -> by (unfold user_step; simpl; by rewrite Hn).
  destruct (isPureObj v && bool_decide (circular s = None)) eqn:E.
  - set (s2 := updateState h (ps ++ [s]) s).
    assert (exists l, node s2 = VRef l /\ v = VRef l) as (l & Hn2 & ->).
    { destruct v; try discriminate. exists l. split; [|done].
      unfold s2. by destruct (updateState_fields h (ps ++ [s]) s) as (->&_). }
    unfold with_state, with_parents. cbn [l_state keepGoing l_mods w_heap
      w_path w_parents w_alive w_user w_visits].
    rewrite (each_key_looks rec prec _ pth ps s2 l Hrec Hn2).
    destruct (looked_keys h prec pth (ps ++ [s2]) (VRef l) (default [] (keys s2)))
      as [vs|]; [|reflexivity].
    simpl. rewrite removelast_last. by rewrite <- app_assoc.
  - reflexivity.
Qed.

Lemma walker_looks fuel : forall pth ps a vis st v,
  walker fuel cb false (WState h pth ps true a vis st) v
  = match looked h fuel pth ps v with
    | Some (vs, s) =>
        Ok (WState h pth ps true (fold_left (user_step cb h) vs a)
                   (vis ++ vs) st, s)
    | None => Err OutOfFuel
    end.
Proof.
  induction fuel as [|fuel IH]; intros pth ps a vis st v; [reflexivity|].
  cbn [walker looked]. apply visit_looks. exact IH.
Qed.

End LookingWalk.

(** ** The visits of a walk that only looks *)

Lemma first_ancestor_None (l : list val) (x : val) :
  first_ancestor l x = None <-> x ∉ l.
Proof.
  rewrite list_elem_of_lookup, <- first_ancestor_is_Some.
  rewrite <- eq_None_not_Some. done.
Qed.

(** Distinct references into a heap are no more than its objects. *)
Lemma distinct_refs_bound (n : nat) (l : list val) :
  NoDup l -> Forall (fun x => exists i, x = VRef i /\ i < n) l -> length l <= n.
Proof.
  intros Hnd Hall. rewrite Forall_forall in Hall.
  set (f := fun x => match x with VRef i => i | _ => 0 end).
  assert (NoDup (f <$> l)) as Hnd'.
  { apply NoDup_fmap_2_strong; [|done].
    intros x y Hx Hy E.
    destruct (Hall x Hx) as (i & -> & _), (Hall y Hy) as (j & -> & _).
    simpl in E. by subst. }
  assert (f <$> l ⊆+ seq 0 n) as Hsub.
  { apply NoDup_submseteq; [done|]. intros i Hi.
    apply list_elem_of_fmap in Hi as (x & -> & Hx).
    destruct (Hall x Hx) as (j & -> & Hj). simpl.
    apply elem_of_seq. lia. }
  apply submseteq_length in Hsub. by rewrite length_fmap, length_seq in Hsub.
Qed.

Section LookedFacts.

Variable h : heap.

Lemma looked_state_circular ps pth l :
  circular (updateState h ps (new_state (VRef l) (VRef l) pth ps))
  = first_ancestor (node_ <$> ps) (VRef l).
Proof.
  simpl. rewrite scan_first_ancestor. by destruct (first_ancestor _ _).
Qed.

Lemma looked_state_keys ps ps' pth l :
  keys (updateState h ps'
          (updateState h ps (new_state (VRef l) (VRef l) pth ps)))
  = Some (objectKeys h (VRef l)).
Proof.
  simpl. unfold strict_eq. by rewrite bool_decide_eq_true_2.
Qed.

Lemma looked_unfold fuel pth ps v :
  looked h (S fuel) pth ps v
  = let s := updateState h ps (new_state v v pth ps) in
    if isPureObj v && bool_decide (v ∉ node_ <$> ps) then
      let s2 := updateState h (ps ++ [s]) s in
      vs ← looked_keys h (looked h fuel) pth (ps ++ [s2]) v (objectKeys h v);
      Some ((ps, s) :: vs, s2)
    else Some ([(ps, s)], s).
Proof.
  cbn [looked]. destruct v as [| | | | |l]; try reflexivity.
  cbn zeta. rewrite looked_state_circular, looked_state_keys.
  cbn [isPureObj andb default].
  destruct (first_ancestor (node_ <$> ps) (VRef l)) as [i|] eqn:E.
  - rewrite bool_decide_eq_false_2 by done.
    rewrite bool_decide_eq_false_2; [done|].
    intros Hn. apply first_ancestor_None in Hn. congruence.
  - rewrite bool_decide_eq_true_2 by done.
    rewrite bool_decide_eq_true_2; [done|].
    by apply first_ancestor_None.
Qed.

Lemma pushed_originals ps ps' pth v :
  node_ <$> (ps ++ [updateState h ps'
                      (updateState h ps (new_state v v pth ps))])
  = (node_ <$> ps) ++ [v].
Proof.
  rewrite fmap_app. f_equal. simpl.
  destruct (updateState_fields h ps'
              (updateState h ps (new_state v v pth ps))) as (_&->&_).
  by destruct (updateState_fields h ps (new_state v v pth ps)) as (_&->&_).
Qed.

(** The visits are counted by [count_reached]. *)
Lemma looked_keys_count
  (rec : list pkey -> list state -> val -> option (visits * state))
  (cnt : val -> nat) pth ps v ks vs :
  (forall pth x vs s, rec pth ps x = Some (vs, s) -> length vs = cnt x) ->
  looked_keys h rec pth ps v ks = Some vs ->
  length vs = sum_list ((fun k => cnt (own_val h v k)) <$> ks).
Proof.
  intros Hrec. revert vs. induction ks as [|k ks IH]; intros vs H.
  - by injection H as <-.
  - cbn [looked_keys] in H.
    destruct (rec (pth ++ [k]) ps (own_val h v k)) as [[vs1 s1]|] eqn:E1;
      [|discriminate].
    simpl in H.
    destruct (looked_keys h rec pth ps v ks) as [vs2|] eqn:E2; [|discriminate].
    injection H as <-. rewrite length_app, fmap_cons. simpl.
    by rewrite (Hrec _ _ _ _ E1), (IH vs2).
Qed.

Lemma looked_count fuel : forall pth ps v vs s,
  looked h fuel pth ps v = Some (vs, s) ->
  length vs = count_reached fuel h (node_ <$> ps) v.
Proof.
  induction fuel as [|fuel IH]; intros pth ps v vs s H; [discriminate|].
  rewrite looked_unfold in H. cbn zeta in H. cbn [count_reached].
  destruct (isPureObj v && bool_decide (v ∉ node_ <$> ps)).
  - destruct (looked_keys _ _ _ _ _ _) as [vs'|] eqn:E; [|discriminate].
    injection H as <- <-. simpl. f_equal.
    eapply looked_keys_count in E; [exact E|].
    intros pth' x vs1 s1 H1. apply IH in H1.
    by rewrite pushed_originals in H1.
  - by injection H as <- <-.
Qed.

(** The first visit is that of the node the walk is entered at; every
    later one has a longer path. *)
Lemma looked_keys_below
  (rec : list pkey -> list state -> val -> option (visits * state))
  pth ps v ks vs :
  (forall pth x vs s, pth <> [] -> rec pth ps x = Some (vs, s) ->
                      Forall (fun x => isRoot x.2 = false) vs) ->
  looked_keys h rec pth ps v ks = Some vs ->
  Forall (fun x => isRoot x.2 = false) vs.
Proof.
  intros Hrec. revert vs. induction ks as [|k ks IH]; intros vs H.
  - injection H as <-. constructor.
  - cbn [looked_keys] in H.
    destruct (rec (pth ++ [k]) ps (own_val h v k)) as [[vs1 s1]|] eqn:E1;
      [|discriminate].
    simpl in H.
    destruct (looked_keys h rec pth ps v ks) as [vs2|] eqn:E2; [|discriminate].
    injection H as <-. apply Forall_app. split; [|by apply IH].
    eapply Hrec; [|exact E1]. by destruct pth.
Qed.

Lemma looked_head fuel pth ps v vs s :
  looked h fuel pth ps v = Some (vs, s) ->
  node s = v
  /\ exists s0 rest,
       vs = (ps, s0) :: rest /\ node s0 = v /\ path s0 = pth
       /\ isRoot s0 = bool_decide (length pth = 0).
Proof.
  destruct fuel as [|fuel]; [discriminate|]. cbn [looked]. cbn zeta.
  set (s1 := updateState h ps (new_state v v pth ps)).
  assert (node s1 = v /\ path s1 = pth
          /\ isRoot s1 = bool_decide (length pth = 0)) as (Hn & Hp & Hr).
  { unfold s1. destruct (updateState_fields h ps (new_state v v pth ps))
      as (->&_&->&_&_&->&_). done. }
  destruct (isPureObj v && _).
  - destruct (looked_keys _ _ _ _ _ _) as [vs'|]; [|discriminate].
    intros [= <- <-]. split; [|by eauto 8].
    by destruct (updateState_fields h (ps ++ [s1]) s1) as (->&_).
  - intros [= <- <-]. split; [done | by eauto 8].
Qed.

Lemma looked_below fuel : forall pth ps v vs s,
  pth <> [] -> looked h fuel pth ps v = Some (vs, s) ->
  Forall (fun x => isRoot x.2 = false) vs.
Proof.
  induction fuel as [|fuel IH]; intros pth ps v vs s Hp H; [discriminate|].
  cbn [looked] in H. cbn zeta in H.
  set (s1 := updateState h ps (new_state v v pth ps)) in *.
  assert (isRoot s1 = false) as Hr.
  { unfold s1. destruct (updateState_fields h ps (new_state v v pth ps))
      as (_&_&_&_&_&->&_). simpl. apply bool_decide_eq_false.
    by destruct pth. }
  destruct (isPureObj v && _).
  - destruct (looked_keys _ _ _ _ _ _) as [vs'|] eqn:E; [|discriminate].
    injection H as <- <-. constructor; [done|].
    eapply looked_keys_below; [|exact E]. intros; eapply IH; eauto.
  - injection H as <- <-. by repeat constructor.
Qed.

Lemma looked_tail fuel ps v vs s :
  looked h fuel [] ps v = Some (vs, s) ->
  Forall (fun x => isRoot x.2 = false) (tail vs).
Proof.
  destruct fuel as [|fuel]; [discriminate|]. cbn [looked]. cbn zeta.
  destruct (isPureObj v && _).
  - destruct (looked_keys _ _ _ _ _ _) as [vs'|] eqn:E; [|discriminate].
    intros [= <- <-]. simpl.
    eapply looked_keys_below; [|exact E].
    intros pth x vs1 s1 Hp H1. by eapply looked_below.
  - intros [= <- <-]. constructor.
Qed.

End LookedFacts.

(** ** Termination of a walk that only looks *)

Section LookedTermination.

Variable h : heap.

Lemma looked_keys_is_Some
  (rec : list pkey -> list state -> val -> option (visits * state))
  pth ps v ks :
  (forall pth x, is_Some (rec pth ps x)) ->
  is_Some (looked_keys h rec pth ps v ks).
Proof.
  intros Hrec. induction ks as [|k ks IH]; [by eexists|].
  cbn [looked_keys].
  destruct (Hrec (pth ++ [k]) (own_val h v k)) as [[vs1 s1] ->].
  destruct IH as [vs2 ->]. by eexists.
Qed.

(** The ancestors of a node that is descended into are distinct objects of
    the heap, so the depth of the descent is bounded by its size. *)
Lemma looked_terminates fuel : forall pth ps v,
  NoDup (node_ <$> ps) ->
  Forall (fun x => exists i, x = VRef i /\ i < length h) (node_ <$> ps) ->
  length h < fuel + length ps ->
  is_Some (looked h fuel pth ps v).
Proof.
  induction fuel as [|fuel IH]; intros pth ps v Hnd Hin Hlt.
  - pose proof (distinct_refs_bound _ _ Hnd Hin) as Hb.
    rewrite length_fmap in Hb. lia.
  - rewrite looked_unfold. cbn zeta.
    destruct (isPureObj v && bool_decide (v ∉ node_ <$> ps)) eqn:E;
      [|by eexists].
    apply andb_true_iff in E as [Hv Hni]. apply bool_decide_eq_true in Hni.
    destruct v as [| | | | |l]; try discriminate.
    destruct (decide (l < length h)) as [Hl|Hl].
    + edestruct (looked_keys_is_Some (looked h fuel) pth) as [vs ->];
        [|by eexists].
      intros pth' x. apply IH.
      * rewrite pushed_originals. apply NoDup_app. split; [done|].
        split; [|apply NoDup_singleton].
        intros y Hy Hy'. apply list_elem_of_singleton in Hy'. by subst.
      * rewrite pushed_originals. apply Forall_app. split; [done|].
        apply Forall_singleton. eauto.
      * rewrite length_app. simpl. lia.
    + assert (objectKeys h (VRef l) = []) as ->.
      { unfold objectKeys, deref. rewrite lookup_ge_None_2 by lia. done. }
      by eexists.
Qed.

Lemma looked_keys_mono
  (rec rec' : list pkey -> list state -> val -> option (visits * state))
  pth ps v ks vs :
  (forall pth x r, rec pth ps x = Some r -> rec' pth ps x = Some r) ->
  looked_keys h rec pth ps v ks = Some vs ->
  looked_keys h rec' pth ps v ks = Some vs.
Proof.
  intros Hrec. revert vs. induction ks as [|k ks IH]; intros vs H; [done|].
  cbn [looked_keys] in *.
  destruct (rec (pth ++ [k]) ps (own_val h v k)) as [[vs1 s1]|] eqn:E1;
    [|discriminate].
  rewrite (Hrec _ _ _ E1). simpl in *.
  destruct (looked_keys h rec pth ps v ks) as [vs2|] eqn:E2; [|discriminate].
  by rewrite (IH vs2).
Qed.

Lemma looked_mono fuel : forall pth ps v r,
  looked h fuel pth ps v = Some r -> looked h (S fuel) pth ps v = Some r.
Proof.
  induction fuel as [|fuel IH]; intros pth ps v r H; [discriminate|].
  rewrite looked_unfold in *. cbn zeta in *.
  destruct (isPureObj v && _); [|done].
  destruct (looked_keys h (looked h fuel) _ _ _ _) as [vs|] eqn:E;
    [|discriminate].
  erewrite looked_keys_mono; [exact H | | exact E].
  intros pth' x r'. apply IH.
Qed.

Lemma looked_mono_le fuel fuel' pth ps v r :
  fuel <= fuel' -> looked h fuel pth ps v = Some r ->
  looked h fuel' pth ps v = Some r.
Proof.
  induction 1 as [|fuel' Hle IH]; [done|]. intros H. by apply looked_mono, IH.
Qed.

(** From the root, any fuel above the size of the heap is enough, and gives
    the same visits. *)
Lemma looked_from_root fuel v :
  length h < fuel ->
  exists vs s,
    looked h fuel [] [] v = Some (vs, s)
    /\ looked h (S (length h)) [] [] v = Some (vs, s).
Proof.
  intros Hlt.
  destruct (looked_terminates (S (length h)) [] [] v) as [[vs s] E].
  - constructor.
  - constructor.
  - simpl. lia.
  - exists vs, s. split; [|done].
    eapply looked_mono_le; [|exact E]. lia.
Qed.

End LookedTermination.

(** ** [paths], [nodes] and [reduce] *)

Section Derived.

Import Traverse.

Lemma fold_left_snoc {T U} (f : U -> T) (l : list U) (acc : list T) :
  fold_left (fun a x => a ++ [f x]) l acc = acc ++ (f <$> l).
Proof.
  revert acc. induction l as [|x l IH]; intros acc; simpl.
  - by rewrite app_nil_r.
  - by rewrite IH, <- app_assoc.
Qed.

Lemma paths_cb_looks : looks_only paths_cb.
Proof. by intros a vw arg. Qed.

Lemma nodes_cb_looks : looks_only nodes_cb.
Proof. by intros a vw arg. Qed.

Lemma reduce_cb_looks skip (f : val -> val -> val) :
  looks_only (reduce_cb skip (pure_reducer f)).
Proof.
  intros a vw arg. unfold reduce_cb, pure_reducer.
  by destruct (negb (isRoot (v_this vw)) || negb skip).
Qed.

Lemma forEach_looks {A} (cb : handler A) fuel h this a :
  looks_only cb ->
  forEach fuel h this a cb
  = match looked h fuel [] [] (value this) with
    | Some (vs, s) =>
        Ok (WState h [] [] true (fold_left (user_step cb h) vs a) vs None,
            Make (node s), node s)
    | None => Err OutOfFuel
    end.
Proof.
  intros Hcb. unfold forEach, walk. rewrite (walker_looks cb Hcb).
  by destruct (looked h fuel [] [] (value this)) as [[vs s]|].
Qed.

Lemma fold_reduce_below skip (f : val -> val -> val) h (vs : visits) c acc :
  Forall (fun x => isRoot x.2 = false) vs ->
  fold_left (user_step (reduce_cb skip (pure_reducer f)) h) vs (c, acc)
  = (c, fold_left f ((fun x => node x.2) <$> vs) acc).
Proof.
  intros Hvs. revert acc. induction Hvs as [|x vs Hx Hvs IH]; intros acc;
    [done|].
  simpl. rewrite <- IH. f_equal.
  unfold user_step, reduce_cb, pure_reducer. simpl. by rewrite Hx.
Qed.

Lemma fold_reduce_all (f : val -> val -> val) h (vs : visits) c acc :
  fold_left (user_step (reduce_cb false (pure_reducer f)) h) vs (c, acc)
  = (c, fold_left f ((fun x => node x.2) <$> vs) acc).
Proof.
  revert acc. induction vs as [|x vs IH]; intros acc; [done|].
  simpl. rewrite <- IH. f_equal.
  unfold user_step, reduce_cb, pure_reducer. simpl.
  by rewrite orb_true_r.
Qed.

(** [paths] on [o = {}; o.self = o] has two entries, the root and its
    circular child; the root is the only node that is not circular. *)
Lemma paths_counts_circular_nodes :
  ~ (forall fuel w this ps,
       paths fuel Examples.self_heap (Make (VRef 0)) = Ok (w, this, ps) ->
       length ps = count_noncircular fuel Examples.self_heap [] (VRef 0)).
Proof.
  intros H.
  assert (exists w, paths 3 Examples.self_heap (Make (VRef 0))
                    = Ok (w, Make (VRef 0), [[]; [KName "self"]]))
    as [w E] by (eexists; vm_compute; reflexivity).
  apply H in E. vm_compute in E. discriminate.
Qed.

(** C9 (as amended).  On every heap and root, cyclic or not, and with any
    fuel above the size of the heap, [paths] and [nodes] return: they list
    the path and the node of the same visits in the same order, so they
    have the same length, and that length is the number of nodes the walk
    reaches: the root and every descendant met on the way down, where a
    circular node is met and counted once and nothing is met below it.  The
    count does not depend on the fuel, and the heap is as it was. *)
Theorem paths_nodes_count (h : heap) (this : t) (fuel : nat) :
  length h < fuel ->
  exists (vs : visits) w1 w2,
    paths fuel h this = Ok (w1, this, (fun x => path x.2) <$> vs)
    /\ nodes fuel h this = Ok (w2, this, (fun x => node x.2) <$> vs)
    /\ length ((fun x => path x.2) <$> vs) = length ((fun x => node x.2) <$> vs)
    /\ length vs = count_reached fuel h [] (value this)
    /\ count_reached fuel h [] (value this)
       = count_reached (S (length h)) h [] (value this)
    /\ w_heap w1 = h /\ w_heap w2 = h.
Proof.
  intros Hlt.
  destruct (looked_from_root h fuel (value this) Hlt) as (vs & s & E & E0).
  destruct (looked_head h _ _ _ _ _ _ E) as [Hs _].
  assert (fold_left (user_step paths_cb h) vs []
          = (fun x => path x.2) <$> vs) as Hp.
  { unfold user_step, paths_cb. cbn [o_user].
    by rewrite (fold_left_snoc (fun x : list state * state => path x.2)). }
  assert (fold_left (user_step nodes_cb h) vs []
          = (fun x => node x.2) <$> vs) as Hn.
  { unfold user_step, nodes_cb. cbn [o_user].
    by rewrite (fold_left_snoc (fun x : list state * state => node x.2)). }
  exists vs. eexists _, _.
  unfold paths, nodes.
  rewrite (forEach_looks paths_cb) by apply paths_cb_looks.
  rewrite (forEach_looks nodes_cb) by apply nodes_cb_looks.
  rewrite E. cbn [mbind result_bind w_user w_heap]. rewrite Hs, Hp, Hn.
  destruct this as [root]. cbn [value] in *.
  split; [reflexivity|]. split; [reflexivity|].
  split; [by rewrite !length_fmap|].
  split; [by apply looked_count in E|].
  split; [|split; reflexivity].
  apply looked_count in E. apply looked_count in E0. simpl in *. congruence.
Qed.

(** [paths] and [nodes] on [{a: {b: 1}}]. *)
Lemma paths_nodes_count_witness :
  exists (vs : visits) w1 w2,
    paths 3 Examples.nested_heap (Make (VRef 0))
    = Ok (w1, Make (VRef 0), (fun x => path x.2) <$> vs)
    /\ nodes 3 Examples.nested_heap (Make (VRef 0))
       = Ok (w2, Make (VRef 0), (fun x => node x.2) <$> vs)
    /\ length ((fun x => path x.2) <$> vs) = length ((fun x => node x.2) <$> vs)
    /\ length vs = count_reached 3 Examples.nested_heap [] (VRef 0)
    /\ count_reached 3 Examples.nested_heap [] (VRef 0)
       = count_reached 3 Examples.nested_heap [] (VRef 0)
    /\ w_heap w1 = Examples.nested_heap /\ w_heap w2 = Examples.nested_heap.
Proof.
  apply (paths_nodes_count Examples.nested_heap (Make (VRef 0)) 3).
  simpl. lia.
Defined.

(** C7.  [reduce] with one argument seeds the accumulator with the root
    value and does not call the reducer at the root: there the closure and
    the accumulator stay and no state operation runs; at every other node,
    and at every node when an initial value is given, what the reducer does
    is what the visit does and its result is the next accumulator.  For a
    reducer that only computes, with any fuel above the size of the heap:
    [reduce] returns the fold of the reducer over the visited nodes, in
    order, from the initial value when one is given, and otherwise over the
    nodes after the first, which is the root, from the root value. *)
Theorem reduce_seed_and_fold (h : heap) (this : t) (fuel : nat)
  (f : val -> val -> val) :
  length h < fuel ->
  (forall C (cb : reducer C) c acc vw x,
     isRoot (v_this vw) = true ->
     reduce_cb true cb (c, acc) vw (HNode x) = Outcome (c, acc) [] [] VUndef)
  /\ (forall C (cb : reducer C) skip c acc vw x,
        isRoot (v_this vw) = false \/ skip = false ->
        reduce_cb skip cb (c, acc) vw (HNode x)
        = Outcome (o_user (cb c vw acc x), o_ret (cb c vw acc x))
                  (o_new (cb c vw acc x)) (o_acts (cb c vw acc x)) VUndef)
  /\ exists ns w,
       nodes fuel h this = Ok (w, this, ns)
       /\ head ns = Some (value this)
       /\ (exists w1,
             reduce fuel h this tt (pure_reducer f) None
             = Ok (w1, this, fold_left f (tail ns) (value this)))
       /\ (forall init, exists w2,
             reduce fuel h this tt (pure_reducer f) (Some init)
             = Ok (w2, this, fold_left f ns init)).
Proof.
  intros Hlt. split; [|split].
  - intros C cb c acc vw x Hr. unfold reduce_cb. by rewrite Hr.
  - intros C cb skip c acc vw x Hr. unfold reduce_cb. simpl.
    by destruct Hr as [-> | ->]; rewrite ?orb_true_r.
  - destruct (looked_from_root h fuel (value this) Hlt) as (vs & s & E & _).
    destruct (looked_head h _ _ _ _ _ _ E)
      as (Hs & s0 & rest & -> & Hn0 & _ & Hr0).
    pose proof (looked_tail h _ _ _ _ _ E) as Hrest. simpl in Hrest.
    set (vs := (@nil state, s0) :: rest) in *.
    assert (fold_left (user_step nodes_cb h) vs []
            = (fun x => node x.2) <$> vs) as Hn.
    { unfold user_step, nodes_cb. cbn [o_user].
      by rewrite (fold_left_snoc (fun x : list state * state => node x.2)). }
    assert (fold_left (user_step (reduce_cb true (pure_reducer f)) h) vs
                      (tt, value this)
            = (tt, fold_left f (tail ((fun x => node x.2) <$> vs)) (value this)))
      as Hskip.
    { unfold vs. simpl.
      unfold user_step at 2. unfold reduce_cb at 2. simpl. rewrite Hr0. simpl.
      by rewrite fold_reduce_below. }
    exists ((fun x => node x.2) <$> vs). eexists. unfold nodes, reduce.
    rewrite (forEach_looks nodes_cb) by apply nodes_cb_looks.
    rewrite E. cbn [mbind result_bind w_user w_heap]. rewrite Hs, Hn.
    destruct this as [root]. cbn [value] in *.
    split; [reflexivity|]. split; [by simpl; rewrite Hn0|]. split.
    + eexists.
      rewrite (forEach_looks (reduce_cb _ _)) by apply reduce_cb_looks.
      cbn [value]. rewrite E. cbn [mbind result_bind w_user w_heap]. rewrite Hs.
      change (bool_decide (@None val = None)) with true. cbn iota.
      rewrite Hskip. reflexivity.
    + intros init. eexists.
      rewrite (forEach_looks (reduce_cb _ _)) by apply reduce_cb_looks.
      cbn [value]. rewrite E. cbn [mbind result_bind w_user w_heap]. rewrite Hs.
      change (bool_decide (Some init = None)) with false. cbn iota.
      cbn [default]. rewrite fold_reduce_all. reflexivity.
Qed.

(** [reduce] summing the numbers of [{a: {b: 1}}]. *)
Lemma reduce_seed_and_fold_witness :
  exists ns w,
    nodes 3 Examples.nested_heap (Make (VRef 0)) = Ok (w, Make (VRef 0), ns)
    /\ head ns = Some (VRef 0)
    /\ (exists w1,
          reduce 3 Examples.nested_heap (Make (VRef 0)) tt
                 (pure_reducer Examples.add_numbers) None
          = Ok (w1, Make (VRef 0),
                fold_left Examples.add_numbers (tail ns) (VRef 0)))
    /\ (forall init, exists w2,
          reduce 3 Examples.nested_heap (Make (VRef 0)) tt
                 (pure_reducer Examples.add_numbers) (Some init)
          = Ok (w2, Make (VRef 0), fold_left Examples.add_numbers ns init)).
Proof.
  apply (reduce_seed_and_fold Examples.nested_heap (Make (VRef 0)) 3
           Examples.add_numbers).
  simpl. lia.
Defined.

End Derived.

(** * More of the engine *)

(** ** Heap lookups *)

Lemma deref_insert_eq (h : heap) (l : loc) (o : obj) :
  l < length h -> deref (<[l := o]> h) l = o.
Proof. intros Hl. unfold deref. by rewrite list_lookup_insert_eq. Qed.

Lemma deref_insert_ne (h : heap) (l l' : loc) (o : obj) :
  l <> l' -> deref (<[l := o]> h) l' = deref h l'.
Proof. intros Hl. unfold deref. by rewrite list_lookup_insert_ne. Qed.

Lemma deref_app_l (h h2 : heap) (l : loc) :
  l < length h -> deref (h ++ h2) l = deref h l.
Proof. intros Hl. unfold deref. by rewrite lookup_app_l. Qed.

Lemma deref_ge (h : heap) (l : loc) : length h <= l -> deref h l = empty_obj.
Proof. intros Hl. unfold deref. by rewrite lookup_ge_None_2. Qed.

Lemma deref_props_lt (h : heap) (l : loc) (k : pkey) (y : val) :
  assoc k (props (deref h l)) = Some y -> l < length h.
Proof.
  intros H. destruct (decide (l < length h)) as [|Hge]; [done|].
  rewrite deref_ge in H by lia. discriminate.
Qed.

Lemma assoc_set_same (k : pkey) (v : val) (ps : list (pkey * val)) :
  assoc k (assoc_set k v ps) = Some v.
Proof.
  induction ps as [|[k' v'] ps IH]; cbn [assoc_set assoc].
  - by rewrite decide_True.
  - destruct (decide (k = k')) as [->|Hne]; cbn [assoc].
    + by rewrite decide_True.
    + by rewrite decide_False.
Qed.

Lemma assoc_set_other (k k' : pkey) (v : val) (ps : list (pkey * val)) :
  k' <> k -> assoc k' (assoc_set k v ps) = assoc k' ps.
Proof.
  intros Hne. induction ps as [|[k0 v0] ps IH]; cbn [assoc_set assoc].
  - by rewrite decide_False.
  - destruct (decide (k = k0)) as [<-|Hne0]; cbn [assoc].
    + by rewrite !decide_False.
    + by rewrite IH.
Qed.

(** ** [set] *)

Section SetFacts.

Import Traverse.

Lemma hasOwnProperty_assoc (h : heap) (l : loc) (k : pkey) :
  hasOwnProperty h (VRef l) k = bool_decide (is_Some (assoc k (props (deref h l)))).
Proof. reflexivity. Qed.

Lemma hasOwnProperty_false (h : heap) (l : loc) (k : pkey) :
  hasOwnProperty h (VRef l) k = false <-> assoc k (props (deref h l)) = None.
Proof.
  rewrite hasOwnProperty_assoc, bool_decide_eq_false.
  by rewrite eq_None_not_Some.
Qed.

(** What one assignment does to the own properties of the heap. *)
Lemma set_prop_assoc (h h' : heap) (n : val) (k : pkey) (v : val) :
  set_prop h n k v = Ok h' ->
  length h' = length h
  /\ forall l k',
       assoc k' (props (deref h' l))
       = if decide (n = VRef l /\ k' = k /\ l < length h) then Some v
         else assoc k' (props (deref h l)).
Proof.
  intros H. destruct n as [| | | | |l0]; simpl in H; try discriminate;
    injection H as <-; (split; [by rewrite ?length_insert|]); intros l k';
    try (rewrite decide_False; [done | by intros [? _]]).
  destruct (decide (l0 = l)) as [->|Hne].
  - destruct (decide (l < length h)) as [Hl|Hl].
    + rewrite deref_insert_eq by done. simpl.
      destruct (decide (k' = k)) as [->|Hk].
      * rewrite decide_True by done. apply assoc_set_same.
      * rewrite decide_False by (by intros (_&?&_)). by apply assoc_set_other.
    + rewrite list_insert_ge by lia.
      rewrite decide_False; [done | by intros (_&_&?)].
  - rewrite deref_insert_ne by done.
    rewrite decide_False; [done | intros ([= ?]&_); congruence].
Qed.

Lemma set_from_null (h : heap) (ps : list pkey) (x : val) (n : val) :
  n = VUndef \/ n = VNull -> set_from h n ps x = Err TypeError.
Proof.
  intros Hn. destruct ps as [|k [|k2 rest]]; cbn [set_from].
  - by destruct Hn as [-> | ->].
  - by destruct Hn as [-> | ->].
  - by destruct Hn as [-> | ->].
Qed.

Lemma set_from_unfold (h : heap) (n : val) (k k2 : pkey) (rest : list pkey)
  (x : val) :
  set_from h n (k :: k2 :: rest) x
  = (h1 ← (if hasOwnProperty h n k then Ok h
           else set_prop (h ++ [empty_obj]) n k (VRef (length h)));
     node' ← get_prop h1 n k;
     set_from h1 node' (k2 :: rest) x).
Proof. reflexivity. Qed.

Lemma set_from_roundtrip (rest : list pkey) :
  forall (k : pkey) (h : heap) (l : loc) (x : val),
  l < length h ->
  rest = [] \/ hasOwnProperty h (VRef l) k = false ->
  exists h',
    set_from h (VRef l) (k :: rest) x = Ok h'
    /\ get_from h' (VRef l) (k :: rest) = Ok x
    /\ has_from h' (VRef l) (k :: rest) = Ok true
    /\ length h <= length h'
    /\ forall l', l' < length h -> l' <> l -> h' !! l' = h !! l'.
Proof.
  induction rest as [|k2 rest IH]; intros k h l x Hl Hk.
  - exists (<[l := set_own (deref h l) k x]> h). cbn [set_from get_from has_from].
    split; [done|].
    assert (hasOwnProperty (<[l := set_own (deref h l) k x]> h) (VRef l) k = true)
      as Hown.
    { rewrite hasOwnProperty_assoc, deref_insert_eq by done. simpl.
      rewrite assoc_set_same. by apply bool_decide_eq_true. }
    rewrite Hown. simpl. rewrite deref_insert_eq by done. simpl.
    rewrite assoc_set_same. simpl.
    split; [done|]. split; [done|]. split; [by rewrite length_insert|].
    intros l' _ Hne. by rewrite list_lookup_insert_ne.
  - destruct Hk as [Hk|Hk]; [discriminate|].
    set (h0 := h ++ [empty_obj]).
    set (h1 := <[l := set_own (deref h0 l) k (VRef (length h))]> h0).
    assert (length h0 = S (length h)) as Hlen0
      by (unfold h0; rewrite length_app; simpl; lia).
    assert (length h1 = S (length h)) as Hlen1
      by (unfold h1; by rewrite length_insert).
    assert (deref h1 l = set_own (deref h0 l) k (VRef (length h))) as Hd1
      by (unfold h1; apply deref_insert_eq; lia).
    assert (get_prop h1 (VRef l) k = Ok (VRef (length h))) as Hg1.
    { simpl. rewrite Hd1. simpl. by rewrite assoc_set_same. }
    destruct (IH k2 h1 (length h) x) as (h' & Hs & Hget & Hhas & Hle & Hfr).
    { lia. }
    { right. apply hasOwnProperty_false. unfold h1.
      rewrite deref_insert_ne by lia. unfold h0, deref.
      rewrite lookup_app_r by lia. by rewrite Nat.sub_diag. }
    exists h'. split.
    { rewrite set_from_unfold, Hk. cbn [set_prop mbind result_bind].
      fold h0. fold h1. rewrite Hg1. exact Hs. }
    assert (deref h' l = deref h1 l) as Hd'.
    { unfold deref. rewrite Hfr by lia. done. }
    assert (hasOwnProperty h' (VRef l) k = true) as Hown.
    { rewrite hasOwnProperty_assoc, Hd', Hd1. simpl.
      rewrite assoc_set_same. by apply bool_decide_eq_true. }
    assert (get_prop h' (VRef l) k = Ok (VRef (length h))) as Hg'.
    { simpl. rewrite Hd', Hd1. simpl. by rewrite assoc_set_same. }
    split; [|split; [|split]].
    + cbn [get_from]. rewrite Hown, Hg'. exact Hget.
    + cbn [has_from]. rewrite Hown, Hg'. exact Hhas.
    + lia.
    + intros l' Hl' Hne. rewrite Hfr by lia. unfold h1.
      rewrite list_lookup_insert_ne by done. unfold h0.
      by rewrite lookup_app_l.
Qed.

(** X1.  [set] then [get]: on a root object, along a path of plain
    properties (no [__proto__], no [length] of a sequence, nor another key
    that is special for the object it meets), for a path of one key, or a
    longer one whose first key the root does not own, [set] returns the
    value, [get] along the same path then returns it and [has] returns
    [true]; every other object that was in the heap is left as it was. *)
Theorem set_then_get (h : heap) (l : loc) (k : pkey) (rest : list pkey)
  (x : val) :
  l < length h ->
  ordinary_path h (VRef l) (k :: rest) = true ->
  rest = [] \/ hasOwnProperty h (VRef l) k = false ->
  exists h',
    set h (Make (VRef l)) (k :: rest) x = Ok (h', x)
    /\ get h' (Make (VRef l)) (k :: rest) = Ok x
    /\ has h' (Make (VRef l)) (k :: rest) = Ok true
    /\ forall l', l' < length h -> l' <> l -> h' !! l' = h !! l'.
Proof.
  intros Hl _ Hk.
  destruct (set_from_roundtrip rest k h l x Hl Hk)
    as (h' & Hs & Hget & Hhas & _ & Hfr).
  exists h'. unfold set, get, has. cbn [value]. rewrite Hs. by repeat split.
Qed.

(** [set(['a', 'b', 'c'], 1)] on [{}]. *)
Lemma set_then_get_witness :
  exists h',
    set [empty_obj] (Make (VRef 0)) [KName "a"; KName "b"; KName "c"] (VNum 1)
    = Ok (h', VNum 1)
    /\ get h' (Make (VRef 0)) [KName "a"; KName "b"; KName "c"] = Ok (VNum 1)
    /\ has h' (Make (VRef 0)) [KName "a"; KName "b"; KName "c"] = Ok true
    /\ forall l', l' < length [empty_obj] -> l' <> 0 ->
                  h' !! l' = [empty_obj] !! l'.
Proof.
  apply (set_then_get [empty_obj] 0 (KName "a") [KName "b"; KName "c"] (VNum 1)).
  - simpl. lia.
  - reflexivity.
  - right. reflexivity.
Defined.

Lemma set_from_keeps (ps : list pkey) : forall h n x h',
  set_from h n ps x = Ok h' ->
  length h <= length h'
  /\ forall l k y,
       assoc k (props (deref h l)) = Some y ->
       assoc k (props (deref h' l)) = Some y
       \/ assoc k (props (deref h' l)) = Some x.
Proof.
  assert (forall h n k x h', set_prop h n k x = Ok h' ->
            length h <= length h'
            /\ forall l k' y,
                 assoc k' (props (deref h l)) = Some y ->
                 assoc k' (props (deref h' l)) = Some y
                 \/ assoc k' (props (deref h' l)) = Some x) as Hlast.
  { intros h n k x h' H. apply set_prop_assoc in H as [Hlen Has].
    split; [lia|]. intros l k' y Hy. rewrite Has.
    destruct (decide _); [by right | by left]. }
  induction ps as [|k ps IH]; intros h n x h' H.
  - by apply Hlast in H.
  - destruct ps as [|k2 rest]; [by apply Hlast in H|].
    rewrite set_from_unfold in H. bind_inv H as h1 Hviv. bind_inv H as n' Hget.
    apply IH in H as [Hle Hkeep].
    assert (length h <= length h1
            /\ forall l k' y, assoc k' (props (deref h l)) = Some y ->
                              assoc k' (props (deref h1 l)) = Some y)
      as [Hle1 Hkeep1].
    { destruct (hasOwnProperty h n k) eqn:Eown.
      - injection Hviv as <-. by split.
      - apply set_prop_assoc in Hviv as [Hlen Has].
        rewrite length_app in Hlen. simpl in Hlen. split; [lia|].
        intros l k' y Hy. pose proof (deref_props_lt _ _ _ _ Hy) as Hl.
        rewrite Has. rewrite deref_app_l by done.
        destruct (decide _) as [(-> & -> & _)|]; [|done].
        apply hasOwnProperty_false in Eown. congruence. }
    split; [lia|]. intros l k' y Hy. apply Hkeep. by apply Hkeep1.
Qed.

(** X2.  What [set] leaves alone: along a path of plain properties (no
    [__proto__], no [length] of a sequence, nor another key that is special
    for the object it meets), when [set] returns, it returns the value, no
    object has left the heap, and every own property that was there either
    still has its value or now has the value that was set. *)
Theorem set_keeps_other_properties (h h' : heap) (this : t) (ps : list pkey)
  (x r : val) :
  ordinary_path h (value this) ps = true ->
  set h this ps x = Ok (h', r) ->
  r = x /\ length h <= length h'
  /\ forall l k y,
       assoc k (props (deref h l)) = Some y ->
       assoc k (props (deref h' l)) = Some y
       \/ assoc k (props (deref h' l)) = Some x.
Proof.
  unfold set. intros _ H. bind_inv H as h1 Hs. injection H as <- <-.
  split; [done|]. by apply set_from_keeps in Hs.
Qed.

(** [set(['y'], 7)] on [{x: d, y: 10, z: 5}]. *)
Lemma set_keeps_other_properties_witness :
  exists h',
    set (Examples.date_heap 0) (Make (VRef 0)) [KName "y"] (VNum 7)
    = Ok (h', VNum 7)
    /\ VNum 7 = VNum 7 /\ length (Examples.date_heap 0) <= length h'
    /\ forall l k y,
         assoc k (props (deref (Examples.date_heap 0) l)) = Some y ->
         assoc k (props (deref h' l)) = Some y
         \/ assoc k (props (deref h' l)) = Some (VNum 7).
Proof.
  eexists. split; [vm_compute; reflexivity|].
  apply (set_keeps_other_properties (Examples.date_heap 0) _ (Make (VRef 0))
           [KName "y"] (VNum 7) (VNum 7)).
  - reflexivity.
  - vm_compute. reflexivity.
Defined.

(** X3.  [set] with the empty path does not replace the root: the value
    goes under the key ["undefined"] of the root, where [get] finds it,
    and [get] with the empty path still returns the root. *)
Theorem set_empty_path (h : heap) (l : loc) (x : val) :
  l < length h ->
  exists h',
    set h (Make (VRef l)) [] x = Ok (h', x)
    /\ get h' (Make (VRef l)) [KName "undefined"] = Ok x
    /\ get h' (Make (VRef l)) [] = Ok (VRef l)
    /\ forall k, k <> KName "undefined" ->
                 get h' (Make (VRef l)) [k] = get h (Make (VRef l)) [k].
Proof.
  intros Hl. exists (<[l := set_own (deref h l) (KName "undefined") x]> h).
  split; [reflexivity|]. unfold get. cbn [value get_from truthy negb orb].
  rewrite !hasOwnProperty_assoc. cbn [get_prop own_val].
  rewrite !deref_insert_eq by done. cbn [set_own props].
  split; [by rewrite assoc_set_same|]. split; [done|].
  intros k Hk. rewrite hasOwnProperty_assoc.
  rewrite deref_insert_eq by done. cbn [set_own props].
  by rewrite assoc_set_other.
Qed.

(** [set([], 1)] on [{a: {b: 1}}]. *)
Lemma set_empty_path_witness :
  exists h',
    set Examples.nested_heap (Make (VRef 0)) [] (VNum 1) = Ok (h', VNum 1)
    /\ get h' (Make (VRef 0)) [KName "undefined"] = Ok (VNum 1)
    /\ get h' (Make (VRef 0)) [] = Ok (VRef 0)
    /\ forall k, k <> KName "undefined" ->
                 get h' (Make (VRef 0)) [k]
                 = get Examples.nested_heap (Make (VRef 0)) [k].
Proof.
  apply (set_empty_path Examples.nested_heap 0 (VNum 1)). simpl. lia.
Defined.

(** X4.  [set] on a root that is no object: on [undefined] and [null] it
    throws, whatever the path; on a number or a boolean a path of at most
    one key returns the value and assigns nothing, and a longer path whose
    first key the scalar does not inherit (as it does [constructor] or
    [toString]) throws, at the [undefined] that the first key reads. *)
Theorem set_on_scalar_root (h : heap) (ps : list pkey) (x : val) :
  (forall k, head ps = Some k -> inherited_name k = false) ->
  set h (Make VUndef) ps x = Err TypeError
  /\ set h (Make VNull) ps x = Err TypeError
  /\ (forall n,
        set h (Make (VNum n)) ps x
        = if decide (length ps <= 1) then Ok (h, x) else Err TypeError)
  /\ (forall b,
        set h (Make (VBool b)) ps x
        = if decide (length ps <= 1) then Ok (h, x) else Err TypeError).
Proof.
  intros _. unfold set. cbn [value].
  rewrite !set_from_null by auto.
  split; [done|]. split; [done|].
  split; intros n; destruct ps as [|k [|k2 rest]]; try reflexivity;
    rewrite set_from_unfold;
    cbn [hasOwnProperty set_prop get_prop own_val mbind result_bind];
    rewrite set_from_null by auto; reflexivity.
Qed.

(** [set(['a', 'b'], 1)] on [undefined], [null], a number and a boolean. *)
Lemma set_on_scalar_root_witness :
  set [] (Make VUndef) [KName "a"; KName "b"] (VNum 1) = Err TypeError
  /\ set [] (Make VNull) [KName "a"; KName "b"] (VNum 1) = Err TypeError
  /\ (forall n,
        set [] (Make (VNum n)) [KName "a"; KName "b"] (VNum 1)
        = if decide (length [KName "a"; KName "b"] <= 1) then Ok ([], VNum 1)
          else Err TypeError)
  /\ (forall b,
        set [] (Make (VBool b)) [KName "a"; KName "b"] (VNum 1)
        = if decide (length [KName "a"; KName "b"] <= 1) then Ok ([], VNum 1)
          else Err TypeError).
Proof.
  apply (set_on_scalar_root [] [KName "a"; KName "b"] (VNum 1)).
  intros k [= <-]. reflexivity.
Defined.

End SetFacts.

(** ** [copy] *)

Lemma assoc_None_notin (k : pkey) (ps : list (pkey * val)) :
  assoc k ps = None <-> k ∉ ps.*1.
Proof.
  induction ps as [|[k' v] ps IH]; cbn [assoc fmap list_fmap fst].
  - split; [intros _; apply not_elem_of_nil | done].
  - rewrite not_elem_of_cons. destruct (decide (k = k')) as [->|Hne].
    + split; [discriminate | by intros [? _]].
    + rewrite IH. tauto.
Qed.

Lemma assoc_set_fresh (k : pkey) (v : val) (ps : list (pkey * val)) :
  k ∉ ps.*1 -> assoc_set k v ps = ps ++ [(k, v)].
Proof.
  induction ps as [|[k' v'] ps IH]; cbn [assoc_set fmap list_fmap fst];
    [done|].
  rewrite not_elem_of_cons. intros [Hne Hnin].
  rewrite decide_False by done. by rewrite IH.
Qed.

Lemma assoc_NoDup (k : pkey) (v : val) (ps : list (pkey * val)) :
  NoDup ps.*1 -> (k, v) ∈ ps -> assoc k ps = Some v.
Proof.
  induction ps as [|[k' v'] ps IH]; cbn [assoc fmap list_fmap fst].
  - intros _ H. by apply elem_of_nil in H.
  - rewrite NoDup_cons. intros [Hnin Hnd] Hin.
    apply elem_of_cons in Hin as [[= -> ->]|Hin].
    + by rewrite decide_True.
    + rewrite decide_False; [by apply IH|].
      intros ->. apply Hnin. apply list_elem_of_fmap. by exists (k', v).
Qed.

(** Assigning the properties [ps2], in order, to an object that has the
    properties [ps1]. *)
Lemma assign_all (full : list (pkey * val)) (ps2 : list (pkey * val)) :
  forall ps1 kd,
    (forall k v, (k, v) ∈ ps2 -> assoc k full = Some v) ->
    NoDup (ps1 ++ ps2).*1 ->
    fold_left (fun d k => set_own d k (default VUndef (assoc k full)))
              ps2.*1 (Obj kd ps1)
    = Obj (match kd with
           | KArray n => KArray (Nat.max n (extent ps2))
           | _ => kd
           end) (ps1 ++ ps2).
Proof.
  induction ps2 as [|[k v] ps2 IH]; intros ps1 kd Hfull Hnd.
  - simpl. rewrite app_nil_r. destruct kd; try done. by rewrite Nat.max_0_r.
  - cbn [fmap list_fmap fst fold_left].
    rewrite (Hfull k v) by apply list_elem_of_here. cbn [default].
    assert (k ∉ ps1.*1) as Hk.
    { rewrite fmap_app in Hnd. apply NoDup_app in Hnd as (_ & Hd & _).
      intros Hin. apply (Hd k Hin). simpl. apply list_elem_of_here. }
    unfold set_own at 2. cbn [kind props]. rewrite assoc_set_fresh by done.
    rewrite IH.
    + rewrite <- app_assoc. simpl. f_equal.
      destruct kd; try done; destruct k; simpl; try done.
      by rewrite Nat.max_assoc.
    + intros k' v' Hin. apply Hfull. by apply list_elem_of_further.
    + by rewrite <- app_assoc.
Qed.

(** X5.  [copy] is a copy of one level.  A scalar is returned as it is and
    the heap with it.  Of an object whose own keys are distinct, the copy
    is a new object at the end of the heap, every other object staying as
    it is, with the same own keys in the same order holding the same
    values, so that children are shared; its kind is that of the source,
    except that a sequence gets the length its keys give it, a boxed boolean
    becomes a boxed [true], and an error-like becomes a plain record that
    has its message in front of its own properties. *)
Theorem copy_one_level (h : heap) (l : loc) (o : obj) :
  h !! l = Some o ->
  NoDup (props o).*1 ->
  (forall msg, kind o = KError msg -> assoc (KName "message") (props o) = None) ->
  copy h (VRef l)
  = (h ++ [Obj (copied_kind (kind o) (props o))
               ((match kind o with
                 | KError msg => [(KName "message", msg)]
                 | _ => []
                 end) ++ props o)],
     VRef (length h))
  /\ forall v, isPureObj v = false -> copy h v = (h, v).
Proof.
  intros Hl Hnd Hmsg. split; [|by intros [| | | | |?]].
  unfold copy, alloc, objectKeys, deref. rewrite Hl. cbn [from_option id].
  do 2 f_equal.
  destruct o as [kd ps]. cbn [kind props] in *. unfold copy_shell. cbn [kind].
  assert (forall k v, (k, v) ∈ ps -> assoc k ps = Some v) as Hfull
    by (intros k v; by apply assoc_NoDup).
  destruct kd; cbn iota; cbn [copied_kind app];
    rewrite (assign_all ps ps); try done.
  simpl. apply NoDup_cons. split; [|done].
  apply assoc_None_notin. by eapply Hmsg.
Qed.

(** [copy] of the root of [{x: d, y: 10, z: 5}]. *)
Lemma copy_one_level_witness :
  copy (Examples.date_heap 0) (VRef 0)
  = (Examples.date_heap 0
       ++ [Obj KPlain [(KName "x", VRef 1); (KName "y", VNum 10);
                       (KName "z", VNum 5)]],
     VRef 2)
  /\ forall v, isPureObj v = false ->
               copy (Examples.date_heap 0) v = (Examples.date_heap 0, v).
Proof.
  apply (copy_one_level (Examples.date_heap 0) 0
           (Obj KPlain [(KName "x", VRef 1); (KName "y", VNum 10);
                        (KName "z", VNum 5)])).
  - reflexivity.
  - simpl. repeat (apply NoDup_cons; split;
                   [intros Hin; repeat (apply elem_of_cons in Hin
                                        as [Hin|Hin]; [discriminate|]);
                    by apply elem_of_nil in Hin|]).
    apply NoDup_nil_2.
  - discriminate.
Defined.

(** ** Vetoes *)

Section Veto.

Context {A : Type}.
Implicit Types (w : wstate A) (lc : locals A) (s : state) (cb : handler A).

Lemma exec_action_vetoes (a : action A) w lc w' lc' :
  vetoes a = true -> exec_action a w lc = Ok (w', lc') -> keepGoing lc' = false.
Proof.
  destruct a as [x [|]|[|]|b| | |f|f|f|f]; try discriminate; intros _ H;
    simpl in H.
  - bind_inv H as h Hh. by injection H as <- <-.
  - bind_inv H as pn Hpn. bind_inv H as h Hh. by injection H as <- <-.
  - by injection H as <- <-.
Qed.

Lemma exec_actions_vetoes (acts : list (action A)) : forall a w lc w' lc',
  a ∈ acts -> vetoes a = true ->
  exec_actions acts w lc = Ok (w', lc') -> keepGoing lc' = false.
Proof.
  induction acts as [|a0 acts IH]; intros a w lc w' lc' Hin Hv H.
  - by apply elem_of_nil in Hin.
  - simpl in H. bind_inv H as [w1 lc1] H1.
    apply elem_of_cons in Hin as [<- | Hin].
    + apply exec_action_vetoes in H1; [|done].
      apply exec_actions_frame in H. unfold same_frame in H.
      destruct H as (_&_&_&_&_&_&_&_&_&_&_&_&Hk). auto.
    + by eapply IH.
Qed.

(** X6.  [block()], and [update] and [delete] called with [stopHere], veto
    the descent, and nothing the callback or a [before] hook does afterwards
    lifts the veto: the visit of a node on which the callback calls one of
    them never visits a child, in either mode, and when it returns the
    callback has run once more, on that node. *)
Theorem veto_prevents_descent cb (immutable : bool)
  (rec rec' : wstate A -> val -> result (wstate A * state)) w nd_
  (a : action A) :
  w_alive w = true ->
  a ∈ o_acts (entry_outcome cb immutable w nd_) ->
  vetoes a = true ->
  visit cb immutable rec w nd_ = visit cb immutable rec' w nd_
  /\ forall w' s,
       visit cb immutable rec w nd_ = Ok (w', s) ->
       w_visits w' = w_visits w ++ [(w_parents w, entry_state immutable w nd_)].
Proof.
  intros Ha Hin Hv.
  assert (forall w1 lc1,
            call_callback cb (with_heap (v_heap (entry_view immutable w nd_)) w)
                          (entry_state immutable w nd_) = Ok (w1, lc1) ->
            keepGoing lc1 = false) as Hk.
  { intros w1 lc1 H. rewrite call_callback_unfold in H. cbv zeta in H.
    bind_inv H as [w2 lc2] Hacts. bind_inv H as [w3 lc3] Hret.
    eapply exec_actions_vetoes in Hacts; [|exact Hin|exact Hv].
    assert (keepGoing lc3 = false) as Hk3.
    { destruct (negb (strict_eq _ _)).
      - apply exec_action_frame in Hret. unfold same_frame in Hret.
        destruct Hret as (_&_&_&_&_&_&_&_&_&_&_&_&Hk). auto.
      - by injection Hret as <- <-. }
    apply run_hook_frame in H. destruct H as (_&_&_&_&_&_&_&_&_&Hk). auto. }
  split; [by apply visit_vetoed|].
  intros w' s H. rewrite visit_alive in H by done.
  bind_inv H as [w1 lc1] Hcall. rewrite (Hk _ _ Hcall) in H.
  injection H as <- <-. apply call_callback_frame in Hcall. simpl in Hcall.
  tauto.
Qed.

End Veto.

(** [block()] at the root of [{a: {b: 1}}]. *)
Lemma veto_prevents_descent_witness :
  visit MoreExamples.block_all false (walker 2 MoreExamples.block_all false)
        (init_wstate Examples.nested_heap tt) (VRef 0)
  = visit MoreExamples.block_all false (fun _ _ => Err OutOfFuel)
          (init_wstate Examples.nested_heap tt) (VRef 0)
  /\ forall w' s,
       visit MoreExamples.block_all false (walker 2 MoreExamples.block_all false)
             (init_wstate Examples.nested_heap tt) (VRef 0) = Ok (w', s) ->
       w_visits w'
       = w_visits (init_wstate Examples.nested_heap tt)
         ++ [(w_parents (init_wstate Examples.nested_heap tt),
              entry_state false (init_wstate Examples.nested_heap tt) (VRef 0))].
Proof.
  apply (veto_prevents_descent MoreExamples.block_all false
           (walker 2 MoreExamples.block_all false) (fun _ _ => Err OutOfFuel)
           (init_wstate Examples.nested_heap tt) (VRef 0) ABlock).
  - reflexivity.
  - vm_compute. apply list_elem_of_here.
  - reflexivity.
Defined.

(** ** The shape of the states *)

Section Shape.

Context {A : Type}.
Implicit Types (w : wstate A) (lc : locals A) (s : state) (cb : handler A).

Lemma entry_state_key_level imm w nd_ :
  key (entry_state imm w nd_) = last (w_path w)
  /\ level (entry_state imm w nd_) = length (w_path w).
Proof.
  unfold entry_state, entry_view.
  destruct (if imm then _ else _) as [h nd]. simpl.
  pose proof (updateState_fields h (w_parents w)
                (new_state nd nd_ (w_path w) (w_parents w))) as H.
  simpl in H. destruct H as (_&_&_&_&->&_&->). done.
Qed.

Lemma entry_state_shaped imm w nd_ :
  length (w_path w) = length (w_parents w) -> prefixes w ->
  shaped (w_parents w, entry_state imm w nd_).
Proof.
  intros Hlen Hpre. unfold shaped.
  destruct (entry_state_fields imm w nd_) as (_&_&Hp&Hpar&Hroot).
  destruct (entry_state_key_level imm w nd_) as [Hk Hl].
  rewrite Hp, Hpar, Hroot, Hk, Hl.
  split; [done|]. split; [done|]. split; [|split; [|split; [done|]]].
  - rewrite Hlen. apply bool_decide_ext. by destruct (w_parents w).
  - done.
  - intros i p Hi. by apply Hpre.
Qed.

Lemma run_hook_top_in_loop ps0 pth pth' (f : option (handler A)) arg w lc w' lc' :
  (exists top, w_parents w = ps0 ++ [top] /\ path top = pth) ->
  w_path w = pth' -> path (l_state lc) = pth ->
  run_hook_top f arg w lc = Ok (w', lc') ->
  (exists top, w_parents w' = ps0 ++ [top] /\ path top = pth)
  /\ w_path w' = pth' /\ path (l_state lc') = pth
  /\ w_visits w' = w_visits w.
Proof.
  intros (top & Hps & Htop) Hpath Hlc H. unfold run_hook_top in H.
  bind_inv H as [w1 lc1] H1. injection H as <- <-.
  apply run_hook_frame in H1.
  destruct H1 as (Hp1 & Hps1 & Hv1 & _ & Hpl & _).
  split; [|simpl; repeat split; congruence].
  exists (l_state lc1). simpl. rewrite Hps1, Hps, removelast_last.
  split; [done | congruence].
Qed.

Lemma prefixes_in_loop ps0 pth k w :
  length pth = length ps0 ->
  (forall i p, ps0 !! i = Some p -> path p = take i pth) ->
  (exists top, w_parents w = ps0 ++ [top] /\ path top = pth) ->
  w_path w = pth ++ [k] ->
  length (w_path w) = length (w_parents w) /\ prefixes w.
Proof.
  intros Hlen Hpre (top & Hps & Htop) Hpath. split.
  - rewrite Hpath, Hps, !length_app. simpl. lia.
  - intros i p Hi. rewrite Hps in Hi. rewrite Hpath.
    destruct (decide (i < length ps0)) as [Hlt|Hge].
    + rewrite lookup_app_l in Hi by done.
      rewrite take_app_le by lia. by apply Hpre.
    + rewrite lookup_app_r in Hi by lia.
      destruct (i - length ps0) as [|n] eqn:E; simpl in Hi; [|done].
      injection Hi as <-. rewrite Htop.
      assert (i = length pth) as -> by lia.
      rewrite take_app_le by lia. by rewrite firstn_all.
Qed.

Lemma each_key_shaped imm (rec : wstate A -> val -> result (wstate A * state))
  n ks ps0 pth :
  restores rec ->
  length pth = length ps0 ->
  (forall i p, ps0 !! i = Some p -> path p = take i pth) ->
  forall i w lc w' lc',
    in_loop ps0 pth w lc ->
    each_key imm rec n ks i w lc = Ok (w', lc') ->
    in_loop ps0 pth w' lc' /\ grows shaped w w'.
Proof.
  intros Hrec Hlen Hpre.
  induction ks as [|k ks IH]; intros i w lc w' lc' (Hpath & Htop & Hlc) H.
  - injection H as <- <-. split; [done | by apply grows_refl].
  - cbn [each_key] in H.
    bind_inv H as [w1 lc1] Hpre1.
    assert ((exists top, w_parents w1 = ps0 ++ [top] /\ path top = pth)
            /\ w_path w1 = pth ++ [k] /\ path (l_state lc1) = pth
            /\ w_visits w1 = w_visits w) as (Htop1 & Hpath1 & Hlc1 & Hv1).
    { destruct (pre (l_mods lc)).
      - bind_inv Hpre1 as x Hget.
        eapply run_hook_top_in_loop in Hpre1; eauto.
        simpl. by rewrite Hpath.
      - injection Hpre1 as <- <-. simpl. by rewrite Hpath. }
    bind_inv H as x Hget. bind_inv H as [w2 child] Hchild.
    destruct (prefixes_in_loop ps0 pth k w1 Hlen Hpre Htop1 Hpath1)
      as [Hlen1 Hpre1'].
    apply Hrec in Hchild as (Hpath2 & Hps2 & Hg2); [|done|done].
    bind_inv H as h2 Hset. bind_inv H as [w3 lc3] Hpost.
    eapply (run_hook_top_in_loop ps0 pth (pth ++ [k])) in Hpost
      as (Htop3 & Hpath3 & Hlc3 & Hv3);
      [| simpl; by rewrite Hps2 | simpl; congruence | done].
    apply IH in H as [Hloop Hg].
    + split; [done|].
      eapply grows_trans; [apply grows_refl, Hv1|].
      eapply grows_trans; [apply Hg2|].
      eapply grows_trans; [apply grows_refl; exact Hv3 | apply Hg].
    + split; [|split; [exact Htop3 | exact Hlc3]].
      simpl. rewrite Hpath3. apply removelast_last.
Qed.

Lemma descend_shaped imm (rec : wstate A -> val -> result (wstate A * state))
  w lc w' lc' :
  restores rec ->
  length (w_path w) = length (w_parents w) -> prefixes w ->
  path (l_state lc) = w_path w ->
  descend imm rec w lc = Ok (w', lc') ->
  w_path w' = w_path w /\ w_parents w' = w_parents w /\ grows shaped w w'.
Proof.
  intros Hrec Hlen Hpre Hlc H. unfold descend in H.
  destruct (isPureObj _ && _).
  - bind_inv H as [w1 lc1] Hk. injection H as <- <-.
    set (s2 := updateState (w_heap w) (w_parents w ++ [l_state lc]) (l_state lc))
      in *.
    assert (path s2 = w_path w) as Hs2.
    { unfold s2. destruct (updateState_fields (w_heap w)
        (w_parents w ++ [l_state lc]) (l_state lc)) as (_&_&->&_). done. }
    eapply (each_key_shaped imm rec _ _ (w_parents w) (w_path w)) in Hk
      as [(Hpath1 & (top & Hps1 & _) & _) Hg]; [| done | done | | ].
    + simpl. rewrite Hps1, removelast_last.
      split; [done|]. split; [done|].
      destruct Hg as (vs & E & F). exists vs. by split.
    + intros i p Hi. by apply Hpre.
    + split; [done|]. split; [by exists s2 | done].
  - injection H as <- <-. split; [done|]. split; [done | by apply grows_refl].
Qed.

Lemma visit_shaped cb imm (rec : wstate A -> val -> result (wstate A * state)) :
  restores rec -> restores (visit cb imm rec).
Proof.
  intros Hrec w nd_ w' s Hlen Hpre H.
  destruct (w_alive w) eqn:Ha.
  - rewrite visit_alive in H by done.
    bind_inv H as [w1 lc1] Hcall.
    apply call_callback_frame in Hcall. simpl in Hcall.
    destruct Hcall as (Hp1 & Hps1 & Hv1 & _ & Hpl1 & _).
    assert (grows shaped w w1) as G1.
    { exists [(w_parents w, entry_state imm w nd_)]. split; [done|].
      apply Forall_singleton. by apply entry_state_shaped. }
    destruct (negb (keepGoing lc1)).
    + injection H as <- <-. by repeat split.
    + bind_inv H as [w2 lc2] Hd. bind_inv H as [w3 lc3] Haf.
      injection H as <- <-.
      apply descend_shaped in Hd as (Hp2 & Hps2 & G2); [| done | | | ].
      * apply run_hook_frame in Haf. destruct Haf as (Hp3 & Hps3 & Hv3 & _).
        split; [congruence|]. split; [congruence|].
        eapply grows_trans; [apply G1|].
        eapply grows_trans; [apply G2 | by apply grows_refl].
      * congruence.
      * intros i p Hi. rewrite Hp1. apply Hpre. by rewrite <- Hps1.
      * rewrite Hpl1, Hp1.
        by destruct (entry_state_fields imm w nd_) as (_&_&->&_).
  - rewrite visit_stopped in H by done.
    destruct (if imm then _ else _) as [h nd]. injection H as <- <-.
    split; [done|]. split; [done | by apply grows_refl].
Qed.

Lemma walker_shaped cb imm fuel : restores (walker fuel cb imm).
Proof.
  induction fuel as [|fuel IH]; [by intros w x w' s _ _ H|].
  cbn [walker]. by apply visit_shaped.
Qed.

(** X7.  The states of a walk keep their shape, whatever the callback and
    the mode.  For every run of the callback, on the state [s] below the
    ancestors [anc]: the level of [s] and the length of its path are the
    number of ancestors, [s] is the root exactly when there is none, its
    parent is the last ancestor, its key is the last key of its path, and
    the path of the [i]-th ancestor is the first [i] keys of the path of
    [s].  When the walk returns, the walk's path and ancestor stack are
    empty again. *)
Theorem walk_states_shaped cb (immutable : bool) (fuel : nat) (h : heap)
  (a : A) (root : val) (w : wstate A) (r : val) :
  walk fuel h a root cb immutable = Ok (w, r) ->
  w_path w = [] /\ w_parents w = []
  /\ forall anc s,
       (anc, s) ∈ w_visits w ->
       level s = length anc
       /\ length (path s) = length anc
       /\ isRoot s = bool_decide (anc = [])
       /\ parent s = (match anc with [] => None | _ => Some (pred (length anc)) end)
       /\ key s = last (path s)
       /\ forall i p, anc !! i = Some p -> path p = take i (path s).
Proof.
  unfold walk. intros H. bind_inv H as [w1 s1] Hw. injection H as <- <-.
  apply walker_shaped in Hw as (Hp & Hps & (vs & E & F)); [| done |].
  - split; [done|]. split; [done|]. intros anc s Hin.
    simpl in E. rewrite E in Hin. rewrite Forall_forall in F.
    apply (F _ Hin).
  - intros i p Hi. simpl in Hi. by rewrite lookup_nil in Hi.
Qed.

End Shape.

(** The walk of [{a: {b: 1}}] that adds 100 to the numbers. *)
Lemma walk_states_shaped_witness :
  exists w r,
    walk 3 Examples.nested_heap tt (VRef 0) Examples.add100 true = Ok (w, r)
    /\ w_path w = [] /\ w_parents w = []
    /\ forall anc s,
         (anc, s) ∈ w_visits w ->
         level s = length anc
         /\ length (path s) = length anc
         /\ isRoot s = bool_decide (anc = [])
         /\ parent s = (match anc with [] => None | _ => Some (pred (length anc)) end)
         /\ key s = last (path s)
         /\ forall i p, anc !! i = Some p -> path p = take i (path s).
Proof.
  eexists _, _. split; [vm_compute; reflexivity|].
  eapply (walk_states_shaped Examples.add100 true 3 Examples.nested_heap tt
            (VRef 0)).
  vm_compute. reflexivity.
Defined.

(** ** Walks in place that only look *)

Section OnlyLooking.

Import Traverse.

Lemma assoc_elem_of (k : pkey) (ps : list (pkey * val)) :
  k ∈ ps.*1 -> exists y, assoc k ps = Some y.
Proof.
  intros Hin. destruct (assoc k ps) as [y|] eqn:E; [by eexists|].
  by apply assoc_None_notin in E.
Qed.

Lemma looked_keys_placed (h : heap)
  (rec : list pkey -> list state -> val -> option (visits * state))
  pth ps l ks vs :
  (forall pth x vs s, rec pth ps x = Some (vs, s) ->
                      Forall (placed h pth x) vs) ->
  ks ⊆ objectKeys h (VRef l) ->
  looked_keys h rec pth ps (VRef l) ks = Some vs ->
  Forall (placed h pth (VRef l)) vs.
Proof.
  intros Hrec. revert vs. induction ks as [|k ks IH]; intros vs Hks H.
  - injection H as <-. constructor.
  - cbn [looked_keys] in H.
    destruct (rec (pth ++ [k]) ps (own_val h (VRef l) k)) as [[vs1 s1]|] eqn:E1;
      [|discriminate].
    simpl in H.
    destruct (looked_keys h rec pth ps (VRef l) ks) as [vs2|] eqn:E2;
      [|discriminate].
    injection H as <-. apply Forall_app. split.
    + apply Hrec in E1.
      destruct (assoc_elem_of k (props (deref h l))) as [y Hy].
      { apply Hks. by left. }
      eapply Forall_impl; [exact E1|].
      intros x (rel & Hp & Hr). exists (k :: rel). split.
      * by rewrite Hp, <- app_assoc.
      * cbn [resolve]. rewrite Hy. simpl in Hr. by rewrite Hy in Hr.
    + apply IH; [|done]. intros k' Hk'. apply Hks. by right.
Qed.

Lemma looked_placed (h : heap) fuel : forall pth ps v vs s,
  looked h fuel pth ps v = Some (vs, s) -> Forall (placed h pth v) vs.
Proof.
  induction fuel as [|fuel IH]; intros pth ps v vs s H; [discriminate|].
  rewrite looked_unfold in H. cbn zeta in H.
  assert (placed h pth v (ps, updateState h ps (new_state v v pth ps))) as H0.
  { exists []. simpl. rewrite app_nil_r.
    by destruct (updateState_fields h ps (new_state v v pth ps))
      as (->&_&->&_). }
  destruct (isPureObj v && bool_decide (v ∉ node_ <$> ps)) eqn:E.
  - destruct v as [| | | | |l]; try discriminate.
    destruct (looked_keys _ _ _ _ _ _) as [vs'|] eqn:Ek; [|discriminate].
    injection H as <- <-. constructor; [done|].
    eapply looked_keys_placed; [|done|exact Ek].
    intros pth' x vs1 s1. apply IH.
  - injection H as <- <-. by repeat constructor.
Qed.

(** X8.  [paths] and [nodes] fit [get] and [has]: with any fuel above the
    size of the heap both return, and for every index the path that [paths]
    lists there leads [get] from the root to the node that [nodes] lists
    there, and [has] holds of it. *)
Theorem paths_lead_to_nodes (h : heap) (this : t) (fuel : nat) :
  length h < fuel ->
  exists w1 w2 ps ns,
    paths fuel h this = Ok (w1, this, ps)
    /\ nodes fuel h this = Ok (w2, this, ns)
    /\ forall i p,
         ps !! i = Some p ->
         exists n, ns !! i = Some n
                   /\ get h this p = Ok n /\ has h this p = Ok true.
Proof.
  intros Hlt.
  destruct (looked_from_root h fuel (value this) Hlt) as (vs & s & E & _).
  destruct (looked_head h _ _ _ _ _ _ E) as [Hs _].
  pose proof (looked_placed h _ _ _ _ _ _ E) as Hpl.
  assert (fold_left (user_step paths_cb h) vs []
          = (fun x => path x.2) <$> vs) as Hp.
  { unfold user_step, paths_cb. cbn [o_user].
    by rewrite (fold_left_snoc (fun x : list state * state => path x.2)). }
  assert (fold_left (user_step nodes_cb h) vs []
          = (fun x => node x.2) <$> vs) as Hn.
  { unfold user_step, nodes_cb. cbn [o_user].
    by rewrite (fold_left_snoc (fun x : list state * state => node x.2)). }
  eexists _, _, ((fun x => path x.2) <$> vs), ((fun x => node x.2) <$> vs).
  unfold paths, nodes.
  rewrite (forEach_looks paths_cb) by apply paths_cb_looks.
  rewrite (forEach_looks nodes_cb) by apply nodes_cb_looks.
  rewrite E. cbn [mbind result_bind w_user w_heap]. rewrite Hs, Hp, Hn.
  destruct this as [root]. cbn [value] in *.
  split; [reflexivity|]. split; [reflexivity|].
  intros i p Hi. rewrite list_lookup_fmap in Hi.
  destruct (vs !! i) as [x|] eqn:Ex; [|discriminate]. injection Hi as <-.
  exists (node x.2). rewrite list_lookup_fmap, Ex. split; [done|].
  rewrite Forall_forall in Hpl.
  destruct (Hpl x) as (rel & Hrel & Hres).
  { by eapply list_elem_of_lookup_2. }
  simpl in Hrel. rewrite Hrel. unfold get, has. cbn [value].
  by rewrite get_from_resolve, has_from_resolve, Hres.
Qed.

(** [paths] and [nodes] on [{a: {b: 1}}]. *)
Lemma paths_lead_to_nodes_witness :
  exists w1 w2 ps ns,
    paths 3 Examples.nested_heap (Make (VRef 0)) = Ok (w1, Make (VRef 0), ps)
    /\ nodes 3 Examples.nested_heap (Make (VRef 0)) = Ok (w2, Make (VRef 0), ns)
    /\ forall i p,
         ps !! i = Some p ->
         exists n, ns !! i = Some n
                   /\ get Examples.nested_heap (Make (VRef 0)) p = Ok n
                   /\ has Examples.nested_heap (Make (VRef 0)) p = Ok true.
Proof.
  apply (paths_lead_to_nodes Examples.nested_heap (Make (VRef 0)) 3).
  simpl. lia.
Defined.

(** X9.  [forEach] with a callback that only looks, whatever it does to its
    closure: with any fuel above the size of the heap it returns the root
    it was given and keeps it as [this.value], the heap is as it was and
    the walk is still alive; the closure is the fold of the callback over
    the visits in order; and the visits do not depend on the callback, they
    are those whose paths [paths] lists, as many as [count_reached]
    counts. *)
Theorem forEach_only_looking {A} (cb : handler A) (h : heap) (this : t)
  (a : A) (fuel : nat) :
  looks_only cb ->
  length h < fuel ->
  exists w w',
    forEach fuel h this a cb = Ok (w, this, value this)
    /\ w_heap w = h /\ w_alive w = true
    /\ w_user w = fold_left (user_step cb h) (w_visits w) a
    /\ length (w_visits w) = count_reached fuel h [] (value this)
    /\ paths fuel h this = Ok (w', this, (fun x => path x.2) <$> w_visits w).
Proof.
  intros Hcb Hlt.
  destruct (looked_from_root h fuel (value this) Hlt) as (vs & s & E & _).
  destruct (looked_head h _ _ _ _ _ _ E) as [Hs _].
  assert (fold_left (user_step paths_cb h) vs []
          = (fun x => path x.2) <$> vs) as Hp.
  { unfold user_step, paths_cb. cbn [o_user].
    by rewrite (fold_left_snoc (fun x : list state * state => path x.2)). }
  eexists _, _. unfold paths.
  rewrite (forEach_looks cb) by done.
  rewrite (forEach_looks paths_cb) by apply paths_cb_looks.
  rewrite E. cbn [mbind result_bind w_user w_heap w_alive w_visits].
  rewrite Hs, Hp. destruct this as [root]. cbn [value] in *.
  split; [reflexivity|]. split; [done|]. split; [done|]. split; [done|].
  split; [|reflexivity]. by apply looked_count in E.
Qed.

(** Summing the numbers of [{a: {b: 1}}] in the closure. *)
Lemma forEach_only_looking_witness :
  exists w w',
    forEach 3 Examples.nested_heap (Make (VRef 0)) (VNum 0)
            (passive (fun acc vw => Examples.add_numbers acc (node (v_this vw))))
    = Ok (w, Make (VRef 0), VRef 0)
    /\ w_heap w = Examples.nested_heap /\ w_alive w = true
    /\ w_user w
       = fold_left
           (user_step
              (passive (fun acc vw => Examples.add_numbers acc (node (v_this vw))))
              Examples.nested_heap)
           (w_visits w) (VNum 0)
    /\ length (w_visits w) = count_reached 3 Examples.nested_heap [] (VRef 0)
    /\ paths 3 Examples.nested_heap (Make (VRef 0))
       = Ok (w', Make (VRef 0), (fun x => path x.2) <$> w_visits w).
Proof.
  apply (forEach_only_looking
           (passive (fun acc vw => Examples.add_numbers acc (node (v_this vw))))
           Examples.nested_heap (Make (VRef 0)) (VNum 0) 3).
  - by intros a vw arg.
  - simpl. lia.
Defined.

(** X10.  [forEachs] drops what the callback returns: with a callback that
    creates nothing and calls no state operation, whatever it returns, and
    any fuel above the size of the heap, [forEachs] returns the root it was
    given, the heap is as it was, the callback has run once on every node
    that [count_reached] counts, and its closure is its fold over the
    visits. *)
Theorem forEachs_drops_results {A} (cb : handler A) (h : heap) (this : t)
  (a : A) (fuel : nat) :
  (forall a vw arg, o_new (cb a vw arg) = [] /\ o_acts (cb a vw arg) = []) ->
  length h < fuel ->
  exists w,
    forEachs fuel h this a cb = Ok (w, this, value this)
    /\ w_heap w = h
    /\ w_user w = fold_left (user_step cb h) (w_visits w) a
    /\ length (w_visits w) = count_reached fuel h [] (value this).
Proof.
  intros Hcb Hlt.
  destruct (looked_from_root h fuel (value this) Hlt) as (vs & s & E & _).
  destruct (looked_head h _ _ _ _ _ _ E) as [Hs _].
  eexists. unfold forEachs.
  rewrite forEach_looks.
  - rewrite E, Hs. destruct this as [root]. cbn [value w_heap w_user w_visits].
    split; [reflexivity|]. split; [done|]. split; [done|].
    by apply looked_count in E.
  - intros a' vw arg. destruct (Hcb a' vw arg) as [Hn Ha]. by repeat split.
Qed.

(** The callback that returns the node it is called on. *)
Lemma forEachs_drops_results_witness :
  exists w,
    forEachs 3 Examples.nested_heap (Make (VRef 0)) tt MoreExamples.echo
    = Ok (w, Make (VRef 0), VRef 0)
    /\ w_heap w = Examples.nested_heap
    /\ w_user w
       = fold_left (user_step MoreExamples.echo Examples.nested_heap)
                   (w_visits w) tt
    /\ length (w_visits w) = count_reached 3 Examples.nested_heap [] (VRef 0).
Proof.
  apply (forEachs_drops_results MoreExamples.echo Examples.nested_heap
           (Make (VRef 0)) tt 3).
  - by intros a vw arg.
  - simpl. lia.
Defined.

End OnlyLooking.

(** ** A result given at the root *)

(** X11.  What the callback returns at the root replaces the result: when
    there it calls no state operation and returns a defined scalar, the
    walk returns that scalar, in either mode and with any fuel; the
    callback has run once, on the root, and the heap is what the callback
    saw, with the objects it created. *)
Theorem scalar_returned_at_root {A} (cb : handler A) (immutable : bool)
  (fuel : nat) (h : heap) (a : A) (root x : val) :
  o_acts (entry_outcome cb immutable (init_wstate h a) root) = [] ->
  o_ret (entry_outcome cb immutable (init_wstate h a) root) = x ->
  x <> VUndef ->
  isPureObj x = false ->
  exists w,
    walk (S fuel) h a root cb immutable = Ok (w, x)
    /\ w_visits w = [([], entry_state immutable (init_wstate h a) root)]
    /\ w_heap w
       = v_heap (entry_view immutable (init_wstate h a) root)
         ++ o_new (entry_outcome cb immutable (init_wstate h a) root).
Proof.
  intros Hacts Hret Hx Hscalar. unfold walk. cbn [walker].
  change (WState h [] [] true a [] None) with (init_wstate h a).
  rewrite visit_alive by reflexivity. rewrite call_callback_unfold.
  cbv zeta. rewrite Hacts, Hret. cbn [exec_actions mbind result_bind].
  unfold strict_eq. rewrite bool_decide_eq_false_2 by done.
  cbn [negb exec_action l_state].
  destruct (entry_state_fields immutable (init_wstate h a) root)
    as (_ & _ & _ & _ & Hroot).
  rewrite Hroot. cbn [init_wstate w_path length bool_decide decide_rel negb].
  rewrite bool_decide_eq_true_2 by done.
  cbn [negb mbind result_bind stop_here with_state l_mods keepGoing before
       run_hook l_state].
  unfold descend. cbn [l_state with_state set_node node]. rewrite Hscalar.
  cbn [andb mbind result_bind l_mods with_state after run_hook l_state
       set_node node].
  eexists. split; [reflexivity|]. split; reflexivity.
Qed.

(** [function () { if (this.isRoot) return 7 }] on [{a: {b: 1}}], with
    [map]. *)
Lemma scalar_returned_at_root_witness :
  exists w,
    walk 1 Examples.nested_heap tt (VRef 0) MoreExamples.seven_at_root true
    = Ok (w, VNum 7)
    /\ w_visits w
       = [([], entry_state true (init_wstate Examples.nested_heap tt) (VRef 0))]
    /\ w_heap w
       = v_heap (entry_view true (init_wstate Examples.nested_heap tt) (VRef 0))
         ++ o_new (entry_outcome MoreExamples.seven_at_root true
                     (init_wstate Examples.nested_heap tt) (VRef 0)).
Proof.
  apply (scalar_returned_at_root MoreExamples.seven_at_root true 0
           Examples.nested_heap tt (VRef 0) (VNum 7)); done.
Defined.

(** ** [clone] on a heap without dangling references *)

Section CloneFrame.

Import Traverse.

(** [clone] writes into the objects it has made and into no other. *)
Lemma clone_keys_frame (rec : cstate -> val -> result (cstate * val))
  src (d : loc) ks :
  (forall c x c' y,
     rec c x = Ok (c', y) ->
     length (c_heap c) <= length (c_heap c')
     /\ forall l, l < length (c_heap c) -> c_heap c' !! l = c_heap c !! l) ->
  forall c c',
    clone_keys rec src (VRef d) ks c = Ok c' ->
    length (c_heap c) <= length (c_heap c')
    /\ forall l, l < length (c_heap c) -> l <> d ->
                 c_heap c' !! l = c_heap c !! l.
Proof.
  intros Hrec. induction ks as [|k ks IH]; intros c c' H.
  - by injection H as <-.
  - cbn [clone_keys] in H. bind_inv H as x Hget.
    bind_inv H as [c1 y] Hc. bind_inv H as h Hset.
    apply Hrec in Hc as [Hlen1 Hfr1]. injection Hset as <-.
    apply IH in H as [Hlen2 Hfr2]. cbn [c_heap] in *.
    rewrite length_insert in Hlen2. split; [lia|].
    intros l Hl Hne. rewrite Hfr2.
    + rewrite list_lookup_insert_ne by done. by apply Hfr1.
    + rewrite length_insert. lia.
    + done.
Qed.

Lemma clone_from_frame fuel : forall c src c' r,
  clone_from fuel c src = Ok (c', r) ->
  length (c_heap c) <= length (c_heap c')
  /\ forall l, l < length (c_heap c) -> c_heap c' !! l = c_heap c !! l.
Proof.
  induction fuel as [|fuel IH]; intros c src c' r H; [discriminate|].
  cbn [clone_from] in H. unfold clone_body in H.
  destruct (list_find _ _) as [[i p]|]; [by injection H as <- <-|].
  destruct src as [| | | | |l]; try by injection H as <- <-.
  cbn [isPureObj copy alloc] in H.
  bind_inv H as c1 Hk. injection H as <- <-. cbn [c_heap].
  eapply clone_keys_frame in Hk as [Hlen Hfr]; [|exact IH].
  cbn [c_heap] in *. rewrite length_app in *. simpl in *. split; [lia|].
  intros l0 Hl0. rewrite Hfr by lia. by rewrite lookup_app_l.
Qed.

End CloneFrame.

Lemma assoc_Some_in (k : pkey) (v : val) (ps : list (pkey * val)) :
  assoc k ps = Some v -> (k, v) ∈ ps.
Proof.
  induction ps as [|[k' v'] ps IH]; cbn [assoc]; [discriminate|].
  destruct (decide (k = k')) as [->|Hne].
  - intros [= ->]. by left.
  - intros H. right. by apply IH.
Qed.

Lemma closed_lookup (h : heap) (l : loc) (o : obj) (k : pkey) (v : val) :
  closed h = true -> h !! l = Some o -> (k, v) ∈ props o ->
  in_heap (length h) v = true.
Proof.
  intros Hc Hl Hin. apply Is_true_true in Hc. unfold closed in Hc.
  rewrite forallb_True, Forall_lookup in Hc. specialize (Hc l o Hl).
  cbv beta in Hc. apply andb_prop_elim in Hc as [Hc _].
  rewrite forallb_True, Forall_forall in Hc.
  apply Is_true_true. apply (Hc (k, v) Hin).
Qed.

Lemma closed_message (h : heap) (l : loc) (o : obj) (msg : val) :
  closed h = true -> h !! l = Some o -> kind o = KError msg ->
  in_heap (length h) msg = true.
Proof.
  intros Hc Hl Hk. apply Is_true_true in Hc. unfold closed in Hc.
  rewrite forallb_True, Forall_lookup in Hc. specialize (Hc l o Hl).
  cbv beta in Hc. apply andb_prop_elim in Hc as [_ Hc].
  rewrite Hk in Hc. by apply Is_true_true.
Qed.

Lemma closed_child (h : heap) (l : loc) (k : pkey) :
  closed h = true -> in_heap (length h) (own_val h (VRef l) k) = true.
Proof.
  intros Hc. cbn [own_val]. unfold deref.
  destruct (h !! l) as [o|] eqn:El; [|done]. cbn [default from_option id].
  destruct (assoc k (props o)) as [v|] eqn:E; [|done].
  apply assoc_Some_in in E. by eapply closed_lookup.
Qed.

Lemma extends_length (h0 h : heap) : extends h0 h -> length h0 <= length h.
Proof.
  intros He. destruct (decide (length h0 <= length h)) as [|Hn]; [done|].
  assert (length h < length h0) as Hlt by lia.
  specialize (He _ Hlt). rewrite lookup_ge_None_2 in He by lia.
  symmetry in He. apply lookup_ge_None in He. lia.
Qed.

Lemma extends_own_val (h0 h : heap) (l : loc) (k : pkey) :
  extends h0 h -> l < length h0 ->
  own_val h (VRef l) k = own_val h0 (VRef l) k
  /\ objectKeys h (VRef l) = objectKeys h0 (VRef l).
Proof.
  intros He Hl. cbn [own_val objectKeys]. unfold deref. by rewrite He.
Qed.

Section CloneTotal.

Import Traverse.

Variable h0 : heap.
Hypothesis Hclosed : closed h0 = true.

Lemma clone_keys_total (rec : cstate -> val -> result (cstate * val))
  (P : list val) (l d : loc) ks :
  l < length h0 -> length h0 <= d ->
  (forall c x, extends h0 (c_heap c) -> in_heap (length h0) x = true ->
               c_parents c = P -> exists c' y, rec c x = Ok (c', y)) ->
  (forall c x c' y,
     rec c x = Ok (c', y) ->
     length (c_heap c) <= length (c_heap c')
     /\ forall l, l < length (c_heap c) -> c_heap c' !! l = c_heap c !! l) ->
  (forall c x c' y, rec c x = Ok (c', y) ->
                    c_parents c' = c_parents c /\ c_nodes c' = c_nodes c) ->
  forall c, extends h0 (c_heap c) -> c_parents c = P ->
            exists c', clone_keys rec (VRef l) (VRef d) ks c = Ok c'.
Proof.
  intros Hl Hd Htot Hfr Hlists.
  induction ks as [|k ks IH]; intros c He HP; [by eexists|].
  cbn [clone_keys get_prop mbind result_bind].
  destruct (Htot c (own_val (c_heap c) (VRef l) k)) as (c1 & y & E);
    [done | | done |].
  { destruct (extends_own_val h0 (c_heap c) l k He Hl) as [-> _].
    by apply closed_child. }
  rewrite E. cbn [mbind result_bind set_prop].
  destruct (Hfr _ _ _ _ E) as [Hlen Hsame].
  destruct (Hlists _ _ _ _ E) as [Hp _].
  apply IH; cbn [c_heap c_parents]; [|congruence].
  intros l0 Hl0. rewrite list_lookup_insert_ne by lia.
  rewrite Hsame; [by apply He|].
  apply extends_length in He. lia.
Qed.

Lemma clone_from_total fuel : forall c src,
  extends h0 (c_heap c) -> in_heap (length h0) src = true ->
  NoDup (c_parents c) ->
  Forall (fun x => exists i, x = VRef i /\ i < length h0) (c_parents c) ->
  length h0 < fuel + length (c_parents c) ->
  exists c' r, clone_from fuel c src = Ok (c', r).
Proof.
  induction fuel as [|fuel IH]; intros c src He Hsrc Hnd Hin Hlt.
  - pose proof (distinct_refs_bound _ _ Hnd Hin). lia.
  - cbn [clone_from]. unfold clone_body.
    destruct (list_find _ _) as [[i p]|] eqn:Ef; [by eexists _, _|].
    destruct src as [| | | | |l]; try by eexists _, _.
    cbn [isPureObj copy alloc in_heap] in *.
    apply bool_decide_eq_true in Hsrc.
    apply list_find_None in Ef.
    pose proof (extends_length _ _ He) as Hlen.
    match goal with
    | |- context [clone_keys ?rec ?s ?d ?ks ?c0] =>
        assert (exists c', clone_keys rec s d ks c0 = Ok c') as [c1 E]
    end.
    { apply (clone_keys_total _ (c_parents c ++ [VRef l])); try done.
      - intros c2 x He2 Hx HP. apply IH; try done; rewrite HP.
        + apply NoDup_app. split; [done|]. split; [|apply NoDup_singleton].
          intros y Hy Hy'. apply list_elem_of_singleton in Hy'. subst y.
          rewrite Forall_forall in Ef. by apply (Ef _ Hy).
        + apply Forall_app. split; [done|]. apply Forall_singleton. eauto.
        + rewrite length_app. simpl. lia.
      - apply clone_from_frame.
      - apply clone_from_lists.
      - cbn [c_heap]. intros l0 Hl0. rewrite lookup_app_l by lia.
        by apply He. }
    rewrite E. by eexists _, _.
Qed.

End CloneTotal.

(** ** Images of values in a deep copy *)

Section Images.

Variable g : val -> val.
Variable h0 : heap.

Lemma image_mono (orig orig' : list loc) (v v' : val) :
  orig `prefix_of` orig' ->
  image g (length h0) orig v v' -> image g (length h0) orig' v v'.
Proof.
  intros Hp. destruct v as [| | | | |m]; try done.
  intros (j & -> & Hj). exists j. split; [done|].
  by eapply prefix_lookup_Some.
Qed.

Lemma mirrors_mono (orig orig' : list loc) (h h' : heap) (i : nat) :
  orig `prefix_of` orig' ->
  deref h' (length h0 + i) = deref h (length h0 + i) ->
  mirrors g h0 orig h i -> mirrors g h0 orig' h' i.
Proof.
  intros Hp Hd (m & Hm & Hall). exists m.
  split; [by eapply prefix_lookup_Some|].
  intros k v Hk. destruct (Hall k v Hk) as (v' & Hv' & Hi).
  exists v'. rewrite Hd. split; [done | by eapply image_mono].
Qed.

Lemma mirrors_resolve (orig : list loc) (h' : heap) (ps : list pkey) :
  (forall i, i < length orig -> mirrors g h0 orig h' i) ->
  forall v v' x,
    image g (length h0) orig v v' ->
    resolve h0 v ps = Some x ->
    exists x', resolve h' v' ps = Some x' /\ image g (length h0) orig x x'.
Proof.
  intros Hall. induction ps as [|k ps IH]; intros v v' x Hi H.
  - injection H as <-. by exists v'.
  - cbn [resolve] in H. destruct v as [| | | | |m]; try discriminate.
    destruct (assoc k (props (deref h0 m))) as [y|] eqn:Ey; [|discriminate].
    destruct Hi as (j & -> & Hj).
    destruct (Hall j) as (m' & Hm' & Hkeys).
    { by eapply lookup_lt_Some. }
    assert (m' = m) as -> by congruence.
    destruct (Hkeys k y Ey) as (y' & Hy' & Hiy).
    cbn [resolve]. rewrite Hy'. by eapply IH.
Qed.

End Images.

(** ** [clone] makes a deep copy *)

Section CloneMirror.

Import Traverse.

Variable h0 : heap.
Hypothesis Hclosed : closed h0 = true.

Lemma paired_mono (orig orig' : list loc) (ps ns : list val) :
  orig `prefix_of` orig' ->
  Forall2 (fun p nd => exists m j, p = VRef m /\ nd = VRef (length h0 + j)
                                   /\ orig !! j = Some m) ps ns ->
  Forall2 (fun p nd => exists m j, p = VRef m /\ nd = VRef (length h0 + j)
                                   /\ orig' !! j = Some m) ps ns.
Proof.
  intros Hp H. eapply Forall2_impl; [exact H|].
  intros p nd (m & j & -> & -> & Hj).
  exists m, j. repeat split. by eapply prefix_lookup_Some.
Qed.

Lemma clone_keys_mirror (rec : cstate -> val -> result (cstate * val))
  (l d : loc) :
  l < length h0 -> length h0 <= d ->
  (forall c x orig c' y,
     cloning h0 orig c -> in_heap (length h0) x = true ->
     rec c x = Ok (c', y) ->
     exists orig', orig `prefix_of` orig' /\ cloning h0 orig' c'
                   /\ image id (length h0) orig' x y) ->
  (forall c x c' y,
     rec c x = Ok (c', y) ->
     length (c_heap c) <= length (c_heap c')
     /\ forall l, l < length (c_heap c) -> c_heap c' !! l = c_heap c !! l) ->
  (forall c x c' y, rec c x = Ok (c', y) ->
                    c_parents c' = c_parents c /\ c_nodes c' = c_nodes c) ->
  forall ks (D : pkey -> Prop) c orig c',
    cloning h0 orig c ->
    VRef d ∈ c_nodes c -> d < length (c_heap c) ->
    (forall k, D k ->
               exists v', assoc k (props (deref (c_heap c) d)) = Some v'
                          /\ image id (length h0) orig (own_val h0 (VRef l) k) v') ->
    clone_keys rec (VRef l) (VRef d) ks c = Ok c' ->
    exists orig',
      orig `prefix_of` orig' /\ cloning h0 orig' c'
      /\ forall k, D k \/ k ∈ ks ->
                   exists v', assoc k (props (deref (c_heap c') d)) = Some v'
                              /\ image id (length h0) orig' (own_val h0 (VRef l) k) v'.
Proof.
  intros Hl Hd Hspec Hfr Hlists.
  induction ks as [|key ks IH]; intros D c orig c' Hc Hin Hdlt HD H.
  - injection H as <-. exists orig. split; [done|]. split; [done|].
    intros k [Hk|Hk]; [by apply HD | by apply elem_of_nil in Hk].
  - cbn [clone_keys get_prop mbind result_bind] in H.
    bind_inv H as [c1 y] Hrec. cbn [set_prop mbind result_bind] in H.
    pose proof Hc as (He & Hlen & Hpair & Hdone).
    destruct (extends_own_val h0 (c_heap c) l key He Hl) as [Hov _].
    rewrite Hov in Hrec.
    destruct (Hspec _ _ _ _ _ Hc (closed_child h0 l key Hclosed) Hrec)
      as (orig1 & Hp1 & Hc1 & Hi1).
    destruct (Hfr _ _ _ _ Hrec) as [Hlen1 Hsame1].
    destruct (Hlists _ _ _ _ Hrec) as [Hps1 Hns1].
    destruct Hc1 as (He1 & Hlen1' & Hpair1 & Hdone1).
    assert (deref (c_heap c1) d = deref (c_heap c) d) as Hdd.
    { unfold deref. by rewrite Hsame1. }
    apply (IH (fun k => D k \/ k = key)) with (orig := orig1) in H.
    + destruct H as (orig' & Hp' & Hc' & Hall). exists orig'.
      split; [by etrans|]. split; [done|].
      intros k [Hk|Hk]; apply Hall; [by left; left|].
      apply elem_of_cons in Hk as [->|Hk]; [left; by right | by right].
    + unfold cloning, extends. cbn [c_heap c_parents c_nodes].
      split; [|split; [|split]].
      * intros l0 Hl0. rewrite list_lookup_insert_ne by lia. by apply He1.
      * by rewrite length_insert.
      * done.
      * intros i Hi Hni.
        apply (mirrors_mono id h0 orig1 orig1 (c_heap c1)); [done | | by apply Hdone1].
        apply deref_insert_ne. intros ->. apply Hni. by rewrite Hns1.
    + cbn [c_nodes]. by rewrite Hns1.
    + cbn [c_heap]. rewrite length_insert. lia.
    + cbn [c_heap]. intros k Hk. rewrite deref_insert_eq by lia.
      cbn [set_own props].
      destruct (decide (k = key)) as [->|Hne].
      * exists y. by rewrite assoc_set_same.
      * destruct Hk as [Hk|Hk]; [|done].
        rewrite assoc_set_other by done. rewrite Hdd.
        destruct (HD k Hk) as (v' & Hv' & Hi). exists v'.
        split; [done | by eapply image_mono].
Qed.

Lemma clone_from_mirror fuel : forall c src orig c' r,
  cloning h0 orig c -> in_heap (length h0) src = true ->
  clone_from fuel c src = Ok (c', r) ->
  exists orig', orig `prefix_of` orig' /\ cloning h0 orig' c'
                /\ image id (length h0) orig' src r.
Proof.
  induction fuel as [|fuel IH]; intros c src orig c' r Hc Hsrc H;
    [discriminate|].
  cbn [clone_from] in H. unfold clone_body in H.
  pose proof Hc as (He & Hlen & Hpair & Hdone).
  destruct (list_find _ _) as [[i p]|] eqn:Ef.
  { injection H as <- <-. exists orig. split; [done|]. split; [done|].
    apply list_find_Some in Ef as (Hi & -> & _).
    destruct (Forall2_lookup_l _ _ _ _ _ Hpair Hi)
      as (nd & -> & m & j & -> & -> & Hj).
    exists j. by split. }
  destruct src as [| | | | |l];
    try (injection H as <- <-; exists orig; by repeat split).
  cbn [isPureObj copy alloc in_heap] in *.
  apply bool_decide_eq_true in Hsrc.
  pose proof (extends_length _ _ He) as Hn.
  bind_inv H as c2 Hk. injection H as <- <-.
  destruct (clone_keys_lists _ _ _ _ (clone_from_lists fuel) _ _ Hk)
    as [Hps2 Hns2].
  cbn [c_parents c_nodes] in Hps2, Hns2.
  assert (cloning h0 (orig ++ [l])
            (CState (c_heap c ++ [fold_left
               (fun d0 k => set_own d0 k
                  (default VUndef (assoc k (props (deref (c_heap c) l)))))
               (objectKeys (c_heap c) (VRef l)) (copy_shell (deref (c_heap c) l))])
               (c_parents c ++ [VRef l]) (c_nodes c ++ [VRef (length (c_heap c))])))
    as Hc1.
  { unfold cloning, extends. cbn [c_heap c_parents c_nodes].
    split; [|split; [|split]].
    - intros l0 Hl0. rewrite lookup_app_l by lia. by apply He.
    - rewrite !length_app. simpl. lia.
    - apply Forall2_app.
      + eapply paired_mono; [|exact Hpair]. by apply prefix_app_r.
      + constructor; [|constructor]. exists l, (length orig).
        split; [done|]. split; [by rewrite Hlen|].
        by rewrite list_lookup_middle.
    - intros i Hi Hni. rewrite length_app in Hi. simpl in Hi.
      rewrite not_elem_of_app in Hni. destruct Hni as [Hni Hnd].
      assert (i <> length orig) as Hne.
      { intros ->. apply Hnd. rewrite Hlen. by left. }
      apply (mirrors_mono id h0 orig _ (c_heap c)); [by apply prefix_app_r | |].
      + apply deref_app_l. lia.
      + apply Hdone; [lia | done]. }
  eapply (clone_keys_mirror _ l (length (c_heap c)) Hsrc)
    with (D := fun _ => False) in Hk
    as (orig' & Hp' & Hc' & Hall); [| lia | exact IH
    | apply clone_from_frame | apply clone_from_lists | exact Hc1 | | | ].
  - assert (orig `prefix_of` orig') as Hp.
    { etrans; [|exact Hp']. by apply prefix_app_r. }
    exists orig'. split; [done|].
    assert (orig' !! length orig = Some l) as Horig.
    { eapply prefix_lookup_Some; [|exact Hp']. by rewrite list_lookup_middle. }
    split; [|exists (length orig); split; [by rewrite Hlen | done]].
    destruct Hc' as (He' & Hlen' & Hpair' & Hdone').
    unfold cloning. cbn [c_heap c_parents c_nodes].
    rewrite Hps2, Hns2, !removelast_last.
    split; [done|]. split; [done|].
    split; [by eapply paired_mono|].
    intros i Hi Hni.
    destruct (decide (i = length orig)) as [->|Hne].
    + exists l. split; [done|]. intros k v Hkv.
      destruct (Hall k) as (v' & Hv' & Himg).
      { right. destruct (extends_own_val h0 (c_heap c ++ [fold_left
          (fun d0 k => set_own d0 k
             (default VUndef (assoc k (props (deref (c_heap c) l)))))
          (objectKeys (c_heap c) (VRef l)) (copy_shell (deref (c_heap c) l))])
          l k) as [_ Hks]; [|done|].
        - intros l0 Hl0. rewrite lookup_app_l by lia. by apply He.
        - cbn [c_heap]. rewrite Hks. cbn [objectKeys].
          destruct (decide (k ∈ (props (deref h0 l)).*1)) as [|Hnin]; [done|].
          apply assoc_None_notin in Hnin. congruence. }
      exists v'. rewrite <- Hlen. split; [done|].
      cbn [own_val] in Himg. by rewrite Hkv in Himg.
    + apply Hdone'; [done|]. rewrite Hns2. rewrite not_elem_of_app.
      split; [done|]. rewrite list_elem_of_singleton. intros [= Heq]. lia.
  - cbn [c_nodes]. apply elem_of_app. right. by left.
  - cbn [c_heap]. rewrite length_app. simpl. lia.
  - by intros k [].
Qed.

End CloneMirror.

Section CloneTheorems.

Import Traverse.

(** C8.  [clone] deep-copies, keeping two parallel lists, the originals on
    the way from the root and their copies.  A source that is among the
    originals is not entered again: the copy at the same index is returned
    at once, with nothing copied or changed.  Any other scalar is returned
    as it is, and any other composite yields a new object, made by [copy].
    When a call returns, both lists are what they were when it was
    entered.  On a heap without
    dangling references, cyclic or not, and with any fuel above its size,
    [clone] of a root of the heap returns; every object of the heap is what
    it was, and the result is a deep copy: every path that [has] holds of
    in the original it holds of in the result, and what [get] finds there
    is the same scalar or, where the original has an object, an object that
    was not in the heap.  For [o = {}; o.self = o], [clone] returns a new
    object [o2], and [o2.self] is [o2]; [o] is unchanged. *)
Theorem clone_reuses_copy :
  (forall fuel c src i p,
     list_find (fun q => q = src) (c_parents c) = Some (i, p) ->
     clone_from (S fuel) c src = Ok (c, default VUndef (c_nodes c !! i)))
  /\ (forall fuel c src,
        list_find (fun q => q = src) (c_parents c) = None ->
        isPureObj src = false ->
        clone_from (S fuel) c src = Ok (c, src))
  /\ (forall fuel c l c' r,
        list_find (fun q => q = VRef l) (c_parents c) = None ->
        clone_from fuel c (VRef l) = Ok (c', r) ->
        r = VRef (length (c_heap c)))
  /\ (forall fuel c src c' r,
        clone_from fuel c src = Ok (c', r) ->
        c_parents c' = c_parents c /\ c_nodes c' = c_nodes c)
  /\ (forall h this fuel,
        closed h = true ->
        in_heap (length h) (value this) = true ->
        length h < fuel ->
        exists h' r,
          clone fuel h this = Ok (h', r)
          /\ (forall l, l < length h -> h' !! l = h !! l)
          /\ fresh_for (length h) (value this) r
          /\ forall ps,
               has h this ps = Ok true ->
               has h' (Make r) ps = Ok true
               /\ exists v v',
                    get h this ps = Ok v /\ get h' (Make r) ps = Ok v'
                    /\ fresh_for (length h) v v')
  /\ (forall fuel,
        exists h',
          clone (S (S fuel)) Examples.self_heap (Make (VRef 0))
          = Ok (h', VRef 1)
          /\ get_prop h' (VRef 1) (KName "self") = Ok (VRef 1)
          /\ VRef 1 <> VRef 0
          /\ h' !! 0 = Examples.self_heap !! 0).
Proof.
  split; [|split; [|split; [|split; [|split]]]].
  - intros fuel c src i p H. cbn [clone_from]. unfold clone_body.
    by rewrite H.
  - intros fuel c src Hf Hs. cbn [clone_from]. unfold clone_body.
    by rewrite Hf, Hs.
  - intros [|fuel] c l c' r Hf H; [discriminate|].
    cbn [clone_from] in H. unfold clone_body in H. rewrite Hf in H.
    simpl in H. bind_inv H as c1 Hk. by injection H as _ <-.
  - apply clone_from_lists.
  - intros h this fuel Hc Hroot Hlt. unfold clone.
    destruct (clone_from_total h Hc fuel (CState h [] []) (value this))
      as (c' & r & E); [done | done | constructor | constructor
                        | simpl; lia |].
    rewrite E. cbn [mbind result_bind]. exists (c_heap c'), r.
    split; [done|].
    destruct (clone_from_frame _ _ _ _ _ E) as [_ Hsame].
    destruct (clone_from_lists _ _ _ _ _ E) as [_ Hns]. cbn [c_nodes] in Hns.
    apply (clone_from_mirror h Hc fuel _ _ []) in E
      as (orig & _ & (_ & _ & _ & Hdone) & Himg); [| |done].
    2: { unfold cloning, extends. cbn [c_heap c_parents c_nodes].
         split; [done|]. split; [simpl; lia|]. split; [constructor|].
         intros i Hi. simpl in Hi. lia. }
    assert (forall v v', image id (length h) orig v v' ->
                         fresh_for (length h) v v') as Hfresh.
    { intros [| | | | |m] v'; try done.
      intros (j & -> & _). exists (length h + j). split; [done | lia]. }
    split; [exact Hsame|]. split; [by apply Hfresh|].
    intros ps Hhas. unfold has, get in *. cbn [value] in *.
    rewrite has_from_resolve in Hhas. injection Hhas as Hhas.
    apply bool_decide_eq_true in Hhas as [x Hx].
    destruct (mirrors_resolve id h orig (c_heap c') ps) with
      (v := value this) (v' := r) (x := x) as (x' & Hx' & Hix); try done.
    { intros i Hi. apply Hdone; [done|]. rewrite Hns. apply not_elem_of_nil. }
    rewrite !get_from_resolve, has_from_resolve, Hx, Hx'.
    split; [done|]. exists x, x'. split; [done|]. split; [done|].
    by apply Hfresh.
  - intros fuel. eexists. split; [vm_compute; reflexivity|].
    repeat split; try discriminate; reflexivity.
Qed.

(** X12.  [clone] returns, and writes into no object that was there: on a
    heap without dangling references and with any fuel above its size,
    [clone] of a root of the heap returns without throwing; every object of
    the heap is what it was; a scalar root is returned as it is, with the
    heap, and for a composite root the result is a new object, the first
    after those of the heap. *)
Theorem clone_returns (h : heap) (this : t) (fuel : nat) :
  closed h = true ->
  in_heap (length h) (value this) = true ->
  length h < fuel ->
  exists h' r,
    clone fuel h this = Ok (h', r)
    /\ length h <= length h'
    /\ (forall l, l < length h -> h' !! l = h !! l)
    /\ r = (if isPureObj (value this) then VRef (length h) else value this)
    /\ (isPureObj (value this) = false -> h' = h).
Proof.
  intros Hc Hroot Hlt. unfold clone.
  destruct (clone_from_total h Hc fuel (CState h [] []) (value this))
    as (c' & r & E); try done.
  { constructor. }
  { simpl. lia. }
  rewrite E. cbn [mbind result_bind]. exists (c_heap c'), r.
  destruct (clone_from_frame _ _ _ _ _ E) as [Hlen Hsame].
  split; [done|]. split; [done|]. split; [done|].
  destruct fuel as [|fuel]; [lia|].
  cbn [clone_from] in E. unfold clone_body in E. cbn [list_find c_parents] in E.
  destruct (value this) as [| | | | |l]; cbn [isPureObj] in *;
    try (injection E as <- <-; by split).
  cbn [fmap option_fmap option_map] in E.
  destruct (copy h (VRef l)) as [h1 dst] eqn:Ecopy.
  cbn [copy alloc] in Ecopy. injection Ecopy as <- <-.
  cbn [c_heap] in E. bind_inv E as c1 Hk. injection E as <- <-. by split.
Qed.

(** [clone] on [o = {}; o.self = o]. *)
Lemma clone_returns_witness :
  exists h' r,
    clone 2 Examples.self_heap (Make (VRef 0)) = Ok (h', r)
    /\ length Examples.self_heap <= length h'
    /\ (forall l, l < length Examples.self_heap ->
                  h' !! l = Examples.self_heap !! l)
    /\ r = (if isPureObj (VRef 0) then VRef (length Examples.self_heap)
            else VRef 0)
    /\ (isPureObj (VRef 0) = false -> h' = Examples.self_heap).
Proof.
  apply (clone_returns Examples.self_heap (Make (VRef 0)) 2);
    [reflexivity | reflexivity | simpl; lia].
Defined.



End CloneTheorems.

(** ** The flags of the states *)

Lemma entry_state_flagged {A} (imm : bool) (w : wstate A) (nd_ : val) :
  flagged (w_parents w, entry_state imm w nd_).
Proof.
  unfold flagged, entry_state, entry_view.
  destruct (if imm then _ else _) as [h nd]. cbn [snd v_this].
  unfold updateState. cbn [new_state node keys isRoot].
  destruct (isPureObj nd) eqn:E;
    cbn [notRoot isFirst isLast isLeaf notLeaf keys node isRoot];
    rewrite E; (split; [done|]); (split; [done|]); (split; [done|]).
  - eexists. split; [reflexivity|]. split; [reflexivity|]. by eexists.
  - by exists true.
Qed.

(** X14.  The flags a callback finds on its state, in every walk and
    either mode: [notRoot] and [notLeaf] negate [isRoot] and [isLeaf]; on a
    scalar [keys] is unset and [isLeaf] holds, on a composite [keys] is set
    and [isLeaf] says that there is none; and [isFirst] and [isLast] are
    still unassigned, they are given to a child only when its visit has
    returned. *)
Theorem flags_at_callback {A} (cb : handler A) (immutable : bool) (fuel : nat)
  (h : heap) (a : A) (root : val) (w : wstate A) (r : val) :
  walk fuel h a root cb immutable = Ok (w, r) ->
  forall anc s,
    (anc, s) ∈ w_visits w ->
    notRoot s = Some (negb (isRoot s))
    /\ isFirst s = None /\ isLast s = None
    /\ exists leaf,
         isLeaf s = Some leaf /\ notLeaf s = Some (negb leaf)
         /\ if isPureObj (node s)
            then exists ks, keys s = Some ks /\ leaf = bool_decide (length ks = 0)
            else keys s = None /\ leaf = true.
Proof.
  unfold walk. intros H anc s Hin.
  bind_inv H as [w1 s1] Hw. injection H as <- <-.
  apply (walker_grows flagged) in Hw as (vs & E & F).
  - simpl in E. rewrite E in Hin. rewrite Forall_forall in F.
    apply (F _ Hin).
  - intros w0 nd_. apply entry_state_flagged.
Qed.

(** The walk of [{a: {b: 1}}] that adds 100 to the numbers. *)
Lemma flags_at_callback_witness :
  exists w r,
    walk 3 Examples.nested_heap tt (VRef 0) Examples.add100 true = Ok (w, r)
    /\ forall anc s,
         (anc, s) ∈ w_visits w ->
         notRoot s = Some (negb (isRoot s))
         /\ isFirst s = None /\ isLast s = None
         /\ exists leaf,
              isLeaf s = Some leaf /\ notLeaf s = Some (negb leaf)
              /\ if isPureObj (node s)
                 then exists ks, keys s = Some ks
                                 /\ leaf = bool_decide (length ks = 0)
                 else keys s = None /\ leaf = true.
Proof.
  eexists _, _. split; [vm_compute; reflexivity|].
  eapply (flags_at_callback Examples.add100 true 3 Examples.nested_heap tt
            (VRef 0)).
  vm_compute. reflexivity.
Defined.

(** ** [map] as a transformer of leaves *)

Lemma assoc_is_Some (k : pkey) (ps : list (pkey * val)) :
  is_Some (assoc k ps) <-> k ∈ ps.*1.
Proof.
  destruct (assoc k ps) as [v|] eqn:E.
  - split; [|by eexists]. intros _.
    destruct (decide (k ∈ ps.*1)) as [|Hn]; [done|].
    apply assoc_None_notin in Hn. congruence.
  - split; [by intros [? ?]|]. intros Hin.
    by apply assoc_None_notin in E.
Qed.

Lemma assoc_set_lookup (k k' : pkey) (v : val) (ps : list (pkey * val)) :
  assoc k' (assoc_set k v ps) = if decide (k' = k) then Some v else assoc k' ps.
Proof.
  destruct (decide (k' = k)) as [->|Hne].
  - apply assoc_set_same.
  - by apply assoc_set_other.
Qed.

Lemma assoc_set_keys (k k' : pkey) (v : val) (ps : list (pkey * val)) :
  k' ∈ (assoc_set k v ps).*1 <-> k' = k \/ k' ∈ ps.*1.
Proof.
  rewrite <- !assoc_is_Some, assoc_set_lookup.
  destruct (decide (k' = k)) as [->|Hne].
  - split; [by left | by eexists].
  - split; [by right | by intros [|]].
Qed.

Lemma assoc_set_NoDup (k : pkey) (v : val) (ps : list (pkey * val)) :
  NoDup ps.*1 -> NoDup (assoc_set k v ps).*1.
Proof.
  induction ps as [|[k' v'] ps IH]; cbn [assoc_set fmap list_fmap fst].
  - intros _. apply NoDup_singleton.
  - rewrite NoDup_cons. intros [Hnin Hnd].
    destruct (decide (k = k')) as [->|Hne]; cbn [fmap list_fmap fst].
    + by apply NoDup_cons.
    + apply NoDup_cons. split; [|by apply IH].
      rewrite assoc_set_keys. intros [->|Hin]; done.
Qed.

(** What the loop of [copy] assigns. *)
Lemma fold_set_own (val_of : pkey -> val) (ks : list pkey) : forall o,
  let r := fold_left (fun d k => set_own d k (val_of k)) ks o in
  (forall k, assoc k (props r)
             = if decide (k ∈ ks) then Some (val_of k) else assoc k (props o))
  /\ (NoDup (props o).*1 -> NoDup (props r).*1).
Proof.
  induction ks as [|k0 ks IH]; intros o; cbn [fold_left].
  - split; [|done]. intros k. rewrite decide_False; [done|].
    apply not_elem_of_nil.
  - destruct (IH (set_own o k0 (val_of k0))) as [Hl Hnd]. cbv zeta in *.
    split.
    + intros k. rewrite Hl. cbn [set_own props]. rewrite assoc_set_lookup.
      destruct (decide (k ∈ ks)) as [Hin|Hnin].
      * rewrite decide_True; [done | by right].
      * destruct (decide (k = k0)) as [->|Hne].
        -- rewrite decide_True; [done | by left].
        -- rewrite decide_False; [done|].
           rewrite not_elem_of_cons. by split.
    + intros H. apply Hnd. cbn [set_own props]. by apply assoc_set_NoDup.
Qed.

Lemma ordered_from_lookup (n : nat) (h : heap) : forall l0 l o,
  ordered_from n l0 h = true -> h !! l = Some o ->
  (forall k v, (k, v) ∈ props o -> forward n (l0 + l) v = true)
  /\ (forall msg, kind o = KError msg -> forward n (l0 + l) msg = true).
Proof.
  induction h as [|o0 h IH]; intros l0 l o Ho Hl; [done|].
  cbn [ordered_from] in Ho.
  apply andb_true_iff in Ho as [Ho Hrest].
  apply andb_true_iff in Ho as [Hprops Hkind].
  destruct l as [|l]; cbn in Hl.
  - injection Hl as <-. rewrite Nat.add_0_r. split.
    + intros k v Hin. apply Is_true_true in Hprops.
      rewrite forallb_True, Forall_forall in Hprops.
      apply Is_true_true. apply (Hprops (k, v) Hin).
    + intros msg Hm. by rewrite Hm in Hkind.
  - replace (l0 + S l) with (S l0 + l) by lia. by apply IH.
Qed.

Section MapLeaves.

Context {A : Type}.
Variable f : val -> val.
Hypothesis Hf : forall x, isPureObj x = false -> isPureObj (f x) = false.
Variable h0 : heap.
Hypothesis Hord : ordered h0 = true.

Lemma ordered_child (l : loc) (o : obj) (k : pkey) (v : val) :
  h0 !! l = Some o -> (k, v) ∈ props o \/ kind o = KError v ->
  forward (length h0) l v = true.
Proof.
  intros Hl Hv.
  destruct (ordered_from_lookup (length h0) h0 0 l o Hord Hl) as [Hp Hk].
  destruct Hv as [Hv|Hv]; [by eapply Hp | by apply Hk].
Qed.

(** The object that [copy] makes of an object of [h0]. *)
Lemma copy_obj_facts (hp : heap) (l : loc) :
  extends h0 hp -> l < length h0 ->
  exists cobj,
    copy hp (VRef l) = (hp ++ [cobj], VRef (length hp))
    /\ NoDup (props cobj).*1
    /\ (forall k v, assoc k (props (deref h0 l)) = Some v ->
                    assoc k (props cobj) = Some v)
    /\ (forall k v, assoc k (props cobj) = Some v ->
                    forward (length h0) l v = true).
Proof.
  intros He Hl. eexists. split; [reflexivity|].
  assert (deref hp l = deref h0 l) as Hd by (unfold deref; by rewrite He).
  cbn [objectKeys]. rewrite Hd.
  destruct (h0 !! l) as [o|] eqn:Ho;
    [|apply lookup_ge_None in Ho; lia].
  assert (deref h0 l = o) as -> by (unfold deref; by rewrite Ho).
  destruct (fold_set_own (fun k => default VUndef (assoc k (props o)))
              (props o).*1 (copy_shell o)) as [Hlook Hnd].
  cbv zeta in *. split; [|split].
  - apply Hnd. unfold copy_shell.
    destruct (kind o); cbn [props fmap list_fmap fst];
      try apply NoDup_nil_2. apply NoDup_singleton.
  - intros k v Hk. rewrite Hlook, decide_True.
    + by rewrite Hk.
    + apply assoc_is_Some. by eexists.
  - intros k v Hk. rewrite Hlook in Hk.
    destruct (decide (k ∈ (props o).*1)) as [Hin|Hnin].
    + apply assoc_is_Some in Hin as [v0 Hv0]. rewrite Hv0 in Hk.
      injection Hk as <-. apply assoc_Some_in in Hv0.
      apply (ordered_child l o k); [exact Ho | by left].
    + unfold copy_shell in Hk.
      destruct (kind o) eqn:Ek; cbn [props assoc] in Hk; try discriminate.
      destruct (decide (k = KName "message")); [|discriminate].
      injection Hk as <-. apply (ordered_child l o k); [exact Ho | by right].
Qed.

Section Loop.

Variable fuel : nat.
Variable rec : wstate A -> val -> result (wstate A * state).
Hypothesis Hrec : leaf_walks f h0 fuel rec.

Lemma each_key_leaf (l d : loc) (s2 : state) (ps : list state)
  (pth : list pkey) (c0 : pkey -> val) (n : nat) :
  node s2 = VRef d -> node_ s2 = VRef l ->
  l < length h0 -> length h0 <= d -> length h0 < l + S fuel ->
  length pth = length ps ->
  Forall (fun p => exists m, node_ p = VRef m /\ m < l) ps ->
  forall ks,
    (forall k, k ∈ ks -> forward (length h0) l (c0 k) = true) ->
    NoDup ks ->
    forall i (D : pkey -> Prop) hp orig a vis st,
      extends h0 hp -> length hp = length h0 + length orig ->
      d < length hp ->
      (forall j, j < length orig ->
                 VRef (length h0 + j) ∉ node <$> (ps ++ [s2]) ->
                 mirrors (replaced f) h0 orig hp j) ->
      (forall k, k ∈ ks -> assoc k (props (deref hp d)) = Some (c0 k)) ->
      (forall k, D k ->
                 exists v', assoc k (props (deref hp d)) = Some v'
                            /\ image (replaced f) (length h0) orig (c0 k) v') ->
      exists orig' h' vis',
        each_key true rec n ks i (WState hp pth (ps ++ [s2]) true a vis st)
                 (Locals s2 true no_mods)
        = Ok (WState h' pth (ps ++ [s2]) true a vis' st, Locals s2 true no_mods)
        /\ orig `prefix_of` orig' /\ extends h0 h'
        /\ length h' = length h0 + length orig'
        /\ (forall j, j < length orig' ->
                      VRef (length h0 + j) ∉ node <$> (ps ++ [s2]) ->
                      mirrors (replaced f) h0 orig' h' j)
        /\ (forall k, D k \/ k ∈ ks ->
                      exists v', assoc k (props (deref h' d)) = Some v'
                                 /\ image (replaced f) (length h0) orig' (c0 k) v')
        /\ (forall l0, l0 < length hp -> l0 <> d -> h' !! l0 = hp !! l0).
Proof.
  intros Hn2 Hn2_ Hl Hd Hfuel Hlen Hanc.
  induction ks as [|k ks IH]; intros Hfw Hnd i D hp orig a vis st
    He Hlenh Hdlt Hdone Hun HD.
  - exists orig, hp, vis. split; [reflexivity|].
    repeat (split; [done|]). split; [|done].
    intros k [Hk|Hk]; [by apply HD | by apply elem_of_nil in Hk].
  - apply NoDup_cons in Hnd as [Hnin Hnd].
    cbn [each_key]. cbn [l_mods pre l_state mbind result_bind].
    rewrite Hn2. cbn [get_prop mbind result_bind].
    change (with_path (w_path (WState hp pth (ps ++ [s2]) true a vis st) ++ [k])
              (WState hp pth (ps ++ [s2]) true a vis st))
      with (WState hp (pth ++ [k]) (ps ++ [s2]) true a vis st).
    cbn [w_heap].
    assert (own_val hp (VRef d) k = c0 k) as Hx.
    { cbn [own_val]. rewrite (Hun k); [done | by left]. }
    rewrite Hx.
    assert (forward (length h0) l (c0 k) = true) as Hfk by (apply Hfw; by left).
    destruct (Hrec orig hp (pth ++ [k]) (ps ++ [s2]) a vis st (c0 k))
      as (orig1 & h1 & vis1 & child & E & Hpost).
    { unfold enough. destruct (c0 k) as [| | | | |m]; try lia.
      cbn [forward] in Hfk. apply bool_decide_eq_true in Hfk. lia. }
    { unfold leaf_pre. split; [done|]. split; [done|].
      split; [by rewrite !length_app, Hlen|]. split; [|split; [|done]].
      - destruct (c0 k) as [| | | | |m]; try done.
        cbn [forward] in Hfk. apply bool_decide_eq_true in Hfk.
        split; [lia|]. apply Forall_app. split.
        + eapply Forall_impl; [exact Hanc|].
          intros p (m' & Hp & Hm'). exists m'. split; [done | lia].
        + apply Forall_singleton. exists l. split; [done | lia].
      - intros top Htop. rewrite last_snoc in Htop. injection Htop as <-.
        exists d. split; [done | lia]. }
    rewrite E. cbn [mbind result_bind w_heap andb].
    destruct Hpost as (Hp1 & He1 & Hlen1 & Himg1 & Hdone1 & Hfr1 & Hkey1).
    destruct (Hkey1 s2 d k) as [Hother1 Hsome1];
      [apply last_snoc | done | apply last_snoc |].
    pose proof (prefix_length _ _ Hp1) as Hlo1.
    assert (hasOwnProperty h1 (VRef d) k = true) as Hown.
    { rewrite hasOwnProperty_assoc. apply bool_decide_eq_true_2.
      apply Hsome1. rewrite (Hun k); [by eexists | by left]. }
    rewrite Hown.
    cbn [set_prop mbind result_bind post run_hook_top run_hook l_state].
    unfold set_top, with_path, with_parents, with_heap.
    cbn [w_heap w_path w_parents w_alive w_user w_visits w_stopped].
    rewrite !removelast_last.
    set (h2 := <[d := set_own (deref h1 d) k (node child)]> h1).
    destruct (IH) with (i := S i) (D := fun k0 => D k0 \/ k0 = k)
      (hp := h2) (orig := orig1) (a := a) (vis := vis1) (st := st)
      as (orig' & h' & vis' & E' & Hp' & He' & Hlen' & Hdone' & Hall' & Hfr').
    + intros k0 Hk0. apply Hfw. by right.
    + done.
    + unfold h2. intros l0 Hl0. rewrite list_lookup_insert_ne by lia.
      by apply He1.
    + unfold h2. by rewrite length_insert.
    + unfold h2. rewrite length_insert. lia.
    + intros j Hj Hnj.
      apply (mirrors_mono (replaced f) h0 orig1 orig1 h1); [done | |].
      * unfold h2. apply deref_insert_ne. intros ->. apply Hnj.
        rewrite fmap_app. apply elem_of_app. right.
        cbn [fmap list_fmap]. rewrite Hn2. by left.
      * by apply Hdone1.
    + intros k0 Hk0. unfold h2. rewrite deref_insert_eq by lia.
      cbn [set_own props]. rewrite assoc_set_other by (by intros ->).
      rewrite Hother1 by (by intros ->). apply Hun. by right.
    + intros k0 Hk0. unfold h2. rewrite deref_insert_eq by lia.
      cbn [set_own props]. rewrite assoc_set_lookup.
      destruct (decide (k0 = k)) as [->|Hne]; [by exists (node child)|].
      destruct Hk0 as [Hk0|Hk0]; [|done].
      rewrite Hother1 by done.
      destruct (HD k0 Hk0) as (v' & Hv' & Hi). exists v'.
      split; [done | by eapply image_mono].
    + exists orig', h', vis'. split; [exact E'|].
      split; [by etrans|]. split; [done|]. split; [done|]. split; [done|].
      split.
      * intros k0 [Hk0|Hk0]; apply Hall'; [by left; left|].
        apply elem_of_cons in Hk0 as [->|Hk0]; [left; by right | by right].
      * intros l0 Hl0 Hne. rewrite Hfr'.
        -- unfold h2. rewrite list_lookup_insert_ne by done.
           apply Hfr1; [done|]. intros top Htop.
           rewrite last_snoc in Htop. injection Htop as <-.
           rewrite Hn2. by intros [= ->].
        -- unfold h2. rewrite length_insert. lia.
        -- done.
Qed.

Lemma visit_leaf : leaf_walks f h0 (S fuel) (visit (leaf_map f) true rec).
Proof.
  intros orig hp pth ps a vis st v Hen Hpre.
  destruct Hpre as (He & Hlenh & Hlen & Hgood & Htop & Hdone).
  rewrite visit_alive by reflexivity. rewrite call_callback_unfold. cbv zeta.
  destruct (isPureObj v) eqn:Ev.
  - destruct v as [| | | | |l]; try discriminate.
    destruct Hgood as [Hl Hanc].
    destruct (copy_obj_facts hp l He Hl) as (cobj & Ecopy & Hnd & Hcb & Hcc).
    unfold entry_outcome, entry_state, entry_view.
    cbn [w_heap w_path w_parents w_alive w_user w_visits w_stopped].
    rewrite Ecopy.
    cbn [v_heap v_this v_parents leaf_map o_acts o_new o_ret o_user
         exec_actions mbind result_bind].
    rewrite app_nil_r.
    set (h1 := hp ++ [cobj]).
    set (s := updateState h1 ps (new_state (VRef (length hp)) (VRef l) pth ps)).
    assert (node s = VRef (length hp) /\ node_ s = VRef l) as [Hns Hns_].
    { unfold s. by destruct (updateState_fields h1 ps
        (new_state (VRef (length hp)) (VRef l) pth ps)) as (->&->&_). }
    assert (circular s = None) as Hcirc.
    { unfold s, updateState. cbn [new_state node isPureObj circular node_].
      assert (scan ps (VRef l) = None) as ->; [|done].
      unfold scan. apply fmap_None. apply list_find_None.
      eapply Forall_impl; [exact Hanc|].
      intros p (m & Hp & Hm). rewrite Hp. intros [= ->]. lia. }
    rewrite Hns. cbn [isPureObj]. unfold strict_eq.
    rewrite bool_decide_eq_true_2 by done.
    cbn [negb mbind result_bind l_mods before run_hook keepGoing].
    unfold descend. cbn [l_state]. rewrite Hns, Hcirc.
    cbn [isPureObj andb]. rewrite bool_decide_eq_true_2 by done.
    cbn [w_heap w_parents with_state l_state keepGoing l_mods].
    set (s2 := updateState h1 (ps ++ [s]) s).
    pose proof (extends_length _ _ He) as Hn0.
    assert (deref h1 (length hp) = cobj) as Hcobj.
    { unfold deref, h1. by rewrite list_lookup_middle. }
    assert (node s2 = VRef (length hp) /\ node_ s2 = VRef l) as [Hn2 Hn2_].
    { unfold s2. destruct (updateState_fields h1 (ps ++ [s]) s) as (->&->&_).
      done. }
    assert (keys s2 = Some (props cobj).*1) as Hkeys.
    { unfold s2, updateState at 1. rewrite Hns, Hns_. cbn [isPureObj keys].
      assert (negb (strict_eq (VRef l) (VRef (length hp))) = true) as Hneq.
      { unfold strict_eq. rewrite bool_decide_eq_false_2; [done|].
        intros [= ->]. lia. }
      rewrite Hneq. cbn [objectKeys]. rewrite Hcobj.
      by destruct (keys s). }
    rewrite Hkeys. cbn [default from_option id].
    unfold with_parents, with_state.
    cbn [w_heap w_path w_parents w_alive w_user w_visits w_stopped l_state
         keepGoing l_mods].
    destruct (each_key_leaf l (length hp) s2 ps pth
                (fun k => default VUndef (assoc k (props cobj)))
                (length (props cobj).*1) Hn2 Hn2_ Hl Hn0 Hen Hlen Hanc
                (props cobj).*1)
      with (i := 0) (D := fun _ : pkey => False) (hp := h1)
           (orig := orig ++ [l]) (a := a) (vis := vis ++ [(ps, s)]) (st := st)
      as (orig' & h' & vis' & E & Hp' & He' & Hlen' & Hdone' & Hall' & Hfr').
    { intros k Hk. apply assoc_is_Some in Hk as [v Hv]. rewrite Hv.
      by eapply Hcc. }
    { done. }
    { unfold h1. intros l0 Hl0. rewrite lookup_app_l by lia. by apply He. }
    { unfold h1. rewrite !length_app. simpl. lia. }
    { unfold h1. rewrite length_app. simpl. lia. }
    { intros j Hj Hnj. rewrite length_app in Hj. simpl in Hj.
      rewrite fmap_app, not_elem_of_app in Hnj. destruct Hnj as [Hnj Hn2'].
      assert (j <> length orig) as Hne.
      { intros ->. apply Hn2'. cbn [fmap list_fmap]. rewrite Hn2, Hlenh.
        by left. }
      apply (mirrors_mono (replaced f) h0 orig _ hp);
        [by apply prefix_app_r | |].
      - unfold h1. apply deref_app_l. lia.
      - apply Hdone; [lia | done]. }
    { intros k Hk. rewrite Hcobj.
      apply assoc_is_Some in Hk as [v Hv]. by rewrite Hv. }
    { by intros k []. }
    rewrite E. cbn [mbind result_bind w_parents w_heap w_path w_alive w_user
                    w_visits w_stopped l_mods after run_hook l_state].
    rewrite removelast_last.
    exists orig', h', vis', s2. split; [reflexivity|].
    assert (orig `prefix_of` orig') as Hp.
    { etrans; [|exact Hp']. by apply prefix_app_r. }
    assert (orig' !! length orig = Some l) as Horig.
    { eapply prefix_lookup_Some; [|exact Hp']. by rewrite list_lookup_middle. }
    assert (forall l0, l0 < length hp -> h' !! l0 = hp !! l0) as Hframe.
    { intros l0 Hl0. rewrite Hfr'.
      - unfold h1. by rewrite lookup_app_l.
      - unfold h1. rewrite length_app. simpl. lia.
      - lia. }
    unfold leaf_post. rewrite Hn2.
    split; [done|]. split; [done|]. split; [done|]. split.
    { exists (length orig). by rewrite Hlenh. }
    split.
    { intros j Hj Hnj. destruct (decide (j = length orig)) as [->|Hne].
      - exists l. split; [done|]. intros k v Hkv.
        apply Hcb in Hkv. destruct (Hall' k) as (v' & Hv' & Hi).
        { right. apply assoc_is_Some. by eexists. }
        exists v'. rewrite <- Hlenh. split; [done|].
        by rewrite Hkv in Hi.
      - apply Hdone'; [done|]. rewrite fmap_app, not_elem_of_app.
        split; [done|]. cbn [fmap list_fmap]. rewrite Hn2.
        rewrite list_elem_of_singleton. intros [= Heq]. lia. }
    split; [by intros l0 Hl0 _; apply Hframe|].
    intros top d' k Htop' Hd' Hk.
    destruct (Htop top Htop') as (d0 & Hd0 & Hdr).
    rewrite Hd' in Hd0. injection Hd0 as <-.
    assert (deref h' d' = deref hp d') as ->.
    { unfold deref. rewrite Hframe; [done | lia]. }
    by split.
  - assert (copy hp v = (hp, v)) as Ecopy by (by destruct v).
    unfold entry_outcome, entry_state, entry_view.
    cbn [w_heap w_path w_parents w_alive w_user w_visits w_stopped].
    rewrite Ecopy.
    cbn [v_heap v_this v_parents leaf_map o_acts o_new o_ret o_user
         exec_actions mbind result_bind].
    set (s := updateState hp ps (new_state v v pth ps)).
    assert (node s = v) as Hns.
    { unfold s. by destruct (updateState_fields hp ps (new_state v v pth ps))
        as (->&_). }
    rewrite Hns, Ev, app_nil_r.
    assert (isPureObj (f v) = false) as Hfv by (by apply Hf).
    assert (image (replaced f) (length h0) orig v (replaced f v)) as Himg.
    { by destruct v. }
    unfold strict_eq, replaced in *.
    destruct (decide (f v = VUndef)) as [Hu|Hu].
    { rewrite bool_decide_eq_true_2 by done.
      cbn [negb mbind result_bind l_mods before run_hook keepGoing].
      unfold descend. cbn [l_state]. rewrite Hns, Ev.
      cbn [andb mbind result_bind l_mods after run_hook l_state].
      exists orig, hp, (vis ++ [(ps, s)]), s. split; [reflexivity|].
      unfold leaf_post. rewrite Hns.
      split; [done|]. split; [done|]. split; [done|]. split; [done|].
      split; [done|]. split; [done|]. by intros top d k _ _ _. }
    rewrite bool_decide_eq_false_2 by done.
    cbn [negb exec_action l_state].
    assert (isRoot s = bool_decide (length pth = 0)
            /\ parent s = match ps with
                          | [] => None
                          | _ => Some (pred (length ps))
                          end
            /\ key s = last pth) as (Hroot & Hpar & Hkey).
    { unfold s. destruct (updateState_fields hp ps (new_state v v pth ps))
        as (_&_&_&->&->&->&_). done. }
    rewrite Hroot.
    destruct pth as [|k pth0 _] using rev_ind.
    { rewrite bool_decide_eq_true_2 by done.
      cbn [negb mbind result_bind stop_here with_state with_heap l_mods
           before run_hook keepGoing l_state w_heap w_path w_parents w_alive
           w_user w_visits w_stopped].
      unfold descend. cbn [l_state with_state set_node node]. rewrite Hfv.
      cbn [andb mbind result_bind l_mods with_state after run_hook l_state
           set_node node].
      exists orig, hp, (vis ++ [(ps, s)]), (set_node (f v) s).
      split; [reflexivity|].
      unfold leaf_post. cbn [set_node node].
      split; [done|]. split; [done|]. split; [done|]. split; [done|].
      split; [done|]. split; [done|]. by intros top d k _ _ _. }
    rewrite length_app in Hlen. simpl in Hlen.
    destruct ps as [|top ps0 _] using rev_ind; [simpl in Hlen; lia|].
    destruct (Htop top) as (d & Hd & Hdr); [apply last_snoc|].
    rewrite bool_decide_eq_false_2 by (rewrite length_app; simpl; lia).
    unfold parent_node, key_name. rewrite Hpar, Hkey.
    assert (match ps0 ++ [top] with
            | [] => None
            | _ => Some (pred (length (ps0 ++ [top])))
            end = Some (length ps0)) as ->.
    { destruct ps0; simpl; [done|]. rewrite length_app. simpl.
      f_equal. lia. }
    cbn [w_parents negb mbind result_bind].
    rewrite list_lookup_middle by done. rewrite last_snoc, Hd.
    cbn [default from_option id set_prop mbind result_bind w_heap stop_here
         with_state with_heap l_mods before run_hook keepGoing l_state
         w_path w_parents w_alive w_user w_visits w_stopped].
    unfold descend. cbn [l_state with_state set_node node]. rewrite Hfv.
    cbn [andb mbind result_bind l_mods with_state after run_hook l_state
         set_node node].
    eexists orig, _, _, _. split; [reflexivity|].
    unfold leaf_post. cbn [set_node node].
    split; [done|]. split.
    { intros l0 Hl0. rewrite list_lookup_insert_ne by lia. by apply He. }
    split; [by rewrite length_insert|]. split; [done|]. split.
    { intros j Hj Hnj.
      apply (mirrors_mono (replaced f) h0 orig orig hp); [done | |].
      - apply deref_insert_ne. intros ->. apply Hnj.
        rewrite fmap_app. apply elem_of_app. right.
        cbn [fmap list_fmap]. rewrite Hd. by left.
      - by apply Hdone. }
    split.
    { intros l0 Hl0 Hne. rewrite list_lookup_insert_ne; [done|].
      intros ->. by apply (Hne top); [apply last_snoc|]. }
    intros top' d' k' Htop' Hd' Hk'.
    rewrite last_snoc in Htop'. rewrite last_snoc in Hk'.
    injection Htop' as <-.
    injection Hk' as <-. rewrite Hd in Hd'. injection Hd' as <-.
    rewrite deref_insert_eq by lia. cbn [set_own props]. split.
    + intros k' Hne. by rewrite assoc_set_other.
    + intros _. rewrite assoc_set_same. by eexists.
Qed.

End Loop.

Lemma walker_leaf fuel :
  leaf_walks f h0 fuel (walker (A:=A) fuel (leaf_map f) true).
Proof.
  induction fuel as [|fuel IH].
  - intros orig hp pth ps a vis st v Hen (_ & _ & _ & Hgood & _).
    unfold enough in Hen. destruct v; lia.
  - cbn [walker]. by apply visit_leaf.
Qed.

End MapLeaves.

Section MapTheorem.

Import Traverse.



End MapTheorem.

(** ** No path is listed twice *)

Section DistinctPaths.

Import Traverse.

Variable h : heap.
Hypothesis Hkeys : well_keyed h = true.

Lemma well_keyed_keys (v : val) : NoDup (objectKeys h v).
Proof.
  destruct v as [| | | | |l]; try apply NoDup_nil_2.
  cbn [objectKeys]. unfold deref.
  destruct (h !! l) as [o|] eqn:Ho; [|apply NoDup_nil_2].
  apply Is_true_true in Hkeys. unfold well_keyed in Hkeys.
  rewrite forallb_True, Forall_lookup in Hkeys.
  specialize (Hkeys l o Ho). by apply bool_decide_unpack in Hkeys.
Qed.

Lemma looked_keys_distinct
  (rec : list pkey -> list state -> val -> option (visits * state))
  pth ps v ks vs :
  (forall pth x vs s, rec pth ps x = Some (vs, s) ->
                      NoDup ((fun x => path x.2) <$> vs)
                      /\ Forall (fun x => exists rel, path x.2 = pth ++ rel) vs) ->
  NoDup ks ->
  looked_keys h rec pth ps v ks = Some vs ->
  NoDup ((fun x => path x.2) <$> vs)
  /\ Forall (fun x => exists k rel, k ∈ ks /\ path x.2 = pth ++ k :: rel) vs.
Proof.
  intros Hrec. revert vs. induction ks as [|k ks IH]; intros vs Hnd H.
  - injection H as <-. split; constructor.
  - cbn [looked_keys] in H.
    destruct (rec (pth ++ [k]) ps (own_val h v k)) as [[vs1 s1]|] eqn:E1;
      [|discriminate].
    simpl in H.
    destruct (looked_keys h rec pth ps v ks) as [vs2|] eqn:E2; [|discriminate].
    injection H as <-. apply NoDup_cons in Hnd as [Hnin Hnd].
    destruct (Hrec _ _ _ _ E1) as [Hnd1 Hpre1].
    destruct (IH vs2 Hnd eq_refl) as [Hnd2 Hpre2].
    split.
    + rewrite fmap_app. apply NoDup_app. split; [done|]. split; [|done].
      intros p Hp1 Hp2.
      apply list_elem_of_fmap in Hp1 as (x1 & -> & Hx1).
      apply list_elem_of_fmap in Hp2 as (x2 & Heq & Hx2).
      rewrite Forall_forall in Hpre1, Hpre2.
      destruct (Hpre1 _ Hx1) as (rel1 & Hr1).
      destruct (Hpre2 _ Hx2) as (k2 & rel2 & Hk2 & Hr2).
      rewrite Hr1, Hr2, <- app_assoc in Heq.
      apply app_inv_head in Heq. injection Heq as -> _. done.
    + apply Forall_app. split.
      * eapply Forall_impl; [exact Hpre1|].
        intros x (rel & Hr). exists k, rel. split; [by left|].
        by rewrite Hr, <- app_assoc.
      * eapply Forall_impl; [exact Hpre2|].
        intros x (k2 & rel & Hk2 & Hr). exists k2, rel. split; [by right|done].
Qed.

Lemma looked_distinct fuel : forall pth ps v vs s,
  looked h fuel pth ps v = Some (vs, s) ->
  NoDup ((fun x => path x.2) <$> vs)
  /\ Forall (fun x => exists rel, path x.2 = pth ++ rel) vs.
Proof.
  induction fuel as [|fuel IH]; intros pth ps v vs s H; [discriminate|].
  rewrite looked_unfold in H. cbn zeta in H.
  assert (path (updateState h ps (new_state v v pth ps)) = pth) as Hp.
  { by destruct (updateState_fields h ps (new_state v v pth ps))
      as (_&_&->&_). }
  destruct (isPureObj v && bool_decide (v ∉ node_ <$> ps)).
  - destruct (looked_keys _ _ _ _ _ _) as [vs'|] eqn:Ek; [|discriminate].
    injection H as <- <-.
    eapply looked_keys_distinct in Ek as [Hnd Hpre];
      [| intros pth' x vs1 s1; apply IH | apply well_keyed_keys].
    split.
    + rewrite fmap_cons. apply NoDup_cons. split; [|done].
      cbn [snd]. rewrite Hp. intros Hin.
      apply list_elem_of_fmap in Hin as (x & Heq & Hx).
      rewrite Forall_forall in Hpre.
      destruct (Hpre _ Hx) as (k & rel & _ & Hr). rewrite Hr in Heq.
      rewrite <- (app_nil_r pth) in Heq at 1.
      by apply app_inv_head in Heq.
    + constructor.
      * exists []. cbn [snd]. by rewrite Hp, app_nil_r.
      * eapply Forall_impl; [exact Hpre|].
        intros x (k & rel & _ & Hr). by exists (k :: rel).
  - injection H as <- <-. split.
    + cbn [fmap list_fmap]. apply NoDup_singleton.
    + constructor; [|constructor]. exists []. cbn [snd].
      by rewrite Hp, app_nil_r.
Qed.

(** X16.  [paths] lists no path twice: on a heap whose objects have
    distinct own keys, cyclic or not, and with any fuel above its size,
    [paths] returns a list without duplicates that starts with the empty
    path of the root. *)
Theorem paths_distinct (this : t) (fuel : nat) :
  length h < fuel ->
  exists w ps,
    paths fuel h this = Ok (w, this, ps) /\ NoDup ps /\ head ps = Some [].
Proof.
  intros Hlt.
  destruct (looked_from_root h fuel (value this) Hlt) as (vs & s & E & _).
  destruct (looked_head h _ _ _ _ _ _ E)
    as (Hs & s0 & rest & Hvs & _ & Hp0 & _).
  destruct (looked_distinct _ _ _ _ _ _ E) as [Hnd _].
  assert (fold_left (user_step paths_cb h) vs []
          = (fun x => path x.2) <$> vs) as Hp.
  { unfold user_step, paths_cb. cbn [o_user].
    by rewrite (fold_left_snoc (fun x : list state * state => path x.2)). }
  eexists _, ((fun x => path x.2) <$> vs). unfold paths.
  rewrite (forEach_looks paths_cb) by apply paths_cb_looks.
  rewrite E. cbn [mbind result_bind w_user]. rewrite Hs, Hp.
  destruct this as [root]. cbn [value] in *.
  split; [reflexivity|]. split; [done|].
  rewrite Hvs. cbn [fmap list_fmap head snd]. by rewrite Hp0.
Qed.

End DistinctPaths.

(** [paths] on [o = {}; o.self = o]. *)
Lemma paths_distinct_witness :
  exists w ps,
    Traverse.paths 2 Examples.self_heap (Traverse.Make (VRef 0))
    = Ok (w, Traverse.Make (VRef 0), ps)
    /\ NoDup ps /\ head ps = Some [].
Proof.
  apply (paths_distinct Examples.self_heap eq_refl (Traverse.Make (VRef 0)) 2).
  simpl. lia.
Defined.

(** ** [set] through a property that holds no object *)

(** X17.  [set] does not replace what stands in its way.  When the root
    owns the first key of a path of two: if it holds [undefined] or [null]
    there, [set] throws; if it holds a number or a boolean, [set] returns
    the value and leaves the heap as it was, so that [has] is still false
    of the path and [get] still finds nothing. *)
Theorem set_through_scalar (h : heap) (l : loc) (k k2 : pkey) (x y : val) :
  assoc k (props (deref h l)) = Some y ->
  match y with
  | VUndef | VNull =>
      Traverse.set h (Traverse.Make (VRef l)) [k; k2] x = Err TypeError
  | VNum _ | VBool _ =>
      Traverse.set h (Traverse.Make (VRef l)) [k; k2] x = Ok (h, x)
      /\ Traverse.has h (Traverse.Make (VRef l)) [k; k2] = Ok false
      /\ Traverse.get h (Traverse.Make (VRef l)) [k; k2] = Ok VUndef
  | _ => True
  end.
Proof.
  intros Hk. unfold Traverse.set, Traverse.has, Traverse.get.
  cbn [Traverse.value]. rewrite set_from_unfold.
  rewrite get_from_resolve, has_from_resolve. cbn [resolve].
  rewrite hasOwnProperty_assoc, Hk.
  rewrite bool_decide_eq_true_2 by (by eexists).
  cbn [mbind result_bind get_prop own_val]. rewrite Hk.
  cbn [default from_option id].
  destruct y as [| |b|n|s|m]; try done; cbn [Traverse.set_from set_prop
    mbind result_bind]; split; try done; split; try done.
Qed.

(** [set(['y', 'w'], 1)] on [{x: d, y: 10, z: 5}]. *)
Lemma set_through_scalar_witness :
  Traverse.set (Examples.date_heap 0) (Traverse.Make (VRef 0))
               [KName "y"; KName "w"] (VNum 1)
  = Ok (Examples.date_heap 0, VNum 1)
  /\ Traverse.has (Examples.date_heap 0) (Traverse.Make (VRef 0))
                  [KName "y"; KName "w"] = Ok false
  /\ Traverse.get (Examples.date_heap 0) (Traverse.Make (VRef 0))
                  [KName "y"; KName "w"] = Ok VUndef.
Proof.
  apply (set_through_scalar (Examples.date_heap 0) 0 (KName "y") (KName "w")
           (VNum 1) (VNum 10)).
  reflexivity.
Defined.

(** * [gc.js] *)

Section GCSmall.

Import GC.

Lemma delete_indices_object (l : loc) (n : nat) : forall h p,
  exists h',
    delete_indices h (VRef l) p n = Ok h'
    /\ length h' = length h
    /\ (forall l', l' <> l -> h' !! l' = h !! l')
    /\ kind (deref h' l) = kind (deref h l)
    /\ forall k,
         assoc k (props (deref h' l))
         = match k with
           | KIdx i => if decide (p <= i < p + n) then None
                       else assoc k (props (deref h l))
           | KName _ => assoc k (props (deref h l))
           end.
Proof.
  induction n as [|n IH]; intros h p.
  - exists h. split; [done|]. split; [done|]. split; [done|]. split; [done|].
    intros [i|s]; [|done]. rewrite decide_False; [done | lia].
  - cbn [delete_indices delete_prop mbind result_bind].
    destruct (IH (<[l := del_own (deref h l) (KIdx p)]> h) (S p))
      as (h' & E & Hlen & Hfr & Hkind & Hk).
    exists h'. split; [done|]. rewrite length_insert in Hlen.
    split; [done|]. split.
    { intros l' Hne. rewrite Hfr by done. by rewrite list_lookup_insert_ne. }
    destruct (decide (l < length h)) as [Hl|Hl].
    + rewrite deref_insert_eq in Hkind, Hk by done. split; [done|].
      intros k. rewrite Hk. cbn [del_own props].
      destruct k as [i|s].
      * destruct (decide (i = p)) as [->|Hne].
        -- rewrite assoc_del_same.
           rewrite (decide_True (P := p <= p < p + S n)) by lia.
           by destruct (decide _).
        -- rewrite assoc_del_other by (by intros [= ->]).
           destruct (decide (S p <= i < S p + n));
             [rewrite (decide_True (P := p <= i < p + S n)) by lia
             | rewrite (decide_False (P := p <= i < p + S n)) by lia]; done.
      * by rewrite assoc_del_other.
    + assert (forall h1, length h1 = length h -> deref h1 l = empty_obj) as He.
      { intros h1 Hh1. apply deref_ge. lia. }
      rewrite (He h' Hlen), (He h eq_refl). split; [done|].
      intros [i|s]; [|done]. by destruct (decide _).
Qed.

(** X18.  [markForGarbageCollection] on an object with at most ten
    properties does not walk it: it deletes the index keys below the number
    of properties from the object and nothing else.  Every named property
    of the object stays, and every other object of the heap is what it
    was. *)
Theorem gc_small_object (is_obj : val -> bool) (fuel : nat) (h : heap)
  (l : loc) (nprops : nat) (ignore : list pkey) :
  nprops <= 10 ->
  exists h',
    markForGarbageCollection is_obj fuel h (VRef l) nprops ignore = Ok h'
    /\ length h' = length h
    /\ (forall l', l' <> l -> h' !! l' = h !! l')
    /\ forall k,
         assoc k (props (deref h' l))
         = match k with
           | KIdx i => if decide (i < nprops) then None
                       else assoc k (props (deref h l))
           | KName _ => assoc k (props (deref h l))
           end.
Proof.
  intros Hn. unfold markForGarbageCollection.
  rewrite decide_False by lia. cbn [mbind result_bind].
  destruct (delete_indices_object l nprops h 0)
    as (h' & E & Hlen & Hfr & _ & Hk).
  exists h'. split; [done|]. split; [done|]. split; [done|].
  intros k. rewrite Hk. destruct k as [i|s]; [|done].
  destruct (decide (i < nprops));
    [rewrite decide_True by lia | rewrite decide_False by lia]; done.
Qed.

(** On [{x: d, y: 10, z: 5}], with three properties. *)
Lemma gc_small_object_witness :
  exists h',
    markForGarbageCollection isPureObj 0 (Examples.date_heap 0) (VRef 0) 3
                             [KName "parent"] = Ok h'
    /\ length h' = length (Examples.date_heap 0)
    /\ (forall l', l' <> 0 -> h' !! l' = Examples.date_heap 0 !! l')
    /\ forall k,
         assoc k (props (deref h' 0))
         = match k with
           | KIdx i => if decide (i < 3) then None
                       else assoc k (props (deref (Examples.date_heap 0) 0))
           | KName _ => assoc k (props (deref (Examples.date_heap 0) 0))
           end.
Proof.
  apply (gc_small_object isPureObj 0 (Examples.date_heap 0) 0 3
           [KName "parent"]).
  lia.
Defined.

End GCSmall.

Section GCWalk.

Import GC.

Variable is_obj : val -> bool.
Hypothesis Hobj : is_obj VUndef = false.
Variable l : loc.
Variable ignore : list pkey.

(** The callback as [forEachs] wraps it. *)
Local Abbreviation cbw := (Traverse.forEachs_cb (gc_cb is_obj ignore)).

Lemma cbw_outcome (a : unit) (vw : view) (arg : harg) :
  cbw a vw arg
  = Outcome tt []
      (if shouldIgnore ignore (path (v_this vw)) then [] else [ARemove false])
      VUndef.
Proof.
  unfold Traverse.forEachs_cb, gc_cb. rewrite Hobj. cbn [isArray negb andb].
  rewrite andb_true_r. destruct a. by destruct (shouldIgnore _ _).
Qed.

Section Loop.

Variable fuel : nat.
Variable rec : wstate unit -> val -> result (wstate unit * state).
Hypothesis Hrec : gc_walks is_obj l ignore fuel rec.

Lemma each_key_gc (s2 : state) (ps : list state) (pth : list pkey)
  (n N : nat) (m : loc) (h_start : heap) :
  node s2 = VRef m ->
  (forall hp k, length hp = N -> isArray hp (VRef l) = false ->
                gc_pre l fuel hp (pth ++ [k]) (ps ++ [s2])) ->
  forall ks i (seen : list pkey) hp vis st,
    length hp = N ->
    kind (deref hp l) = kind (deref h_start l) ->
    isArray h_start (VRef l) = false ->
    (forall k0,
       assoc k0 (props (deref hp l))
       = if decide (length (ps ++ [s2]) = 1 /\ k0 ∈ seen
                    /\ shouldIgnore ignore (pth ++ [k0]) = false)
         then None else assoc k0 (props (deref h_start l))) ->
    exists h' vis',
      each_key false rec n ks i (WState hp pth (ps ++ [s2]) true tt vis st)
               (Locals s2 true no_mods)
      = Ok (WState h' pth (ps ++ [s2]) true tt vis' st, Locals s2 true no_mods)
      /\ length h' = N
      /\ kind (deref h' l) = kind (deref h_start l)
      /\ forall k0,
           assoc k0 (props (deref h' l))
           = if decide (length (ps ++ [s2]) = 1 /\ k0 ∈ seen ++ ks
                        /\ shouldIgnore ignore (pth ++ [k0]) = false)
             then None else assoc k0 (props (deref h_start l)).
Proof.
  intros Hn2 Hpre.
  induction ks as [|k ks IH]; intros i seen hp vis st Hlen Hkind Harr HD.
  - exists hp, vis. split; [reflexivity|]. split; [done|]. split; [done|].
    intros k0. by rewrite HD, app_nil_r.
  - cbn [each_key]. cbn [l_mods pre l_state mbind result_bind].
    rewrite Hn2. cbn [get_prop mbind result_bind].
    change (with_path (w_path (WState hp pth (ps ++ [s2]) true tt vis st) ++ [k])
              (WState hp pth (ps ++ [s2]) true tt vis st))
      with (WState hp (pth ++ [k]) (ps ++ [s2]) true tt vis st).
    cbn [w_heap].
    assert (isArray hp (VRef l) = false) as Harr'.
    { cbn [isArray] in *. by rewrite Hkind. }
    destruct (Hrec hp (pth ++ [k]) (ps ++ [s2]) vis st (own_val hp (VRef m) k))
      as (h1 & vis1 & child & E & Hlen1 & Hkind1 & Hk1); [by apply Hpre|].
    rewrite E. cbn [mbind result_bind w_heap andb].
    cbn [post run_hook_top run_hook l_state mbind result_bind].
    unfold set_top, with_path, with_parents, with_heap.
    cbn [w_heap w_path w_parents w_alive w_user w_visits w_stopped].
    rewrite !removelast_last.
    destruct (IH (S i) (seen ++ [k]) h1 vis1 st)
      as (h' & vis' & E' & Hlen' & Hkind' & Hk'); [lia | congruence | done | |].
    + intros k0. rewrite Hk1, HD, last_snoc.
      destruct (decide (length (ps ++ [s2]) = 1 /\ Some k = Some k0
                        /\ shouldIgnore ignore (pth ++ [k]) = false))
        as [(H1 & [= ->] & H3)|Hno].
      * rewrite decide_True; [done|]. split; [done|].
        split; [|done]. apply elem_of_app. right. by left.
      * apply decide_ext. rewrite elem_of_app, list_elem_of_singleton.
        split; [intros (?&?&?); by repeat split; [|left|]|].
        intros (H1 & [H2| ->] & H3); [done|]. destruct Hno. by repeat split.
    + exists h', vis'. split; [exact E'|]. split; [done|]. split; [done|].
      intros k0. rewrite Hk'. apply decide_ext.
      by rewrite <- app_assoc.
Qed.

Lemma visit_gc : gc_walks is_obj l ignore (S fuel) (visit cbw false rec).
Proof.
  intros hp pth ps vis st v Hpre.
  pose proof Hpre as (Hlen & (s0 & rest & Hps & Hn0 & Hn0_ & Hrest) & Hpure
                      & Harr & Hnd & Hin & Hfuel).
  rewrite visit_alive by reflexivity. rewrite call_callback_unfold. cbv zeta.
  unfold entry_outcome, entry_state, entry_view.
  cbn [w_heap w_path w_parents w_alive w_user w_visits w_stopped
       v_heap v_this v_parents].
  set (s := updateState hp ps (new_state v v pth ps)).
  assert (node s = v /\ node_ s = v /\ path s = pth
          /\ parent s = match ps with
                        | [] => None
                        | _ => Some (pred (length ps))
                        end
          /\ key s = last pth) as (Hns & Hns_ & Hpath & Hpar & Hkey).
  { unfold s. destruct (updateState_fields hp ps (new_state v v pth ps))
      as (->&->&->&->&->&_). done. }
  rewrite cbw_outcome. cbn [v_this o_acts o_new o_ret o_user]. rewrite Hpath.
  rewrite app_nil_r.
  assert (exists h1,
            exec_actions (if shouldIgnore ignore pth then [] else [ARemove false])
              (WState hp pth ps true tt (vis ++ [(ps, s)]) st)
              (Locals s true no_mods)
            = Ok (WState h1 pth ps true tt (vis ++ [(ps, s)]) st,
                  Locals s true no_mods)
            /\ gc_post l ignore hp pth ps h1) as (h1 & -> & Hpost1).
  { destruct (shouldIgnore ignore pth) eqn:Eign.
    { exists hp. split; [reflexivity|]. split; [done|]. split; [done|].
      intros k. rewrite decide_False; [done|]. intros (_&_&?). congruence. }
    cbn [exec_actions exec_action l_state]. rewrite Hpar.
    destruct ps as [|top ps0 _] using rev_ind; [done|].
    destruct pth as [|k pth0 _] using rev_ind;
      [rewrite length_app in Hlen; simpl in Hlen; lia|].
    assert (match ps0 ++ [top] with
            | [] => None
            | _ => Some (pred (length (ps0 ++ [top])))
            end = Some (length ps0)) as ->.
    { destruct ps0; simpl; [done|]. rewrite length_app. simpl. f_equal. lia. }
    unfold parent_node, key_name. rewrite Hpar, Hkey.
    assert (match ps0 ++ [top] with
            | [] => None
            | _ => Some (pred (length (ps0 ++ [top])))
            end = Some (length ps0)) as ->.
    { destruct ps0; simpl; [done|]. rewrite length_app. simpl. f_equal. lia. }
    cbn [w_parents mbind result_bind].
    rewrite list_lookup_middle by done. rewrite last_snoc.
    cbn [default from_option id mbind result_bind w_heap].
    assert (exists d, node top = VRef d) as [d Hd].
    { rewrite Forall_app, Forall_singleton in Hpure.
      destruct Hpure as [_ Hp]. destruct (node top); try discriminate.
      by eexists. }
    rewrite Hd.
    assert (d = l <-> length (ps0 ++ [top]) = 1) as Hdl.
    { rewrite length_app. simpl. destruct ps0 as [|s0' ps0'].
      - simpl in Hps. injection Hps as -> <-. split; [done|].
        intros _. rewrite Hn0 in Hd. by injection Hd.
      - simpl in Hps. injection Hps as -> <-.
        rewrite Forall_app, Forall_singleton in Hrest.
        destruct Hrest as [_ Htop]. split; [|simpl; lia].
        intros ->. by rewrite Hd in Htop. }
    assert (exists o,
              (if isArray hp (VRef d)
               then Ok (splice_prop hp (VRef d) k)
               else delete_prop hp (VRef d) k) = Ok (<[d := o]> hp)
              /\ (d = l -> o = del_own (deref hp l) k)) as (o & -> & Ho).
    { destruct (isArray hp (VRef d)) eqn:Ea.
      - eexists. split; [reflexivity|]. intros ->. congruence.
      - eexists. split; [reflexivity|]. by intros ->. }
    cbn [mbind result_bind stop_here with_heap w_heap w_path w_parents
         w_alive w_user w_visits w_stopped].
    exists (<[d := o]> hp). split; [reflexivity|].
    unfold gc_post. rewrite length_insert. split; [done|].
    destruct (decide (d = l)) as [->|Hne].
    - assert (l < length hp) as Hl.
      { rewrite Forall_forall in Hin. destruct (Hin (VRef l)) as (i & [= <-] & Hi);
          [|done]. rewrite Hps. cbn [fmap list_fmap]. rewrite Hn0_. by left. }
      rewrite deref_insert_eq by done. rewrite (Ho eq_refl).
      cbn [del_own kind props]. split; [done|].
      intros k0. rewrite last_snoc.
      destruct (decide (k0 = k)) as [->|Hk0].
      + rewrite assoc_del_same. rewrite decide_True; [done|].
        split; [by apply Hdl|]. by split.
      + rewrite assoc_del_other by done. rewrite decide_False; [done|].
        intros (_ & [= ->] & _). done.
    - rewrite deref_insert_ne by done. split; [done|].
      intros k0. rewrite decide_False; [done|].
      intros (H1 & _). by apply Hdl in H1. }
  destruct Hpost1 as (Hlen1 & Hkind1 & Hk1).
  cbn [mbind result_bind]. unfold strict_eq.
  rewrite bool_decide_eq_true_2 by done.
  cbn [negb mbind result_bind l_mods before run_hook keepGoing].
  unfold descend. cbn [l_state]. rewrite Hns.
  destruct (isPureObj v && bool_decide (circular s = None)) eqn:Edesc.
  2: { cbn [mbind result_bind l_mods after run_hook l_state].
       exists h1, (vis ++ [(ps, s)]), s. by split. }
  apply andb_true_iff in Edesc as [Hv Hc]. apply bool_decide_eq_true in Hc.
  destruct v as [| | | | |m]; try discriminate.
  assert (VRef m ∉ node_ <$> ps) as Hfresh.
  { apply first_ancestor_None. rewrite <- Hc. unfold s.
    symmetry. apply looked_state_circular. }
  cbn [w_heap w_parents with_state l_state keepGoing l_mods].
  set (s2 := updateState h1 (ps ++ [s]) s).
  assert (node s2 = VRef m /\ node_ s2 = VRef m) as [Hn2 Hn2_].
  { unfold s2. destruct (updateState_fields h1 (ps ++ [s]) s) as (->&->&_).
    by split. }
  assert (keys s2 = Some (objectKeys hp (VRef m))) as Hkeys.
  { unfold s2, updateState at 1. rewrite Hns, Hns_. cbn [isPureObj keys].
    unfold strict_eq. rewrite bool_decide_eq_true_2 by done. cbn [negb].
    unfold s. cbn [updateState new_state node isPureObj keys]. done. }
  rewrite Hkeys. cbn [default from_option id].
  unfold with_parents, with_state.
  cbn [w_heap w_path w_parents w_alive w_user w_visits w_stopped l_state
       keepGoing l_mods].
  assert (exists h' vis',
            each_key false rec (length (objectKeys hp (VRef m)))
              (objectKeys hp (VRef m)) 0
              (WState h1 pth (ps ++ [s2]) true tt (vis ++ [(ps, s)]) st)
              (Locals s2 true no_mods)
            = Ok (WState h' pth (ps ++ [s2]) true tt vis' st,
                  Locals s2 true no_mods)
            /\ length h' = length hp
            /\ kind (deref h' l) = kind (deref h1 l)
            /\ forall k0, assoc k0 (props (deref h' l))
                          = assoc k0 (props (deref h1 l)))
    as (h' & vis' & E & Hlen' & Hkind' & Hk').
  { destruct (decide (m < length hp)) as [Hm|Hm].
    2: { assert (objectKeys hp (VRef m) = []) as ->.
         { cbn [objectKeys]. rewrite deref_ge by lia. done. }
         exists h1, (vis ++ [(ps, s)]). by repeat split. }
    destruct (each_key_gc s2 ps pth (length (objectKeys hp (VRef m)))
                (length hp) m h1 Hn2) with
      (ks := objectKeys hp (VRef m)) (i := 0) (seen := @nil pkey)
      (hp := h1) (vis := vis ++ [(ps, s)]) (st := st)
      as (h' & vis' & E & Hlen' & Hkind' & Hk').
    - intros hp' k Hlhp' Harr'. unfold gc_pre.
      split; [by rewrite !length_app, Hlen|]. split.
      { exists s0, (rest ++ [s2]). rewrite Hps. split; [done|].
        split; [done|]. split; [done|]. apply Forall_app. split; [done|].
        apply Forall_singleton. rewrite Hn2. intros [= ->].
        apply Hfresh. rewrite Hps. cbn [fmap list_fmap]. rewrite Hn0_.
        by left. }
      split.
      { apply Forall_app. split; [done|]. apply Forall_singleton.
        by rewrite Hn2. }
      split; [done|]. split.
      { rewrite fmap_app. apply NoDup_app. split; [done|].
        split; [|apply NoDup_singleton].
        intros x Hx Hx'. cbn [fmap list_fmap] in Hx'.
        apply list_elem_of_singleton in Hx'. subst x. by rewrite Hn2_ in Hx. }
      split.
      { rewrite Hlhp'. rewrite fmap_app. apply Forall_app. split; [done|].
        apply Forall_singleton. rewrite Hn2_. by exists m. }
      rewrite length_app. simpl. lia.
    - done.
    - done.
    - cbn [isArray] in *. by rewrite Hkind1.
    - intros k0. rewrite decide_False; [done|].
      intros (_ & Hin0 & _). by apply elem_of_nil in Hin0.
    - exists h', vis'. split; [exact E|]. split; [done|]. split; [done|].
      intros k0. rewrite Hk'. rewrite decide_False; [done|].
      intros (Hone & _). rewrite Hps, length_app in Hone. simpl in Hone. lia. }
  rewrite E. cbn [mbind result_bind w_parents w_heap w_path w_alive w_user
                  w_visits w_stopped l_mods after run_hook l_state].
  rewrite removelast_last.
  exists h', vis', s2. split; [reflexivity|].
  unfold gc_post. split; [done|]. split; [congruence|].
  intros k0. by rewrite Hk', Hk1.
Qed.

End Loop.

Lemma walker_gc fuel : gc_walks is_obj l ignore fuel (walker fuel cbw false).
Proof.
  induction fuel as [|fuel IH].
  - intros hp pth ps vis st v (_ & _ & _ & _ & Hnd & Hin & Hfuel).
    pose proof (distinct_refs_bound _ _ Hnd Hin) as Hb.
    rewrite length_fmap in Hb. lia.
  - cbn [walker]. by apply visit_gc.
Qed.

(** X19.  [markForGarbageCollection] on a record with more than ten
    properties walks it and empties it.  Let [isObj] reject [undefined],
    the object be in the heap and no sequence, and the fuel be above the
    size of the heap.  Then the call returns, and of the own properties of
    the object those whose key is in [ignore], and is no index below the
    number of properties, are what they were, and every other one is
    gone, whatever it held: the callback never sees the node, only
    [undefined], so that it removes composites as well as scalars. *)
Theorem gc_large_record (fuel : nat) (h : heap) (nprops : nat) :
  10 < nprops ->
  l < length h ->
  isArray h (VRef l) = false ->
  length h < fuel ->
  exists h',
    markForGarbageCollection is_obj fuel h (VRef l) nprops ignore = Ok h'
    /\ length h' = length h
    /\ forall k,
         assoc k (props (deref h' l))
         = match k with
           | KIdx i =>
               if decide (KIdx i ∈ ignore /\ nprops <= i)
               then assoc k (props (deref h l)) else None
           | KName _ =>
               if decide (k ∈ ignore) then assoc k (props (deref h l))
               else None
           end.
Proof.
  intros Hn Hl Harr Hlt. unfold markForGarbageCollection.
  rewrite decide_True by done.
  unfold Traverse.forEachs, Traverse.forEach, walk.
  cbn [Traverse.value].
  destruct fuel as [|fuel']; [lia|]. cbn [walker].
  rewrite visit_alive by reflexivity. rewrite call_callback_unfold. cbv zeta.
  unfold entry_outcome, entry_state, entry_view.
  cbn [w_heap w_path w_parents w_alive w_user w_visits w_stopped
       v_heap v_this v_parents].
  set (s := updateState h [] (new_state (VRef l) (VRef l) [] [])).
  assert (node s = VRef l /\ node_ s = VRef l /\ path s = []
          /\ parent s = None) as (Hns & Hns_ & Hpath & Hpar).
  { unfold s. destruct (updateState_fields h []
      (new_state (VRef l) (VRef l) [] [])) as (->&->&->&->&_). done. }
  rewrite cbw_outcome. cbn [v_this o_acts o_new o_ret o_user]. rewrite Hpath.
  rewrite app_nil_r.
  cbn [shouldIgnore existsb exec_actions exec_action l_state].
  rewrite Hpar. cbn [mbind result_bind]. unfold strict_eq.
  rewrite bool_decide_eq_true_2 by done.
  cbn [negb mbind result_bind l_mods before run_hook keepGoing].
  unfold descend. cbn [l_state]. rewrite Hns.
  assert (circular s = None) as ->.
  { unfold s. by rewrite looked_state_circular. }
  cbn [isPureObj andb]. rewrite bool_decide_eq_true_2 by done.
  cbn [w_heap w_parents with_state l_state keepGoing l_mods].
  set (s2 := updateState h ([] ++ [s]) s).
  assert (node s2 = VRef l /\ node_ s2 = VRef l) as [Hn2 Hn2_].
  { unfold s2. destruct (updateState_fields h ([] ++ [s]) s) as (->&->&_).
    by split. }
  assert (keys s2 = Some (objectKeys h (VRef l))) as Hkeys.
  { unfold s2, updateState at 1. rewrite Hns, Hns_. cbn [isPureObj keys].
    unfold strict_eq. rewrite bool_decide_eq_true_2 by done. cbn [negb].
    unfold s. cbn [updateState new_state node isPureObj keys]. done. }
  rewrite Hkeys. cbn [default from_option id].
  unfold with_parents, with_state.
  cbn [w_heap w_path w_parents w_alive w_user w_visits w_stopped l_state
       keepGoing l_mods].
  destruct (each_key_gc fuel' (walker fuel' cbw false) (walker_gc fuel')
              s2 [] [] (length (objectKeys h (VRef l))) (length h) l h Hn2)
    with (ks := objectKeys h (VRef l)) (i := 0) (seen := @nil pkey)
         (hp := h) (vis := [] ++ [(@nil state, s)]) (st := @None nat)
    as (h1 & vis1 & E & Hlen1 & Hkind1 & Hk1).
  { intros hp' k Hlhp' Harr'. unfold gc_pre. cbn [app length].
    split; [done|]. split.
    { exists s2, []. by repeat split. }
    split; [apply Forall_singleton; by rewrite Hn2|]. split; [done|].
    cbn [fmap list_fmap]. split; [apply NoDup_singleton|].
    split; [|lia]. apply Forall_singleton. rewrite Hn2_, Hlhp'. by exists l. }
  { done. }
  { done. }
  { done. }
  { intros k0. rewrite decide_False; [done|].
    intros (_ & Hin0 & _). by apply elem_of_nil in Hin0. }
  rewrite E. cbn [mbind result_bind w_parents w_heap w_path w_alive w_user
                  w_visits w_stopped l_mods after run_hook l_state].
  destruct (delete_indices_object l nprops h1 0)
    as (h' & E' & Hlen' & _ & _ & Hk').
  rewrite E'. exists h'. split; [done|]. split; [lia|].
  assert (forall k0, assoc k0 (props (deref h1 l))
                     = if decide (k0 ∈ ignore)
                       then assoc k0 (props (deref h l)) else None) as Hroot.
  { intros k0. rewrite Hk1. cbn [app length shouldIgnore existsb].
    rewrite orb_false_r.
    destruct (decide (k0 ∈ ignore)) as [Hin|Hnin].
    - rewrite decide_False; [done|]. intros (_ & _ & Hb).
      by apply bool_decide_eq_false in Hb.
    - destruct (decide (k0 ∈ objectKeys h (VRef l))) as [Hk|Hk].
      + rewrite decide_True; [done|]. split; [done|]. split; [done|].
        by apply bool_decide_eq_false.
      + rewrite decide_False by (by intros (_ & ? & _)).
        cbn [objectKeys] in Hk. by apply assoc_None_notin in Hk. }
  intros k. rewrite Hk'. destruct k as [i|name]; [|apply Hroot].
  rewrite Hroot.
  destruct (decide (0 <= i < 0 + nprops)) as [Hi|Hi].
  - rewrite decide_False; [done | lia].
  - destruct (decide (KIdx i ∈ ignore)) as [Hin|Hnin].
    + rewrite decide_True; [done | split; [done | lia]].
    + rewrite decide_False; [done | by intros [? _]].
Qed.

End GCWalk.

(** An object of which eleven properties are reported; its enumerable own
    ones are [parent], which points back to it, and [run]. *)
Lemma gc_large_record_witness :
  exists h',
    GC.markForGarbageCollection isPureObj 3
      [Obj KPlain [(KName "parent", VRef 0); (KName "run", VRef 1)];
       Obj KPlain [(KName "name", VStr "run")]]
      (VRef 0) 11 [KName "parent"] = Ok h'
    /\ length h' = 2
    /\ forall k,
         assoc k (props (deref h' 0))
         = match k with
           | KIdx i =>
               if decide (KIdx i ∈ [KName "parent"] /\ 11 <= i)
               then assoc k [(KName "parent", VRef 0); (KName "run", VRef 1)]
               else None
           | KName _ =>
               if decide (k ∈ [KName "parent"])
               then assoc k [(KName "parent", VRef 0); (KName "run", VRef 1)]
               else None
           end.
Proof.
  apply (gc_large_record isPureObj eq_refl 0 [KName "parent"] 3
           [Obj KPlain [(KName "parent", VRef 0); (KName "run", VRef 1)];
            Obj KPlain [(KName "name", VStr "run")]] 11).
  - lia.
  - simpl. lia.
  - reflexivity.
  - simpl. lia.
Defined.

(** * The order of the hooks *)

Section HookOrder.

Variable h : heap.

Lemma run_log_pre (x : val) (k : pkey) (pth : list pkey) (ps : list state)
  (s2 : state) (a : list event) (vis : visits) (st : option nat) :
  run_hook_top (Some log_pre) (HPre x k)
    (WState h pth (ps ++ [s2]) true a vis st) (Locals s2 true all_logs)
  = Ok (WState h pth (ps ++ [s2]) true (a ++ [EPre (path s2) x k]) vis st,
        Locals s2 true all_logs).
Proof.
  unfold run_hook_top, run_hook, run_handler, log_pre.
  cbn [o_user o_new o_acts o_ret exec_actions mbind result_bind w_user w_heap
       w_parents l_state v_this].
  unfold set_top, with_parents, with_heap, with_user.
  cbn [w_heap w_path w_parents w_alive w_user w_visits w_stopped l_state].
  by rewrite app_nil_r, removelast_last.
Qed.

Lemma run_log_post (c : state) (pth : list pkey) (ps : list state)
  (s2 : state) (a : list event) (vis : visits) (st : option nat) :
  run_hook_top (Some log_post) (HPost c)
    (WState h pth (ps ++ [s2]) true a vis st) (Locals s2 true all_logs)
  = Ok (WState h pth (ps ++ [s2]) true
               (a ++ [EPost (path s2) (path c) (isFirst c) (isLast c)]) vis st,
        Locals s2 true all_logs).
Proof.
  unfold run_hook_top, run_hook, run_handler, log_post.
  cbn [o_user o_new o_acts o_ret exec_actions mbind result_bind w_user w_heap
       w_parents l_state v_this].
  unfold set_top, with_parents, with_heap, with_user.
  cbn [w_heap w_path w_parents w_alive w_user w_visits w_stopped l_state].
  by rewrite app_nil_r, removelast_last.
Qed.

Lemma run_log_before (x : val) (pth : list pkey) (ps : list state)
  (s : state) (a : list event) (vis : visits) (st : option nat) :
  run_hook (Some log_before) (HNode x)
    (WState h pth ps true a vis st) (Locals s true all_logs)
  = Ok (WState h pth ps true (a ++ [EBefore (path s) x]) vis st,
        Locals s true all_logs).
Proof.
  unfold run_hook, run_handler, log_before.
  cbn [o_user o_new o_acts o_ret exec_actions mbind result_bind w_user w_heap
       w_parents l_state v_this].
  unfold with_heap, with_user.
  cbn [w_heap w_path w_parents w_alive w_user w_visits w_stopped l_state].
  by rewrite app_nil_r.
Qed.

Lemma run_log_after (x : val) (pth : list pkey) (ps : list state)
  (s : state) (a : list event) (vis : visits) (st : option nat) :
  run_hook (Some log_after) (HNode x)
    (WState h pth ps true a vis st) (Locals s true all_logs)
  = Ok (WState h pth ps true (a ++ [EAfter (path s) x]) vis st,
        Locals s true all_logs).
Proof.
  unfold run_hook, run_handler, log_after.
  cbn [o_user o_new o_acts o_ret exec_actions mbind result_bind w_user w_heap
       w_parents l_state v_this].
  unfold with_heap, with_user.
  cbn [w_heap w_path w_parents w_alive w_user w_visits w_stopped l_state].
  by rewrite app_nil_r.
Qed.

Lemma each_key_traces (rec : wstate (list event) -> val
                             -> result (wstate (list event) * state))
  (prec : list pkey -> val -> option (list event))
  (ps : list state) (s2 : state) (l : loc) (n : nat) :
  node s2 = VRef l ->
  (forall pth' x a vis st evs,
     prec pth' x = Some evs ->
     exists vis' s,
       rec (WState h pth' (ps ++ [s2]) true a vis st) x
       = Ok (WState h pth' (ps ++ [s2]) true (a ++ evs) vis' st, s)
       /\ path s = pth') ->
  forall ks i a vis st evs,
    expected_keys h prec (path s2) (VRef l) ks i n = Some evs ->
    exists vis',
      each_key false rec n ks i
        (WState h (path s2) (ps ++ [s2]) true a vis st)
        (Locals s2 true all_logs)
      = Ok (WState h (path s2) (ps ++ [s2]) true (a ++ evs) vis' st,
            Locals s2 true all_logs).
Proof.
  intros Hn2 Hrec. induction ks as [|k ks IH]; intros i a vis st evs H.
  - injection H as <-. exists vis. by rewrite app_nil_r.
  - cbn [expected_keys] in H.
    destruct (prec (path s2 ++ [k]) (own_val h (VRef l) k)) as [evs1|] eqn:E1;
      [|discriminate].
    cbn [mbind option_bind] in H.
    destruct (expected_keys h prec (path s2) (VRef l) ks (S i) n)
      as [evs2|] eqn:E2; [|discriminate].
    injection H as <-.
    cbn [each_key]. cbn [l_mods pre l_state].
    change (with_path (w_path (WState h (path s2) (ps ++ [s2]) true a vis st)
                       ++ [k])
              (WState h (path s2) (ps ++ [s2]) true a vis st))
      with (WState h (path s2 ++ [k]) (ps ++ [s2]) true a vis st).
    cbn [w_heap]. rewrite Hn2. cbn [get_prop mbind result_bind].
    rewrite run_log_pre. cbn [mbind result_bind w_heap l_state].
    rewrite Hn2. cbn [get_prop mbind result_bind].
    destruct (Hrec _ _ (a ++ [EPre (path s2) (own_val h (VRef l) k) k]) vis st
                _ E1) as (vis1 & c & Ec & Hc).
    rewrite Ec. cbn [mbind result_bind andb w_heap post l_mods].
    unfold with_heap.
    cbn [w_heap w_path w_parents w_alive w_user w_visits w_stopped].
    rewrite run_log_post. cbn [mbind result_bind].
    unfold with_path.
    cbn [w_heap w_path w_parents w_alive w_user w_visits w_stopped].
    rewrite removelast_last.
    cbn [set_siblings path isFirst isLast]. rewrite Hc.
    destruct (IH (S i)
                ((a ++ [EPre (path s2) (own_val h (VRef l) k) k]) ++ evs1
                 ++ [EPost (path s2) (path s2 ++ [k])
                       (Some (bool_decide (i = 0)))
                       (Some (bool_decide (i = pred n)))])
                vis1 st evs2 E2) as (vis' & E').
    rewrite <- !app_assoc in E'. rewrite <- !app_assoc.
    cbn [app] in *. rewrite E'. by exists vis'.
Qed.

Lemma visit_traces (rec : wstate (list event) -> val
                         -> result (wstate (list event) * state))
  (prec : list val -> list pkey -> val -> option (list event)) :
  (forall pth ps a vis st x evs,
     prec (node_ <$> ps) pth x = Some evs ->
     exists vis' s,
       rec (WState h pth ps true a vis st) x
       = Ok (WState h pth ps true (a ++ evs) vis' st, s)
       /\ path s = pth /\ node s = x) ->
  forall pth ps a vis st v evs,
    (if isPureObj v && bool_decide (v ∉ node_ <$> ps) then
       evs ← expected_keys h (prec ((node_ <$> ps) ++ [v])) pth v
               (objectKeys h v) 0 (length (objectKeys h v));
       Some ([EVisit pth v; EBefore pth v] ++ evs ++ [EAfter pth v])
     else Some [EVisit pth v; EBefore pth v; EAfter pth v]) = Some evs ->
    exists vis' s,
      visit tracer false rec (WState h pth ps true a vis st) v
      = Ok (WState h pth ps true (a ++ evs) vis' st, s)
      /\ path s = pth /\ node s = v.
Proof.
  intros Hrec pth ps a vis st v evs H.
  rewrite visit_alive by reflexivity. rewrite call_callback_unfold. cbv zeta.
  unfold entry_outcome, entry_state, entry_view.
  cbn [w_heap w_path w_parents w_alive w_user w_visits w_stopped
       v_heap v_this v_parents].
  set (s := updateState h ps (new_state v v pth ps)).
  assert (node s = v /\ path s = pth) as (Hns & Hpath).
  { unfold s. destruct (updateState_fields h ps (new_state v v pth ps))
      as (->&_&->&_). done. }
  cbn [tracer o_acts o_new o_ret o_user v_this]. rewrite Hns, Hpath.
  cbn [exec_actions exec_action mbind result_bind l_mods with_mods l_state
       keepGoing before after pre post].
  unfold strict_eq. rewrite bool_decide_eq_true_2 by done.
  unfold with_mods.
  cbn [negb mbind result_bind l_mods l_state keepGoing before after pre post].
  rewrite app_nil_r, run_log_before, Hns, Hpath.
  cbn [mbind result_bind keepGoing negb].
  unfold descend. cbn [l_state w_heap w_parents]. rewrite Hns.
  destruct v as [| | | | |l];
    try (cbn [isPureObj andb] in *; injection H as <-;
         cbn [mbind result_bind l_mods after l_state];
         rewrite run_log_after, Hns, Hpath; cbn [mbind result_bind l_state];
         rewrite <- !app_assoc; by eexists _, _).
  assert (circular s = first_ancestor (node_ <$> ps) (VRef l)) as Hcirc.
  { unfold s. apply looked_state_circular. }
  cbn [isPureObj andb] in *.
  destruct (bool_decide (circular s = None)) eqn:Eb.
  2: { apply bool_decide_eq_false in Eb.
       rewrite bool_decide_eq_false_2 in H.
       2: { intros Hn. apply first_ancestor_None in Hn. congruence. }
       injection H as <-.
       cbn [mbind result_bind l_mods after l_state].
       rewrite run_log_after, Hns, Hpath. cbn [mbind result_bind l_state].
       rewrite <- !app_assoc. by eexists _, _. }
  apply bool_decide_eq_true in Eb.
  - rewrite bool_decide_eq_true_2 in H
      by (apply first_ancestor_None; congruence).
    destruct (expected_keys _ _ _ _ _ _ _) as [evs1|] eqn:Ek; [|discriminate].
    injection H as <-.
    unfold with_state, with_parents.
    cbn [w_heap w_path w_parents w_alive w_user w_visits w_stopped l_state
         keepGoing l_mods].
    set (s2 := updateState h (ps ++ [s]) s).
    assert (node s2 = VRef l /\ path s2 = pth) as [Hn2 Hp2].
    { unfold s2. destruct (updateState_fields h (ps ++ [s]) s) as (->&_&->&_).
      by split. }
    assert (keys s2 = Some (objectKeys h (VRef l))) as ->.
    { unfold s2, s. apply looked_state_keys. }
    cbn [default from_option id]. rewrite <- Hp2.
    destruct (each_key_traces rec (prec ((node_ <$> ps) ++ [VRef l])) ps s2 l
                (length (objectKeys h (VRef l))) Hn2) with
      (ks := objectKeys h (VRef l)) (i := 0)
      (a := (a ++ [EVisit pth (VRef l)]) ++ [EBefore pth (VRef l)])
      (vis := vis ++ [(ps, s)]) (st := st) (evs := evs1) as (vis' & E).
    + intros pth' x a' vis0 st0 evs0 Hp.
      destruct (Hrec pth' (ps ++ [s2]) a' vis0 st0 x evs0)
        as (vis1 & s1 & E1 & Hp1 & _); [|by eauto].
      unfold s2, s. by rewrite pushed_originals.
    + by rewrite Hp2.
    + rewrite Hp2 in E. rewrite Hp2. rewrite E.
      cbn [mbind result_bind w_parents l_mods after l_state].
      unfold with_parents.
      cbn [w_heap w_path w_parents w_alive w_user w_visits w_stopped].
      rewrite removelast_last, run_log_after, Hn2, Hp2.
      cbn [mbind result_bind l_state]. rewrite <- !app_assoc.
      by eexists _, _.
Qed.

Lemma walker_traces fuel : forall pth ps a vis st x evs,
  expected h fuel (node_ <$> ps) pth x = Some evs ->
  exists vis' s,
    walker fuel tracer false (WState h pth ps true a vis st) x
    = Ok (WState h pth ps true (a ++ evs) vis' st, s)
    /\ path s = pth /\ node s = x.
Proof.
  induction fuel as [|fuel IH]; intros pth ps a vis st x evs H; [discriminate|].
  cbn [walker]. apply (visit_traces _ (expected h fuel)); [exact IH|].
  exact H.
Qed.

Lemma expected_keys_is_Some (rec : list pkey -> val -> option (list event))
  pth v ks n :
  (forall pth x, is_Some (rec pth x)) ->
  forall i, is_Some (expected_keys h rec pth v ks i n).
Proof.
  intros Hrec. induction ks as [|k ks IH]; intros i; [by eexists|].
  cbn [expected_keys].
  destruct (Hrec (pth ++ [k]) (own_val h v k)) as [evs1 ->].
  destruct (IH (S i)) as [evs2 ->]. by eexists.
Qed.

(** The ancestors of a node that is descended into are distinct objects of
    the heap: the fuel needed is bounded by its size. *)
Lemma expected_terminates fuel : forall anc pth v,
  NoDup anc ->
  Forall (fun x => exists i, x = VRef i /\ i < length h) anc ->
  length h < fuel + length anc ->
  is_Some (expected h fuel anc pth v).
Proof.
  induction fuel as [|fuel IH]; intros anc pth v Hnd Hin Hlt.
  - pose proof (distinct_refs_bound _ _ Hnd Hin) as Hb. lia.
  - cbn [expected].
    destruct (isPureObj v && bool_decide (v ∉ anc)) eqn:E; [|by eexists].
    apply andb_true_iff in E as [Hv Hni]. apply bool_decide_eq_true in Hni.
    destruct v as [| | | | |l]; try discriminate.
    destruct (decide (l < length h)) as [Hl|Hl].
    + edestruct (expected_keys_is_Some (expected h fuel (anc ++ [VRef l])) pth)
        as [evs ->]; [|by eexists].
      intros pth' x. apply IH.
      * apply NoDup_app. split; [done|]. split; [|apply NoDup_singleton].
        intros y Hy Hy'. apply list_elem_of_singleton in Hy'. by subst.
      * apply Forall_app. split; [done|]. apply Forall_singleton. eauto.
      * rewrite length_app. simpl. lia.
    + assert (objectKeys h (VRef l) = []) as ->.
      { cbn [objectKeys]. by rewrite deref_ge by lia. }
      by eexists.
Qed.

(** X20.  The order of the hooks.  An observer that records its run and
    registers the four hooks at every node sees, with any fuel above the
    size of the heap, exactly what [expected] lists: at each node the
    callback and then the [before] hook, also at a scalar or a circular
    node; then, for a composite that is not circular, for each key in order
    the [pre] hook with the child's value and key, all that the child
    records, and the [post] hook with the child's state marked [isFirst]
    at the first key and [isLast] at the last; and at the end the [after]
    hook.  The walk returns the root and leaves the heap as it was. *)
Theorem hooks_in_order (this : Traverse.t) (fuel : nat) :
  length h < fuel ->
  exists w evs,
    Traverse.forEach fuel h this [] tracer = Ok (w, this, Traverse.value this)
    /\ w_user w = evs
    /\ expected h fuel [] [] (Traverse.value this) = Some evs
    /\ w_heap w = h.
Proof.
  intros Hlt.
  destruct (expected_terminates fuel [] [] (Traverse.value this))
    as [evs E]; [constructor | constructor | simpl; lia |].
  destruct (walker_traces fuel [] [] [] [] None (Traverse.value this) evs E)
    as (vis' & s & Ew & _ & Hs).
  unfold Traverse.forEach, walk. rewrite Ew. cbn [mbind result_bind].
  rewrite Hs.
  destruct this as [root]. cbn [Traverse.value].
  exists (WState h [] [] true ([] ++ evs) vis' None), evs. by repeat split.
Qed.

End HookOrder.

(** The observer on [{a: {b: 1}}]. *)
Lemma hooks_in_order_witness :
  exists w evs,
    Traverse.forEach 3 Examples.nested_heap (Traverse.Make (VRef 0)) [] tracer
    = Ok (w, Traverse.Make (VRef 0), VRef 0)
    /\ w_user w = evs
    /\ expected Examples.nested_heap 3 [] [] (VRef 0) = Some evs
    /\ w_heap w = Examples.nested_heap.
Proof.
  apply (hooks_in_order Examples.nested_heap (Traverse.Make (VRef 0)) 3).
  simpl. lia.
Defined.

(** What it records there. *)
Lemma expected_nested :
  expected Examples.nested_heap 3 [] [] (VRef 0)
  = Some [EVisit [] (VRef 0); EBefore [] (VRef 0);
          EPre [] (VRef 1) (KName "a");
          EVisit [KName "a"] (VRef 1); EBefore [KName "a"] (VRef 1);
          EPre [KName "a"] (VNum 1) (KName "b");
          EVisit [KName "a"; KName "b"] (VNum 1);
          EBefore [KName "a"; KName "b"] (VNum 1);
          EAfter [KName "a"; KName "b"] (VNum 1);
          EPost [KName "a"] [KName "a"; KName "b"] (Some true) (Some true);
          EAfter [KName "a"] (VRef 1);
          EPost [] [KName "a"] (Some true) (Some true);
          EAfter [] (VRef 0)].
Proof. reflexivity. Qed.

(** * A result given at a child *)



(** * Circular nodes in copy-on-write mode *)

(** X22.  [map] cuts a cycle with a copy of one level.  In copy-on-write
    mode, when a callback that only looks runs on a circular node, the
    visit returns a state whose node is a new object, the copy of the
    node, and nothing is descended into: every object that was there is
    what it was, and under every key of the original the copy holds what
    the original holds, so that the objects behind it are the original
    ones, not copies. *)
Theorem circular_node_copied_once {A} (cb : handler A)
  (rec : wstate A -> val -> result (wstate A * state)) (w : wstate A)
  (l : loc) :
  w_alive w = true ->
  is_Some (circular (entry_state true w (VRef l))) ->
  o_new (entry_outcome cb true w (VRef l)) = [] ->
  o_acts (entry_outcome cb true w (VRef l)) = [] ->
  o_ret (entry_outcome cb true w (VRef l)) = VUndef ->
  exists w' s,
    visit cb true rec w (VRef l) = Ok (w', s)
    /\ node s = VRef (length (w_heap w))
    /\ length (w_heap w') = S (length (w_heap w))
    /\ (forall l0, l0 < length (w_heap w) -> w_heap w' !! l0 = w_heap w !! l0)
    /\ forall k v,
         assoc k (props (deref (w_heap w) l)) = Some v ->
         assoc k (props (deref (w_heap w') (length (w_heap w)))) = Some v.
Proof.
  intros Ha [i Hc] Hnew Hacts Hret.
  rewrite visit_alive by done. rewrite call_callback_unfold.
  cbv zeta. rewrite Hnew, Hacts, Hret, app_nil_r.
  cbn [exec_actions mbind result_bind]. unfold strict_eq.
  rewrite bool_decide_eq_true_2 by done.
  cbn [negb mbind result_bind l_mods before run_hook keepGoing].
  unfold descend. cbn [l_state]. rewrite Hc.
  rewrite bool_decide_eq_false_2 by done. rewrite andb_false_r.
  cbn [mbind result_bind l_mods after run_hook l_state].
  eexists _, _. split; [reflexivity|]. cbn [w_heap].
  destruct (entry_state_fields true w (VRef l)) as (Hn & _).
  rewrite Hn, entry_view_heap. cbn [copy alloc fst snd].
  split; [done|]. split; [rewrite length_app; simpl; lia|].
  split; [intros l0 Hl0; by rewrite lookup_app_l|].
  intros k v Hk. unfold deref at 1. rewrite list_lookup_middle by done.
  cbn [default from_option id objectKeys].
  destruct (fold_set_own
              (fun k => default VUndef (assoc k (props (deref (w_heap w) l))))
              (props (deref (w_heap w) l)).*1 (copy_shell (deref (w_heap w) l)))
    as [Hlook _].
  cbv zeta in Hlook. rewrite Hlook, decide_True.
  - by rewrite Hk.
  - apply assoc_is_Some. by eexists.
Qed.

(** The child [self] of [o = {}; o.self = o] in [map] with a callback that
    does nothing: the state of the root is on the stack. *)
Lemma circular_node_copied_once_witness :
  exists w' s,
    visit Examples.noop true (fun w _ => Err OutOfFuel)
      (WState (Examples.self_heap ++ [Obj KPlain [(KName "self", VRef 0)]])
         [KName "self"] [new_state (VRef 1) (VRef 0) [] []] true tt [] None)
      (VRef 0) = Ok (w', s)
    /\ node s = VRef 2
    /\ deref (w_heap w') 2 = Obj KPlain [(KName "self", VRef 0)].
Proof.
  destruct (circular_node_copied_once Examples.noop (fun w _ => Err OutOfFuel)
              (WState (Examples.self_heap ++ [Obj KPlain [(KName "self", VRef 0)]])
                 [KName "self"] [new_state (VRef 1) (VRef 0) [] []] true tt []
                 None) 0 eq_refl (ex_intro _ 0 eq_refl) eq_refl eq_refl eq_refl)
    as (w' & s & E & Hs & _).
  exists w', s. split; [done|]. split; [done|].
  vm_compute in E. injection E as <- <-. reflexivity.
Defined.

(** * [map] on cyclic data *)

Section MapCycles.

Context {A : Type}.
Variable h0 : heap.
Hypothesis Hclosed : closed h0 = true.
Variable cb : handler A.
Hypothesis Hcb : looks_only cb.

(** The object that [copy] makes of an object of [h0]. *)
Lemma copy_closed (hp : heap) (l : loc) :
  extends h0 hp -> l < length h0 ->
  exists cobj,
    copy hp (VRef l) = (hp ++ [cobj], VRef (length hp))
    /\ NoDup (props cobj).*1
    /\ forall k v, assoc k (props cobj) = Some v ->
                   in_heap (length h0) v = true.
Proof.
  intros He Hl. eexists. split; [reflexivity|].
  assert (deref hp l = deref h0 l) as Hd by (unfold deref; by rewrite He).
  cbn [objectKeys]. rewrite Hd.
  destruct (h0 !! l) as [o|] eqn:Ho;
    [|apply lookup_ge_None in Ho; lia].
  assert (deref h0 l = o) as -> by (unfold deref; by rewrite Ho).
  destruct (fold_set_own (fun k => default VUndef (assoc k (props o)))
              (props o).*1 (copy_shell o)) as [Hlook Hnd].
  cbv zeta in *. split.
  - apply Hnd. unfold copy_shell.
    destruct (kind o); cbn [props fmap list_fmap fst];
      try apply NoDup_nil_2. apply NoDup_singleton.
  - intros k v Hk. rewrite Hlook in Hk.
    destruct (decide (k ∈ (props o).*1)) as [Hin|Hnin].
    + apply assoc_is_Some in Hin as [v0 Hv0]. rewrite Hv0 in Hk.
      injection Hk as <-. apply assoc_Some_in in Hv0.
      by eapply closed_lookup.
    + unfold copy_shell in Hk.
      destruct (kind o) eqn:Ek; cbn [props assoc] in Hk; try discriminate.
      destruct (decide (k = KName "message")); [|discriminate].
      injection Hk as <-. by eapply closed_message.
Qed.

Section Loop.

Variable fuel : nat.
Variable rec : wstate A -> val -> result (wstate A * state).
Hypothesis Hrec : map_walks h0 fuel rec.

Lemma each_key_map (d : loc) (s2 : state) (ps : list state) (pth : list pkey)
  (c0 : pkey -> val) (n : nat) :
  node s2 = VRef d -> length h0 <= d ->
  NoDup (node_ <$> ps ++ [s2]) ->
  Forall (fun x => exists i, x = VRef i /\ i < length h0)
         (node_ <$> ps ++ [s2]) ->
  length h0 < fuel + length (ps ++ [s2]) ->
  forall ks,
    (forall k, k ∈ ks -> in_heap (length h0) (c0 k) = true) ->
    NoDup ks ->
    forall i hp a vis st,
      extends h0 hp -> d < length hp ->
      (forall k, k ∈ ks -> assoc k (props (deref hp d)) = Some (c0 k)) ->
      exists h' a' vis',
        each_key true rec n ks i (WState hp pth (ps ++ [s2]) true a vis st)
                 (Locals s2 true no_mods)
        = Ok (WState h' pth (ps ++ [s2]) true a' vis' st,
              Locals s2 true no_mods)
        /\ length hp <= length h'
        /\ (forall l0, l0 < length hp -> l0 <> d -> h' !! l0 = hp !! l0).
Proof.
  intros Hn2 Hd Hnd Hin Hfuel.
  induction ks as [|k ks IH]; intros Hgood Hndk i hp a vis st He Hdlt Hun.
  - by exists hp, a, vis.
  - apply NoDup_cons in Hndk as [Hnin Hndk].
    cbn [each_key]. cbn [l_mods pre l_state mbind result_bind].
    rewrite Hn2. cbn [get_prop mbind result_bind].
    change (with_path (w_path (WState hp pth (ps ++ [s2]) true a vis st) ++ [k])
              (WState hp pth (ps ++ [s2]) true a vis st))
      with (WState hp (pth ++ [k]) (ps ++ [s2]) true a vis st).
    cbn [w_heap].
    assert (own_val hp (VRef d) k = c0 k) as Hx.
    { cbn [own_val]. rewrite (Hun k); [done | by left]. }
    rewrite Hx.
    destruct (Hrec hp (pth ++ [k]) (ps ++ [s2]) a vis st (c0 k))
      as (h1 & a1 & vis1 & child & E & Hlen1 & Hfr1 & _).
    { apply Hgood. by left. }
    { by repeat split. }
    rewrite E. cbn [mbind result_bind w_heap andb].
    assert (exists h2,
              (if hasOwnProperty h1 (VRef d) k
               then set_prop h1 (VRef d) k (node child) else Ok h1) = Ok h2
              /\ length h2 = length h1
              /\ (forall l0, l0 <> d -> h2 !! l0 = h1 !! l0)
              /\ forall k0, k0 <> k -> assoc k0 (props (deref h2 d))
                                      = assoc k0 (props (deref h1 d)))
      as (h2 & -> & Hlen2 & Hfr2 & Hk2).
    { destruct (hasOwnProperty h1 (VRef d) k).
      - eexists. split; [reflexivity|]. rewrite length_insert.
        split; [done|]. split.
        + intros l0 Hne. by rewrite list_lookup_insert_ne.
        + intros k0 Hne. rewrite deref_insert_eq by lia.
          cbn [set_own props]. by rewrite assoc_set_other.
      - by exists h1. }
    cbn [mbind result_bind post run_hook_top run_hook l_state].
    unfold set_top, with_path, with_parents, with_heap.
    cbn [w_heap w_path w_parents w_alive w_user w_visits w_stopped].
    rewrite !removelast_last.
    destruct (IH) with (i := S i) (hp := h2) (a := a1) (vis := vis1) (st := st)
      as (h' & a' & vis' & E' & Hlen' & Hfr').
    + intros k0 Hk0. apply Hgood. by right.
    + done.
    + intros l0 Hl0. rewrite Hfr2 by lia. rewrite Hfr1; [by apply He|].
      apply extends_length in He. lia.
    + lia.
    + intros k0 Hk0. rewrite Hk2 by (by intros ->).
      unfold deref. rewrite Hfr1 by done. by apply Hun; right.
    + exists h', a', vis'. split; [exact E'|]. split; [lia|].
      intros l0 Hl0 Hne. rewrite Hfr' by lia. rewrite Hfr2 by done.
      by apply Hfr1.
Qed.

Lemma visit_map : map_walks h0 (S fuel) (visit cb true rec).
Proof.
  intros hp pth ps a vis st v Hv (He & Hnd & Hin & Hfuel).
  rewrite visit_alive by reflexivity.
  rewrite (call_callback_looks cb Hcb).
  unfold entry_state, entry_view.
  cbn [w_heap w_path w_parents w_alive w_user w_visits w_stopped with_heap].
  pose proof (extends_length _ _ He) as Hn0.
  destruct (isPureObj v) eqn:Ev.
  2: { assert (copy hp v = (hp, v)) as -> by (by destruct v).
       cbn [v_heap v_this v_parents mbind result_bind keepGoing negb].
       set (s := updateState hp ps (new_state v v pth ps)).
       assert (node s = v) as Hns.
       { unfold s. by destruct (updateState_fields hp ps (new_state v v pth ps))
           as (->&_). }
       unfold descend. cbn [l_state]. rewrite Hns, Ev.
       cbn [andb mbind result_bind l_mods after run_hook l_state].
       eexists hp, _, _, s. split; [reflexivity|]. by repeat split. }
  destruct v as [| | | | |l]; try discriminate.
  cbn [in_heap] in Hv. apply bool_decide_eq_true in Hv.
  destruct (copy_closed hp l He Hv) as (cobj & -> & Hndc & Hvals).
  cbn [v_heap v_this v_parents mbind result_bind keepGoing negb].
  set (h1 := hp ++ [cobj]).
  set (s := updateState h1 ps (new_state (VRef (length hp)) (VRef l) pth ps)).
  assert (node s = VRef (length hp) /\ node_ s = VRef l) as [Hns Hns_].
  { unfold s. by destruct (updateState_fields h1 ps
      (new_state (VRef (length hp)) (VRef l) pth ps)) as (->&->&_). }
  assert (length hp <= length h1
          /\ forall l0, l0 < length hp -> h1 !! l0 = hp !! l0) as [Hl1 Hf1].
  { unfold h1. rewrite length_app. split; [lia|].
    intros l0 Hl0. by rewrite lookup_app_l. }
  unfold descend. cbn [l_state]. rewrite Hns. cbn [isPureObj andb].
  destruct (bool_decide (circular s = None)) eqn:Ec.
  2: { cbn [mbind result_bind l_mods after run_hook l_state].
       eexists h1, _, _, s. split; [reflexivity|]. by repeat split. }
  apply bool_decide_eq_true in Ec.
  assert (VRef l ∉ node_ <$> ps) as Hfresh.
  { apply first_ancestor_None. rewrite <- Ec. unfold s, updateState.
    cbn [new_state node isPureObj circular node_].
    rewrite scan_first_ancestor. by destruct (first_ancestor _ _). }
  cbn [w_heap w_parents with_state l_state keepGoing l_mods].
  set (s2 := updateState h1 (ps ++ [s]) s).
  assert (deref h1 (length hp) = cobj) as Hcobj.
  { unfold deref, h1. by rewrite list_lookup_middle. }
  assert (node s2 = VRef (length hp) /\ node_ s2 = VRef l) as [Hn2 Hn2_].
  { unfold s2. destruct (updateState_fields h1 (ps ++ [s]) s) as (->&->&_).
    done. }
  assert (keys s2 = Some (props cobj).*1) as Hkeys.
  { unfold s2, updateState at 1. rewrite Hns, Hns_. cbn [isPureObj keys].
    assert (negb (strict_eq (VRef l) (VRef (length hp))) = true) as Hneq.
    { unfold strict_eq. rewrite bool_decide_eq_false_2; [done|].
      intros [= ->]. lia. }
    rewrite Hneq. cbn [objectKeys]. rewrite Hcobj.
    by destruct (keys s). }
  rewrite Hkeys. cbn [default from_option id].
  unfold with_parents, with_state.
  cbn [w_heap w_path w_parents w_alive w_user w_visits w_stopped l_state
       keepGoing l_mods].
  edestruct (each_key_map (length hp) s2 ps pth
               (fun k => default VUndef (assoc k (props cobj)))
               (length (props cobj).*1) Hn2 Hn0)
    with (ks := (props cobj).*1) (i := 0) (hp := h1) (st := st)
    as (h' & a' & vis' & E & Hlen' & Hfr').
  - rewrite fmap_app. apply NoDup_app. split; [done|].
    split; [|apply NoDup_singleton].
    intros x Hx Hx'. cbn [fmap list_fmap] in Hx'.
    apply list_elem_of_singleton in Hx'. subst x. by rewrite Hn2_ in Hx.
  - rewrite fmap_app. apply Forall_app. split; [done|].
    apply Forall_singleton. rewrite Hn2_. by exists l.
  - rewrite length_app. simpl. lia.
  - intros k Hk. apply assoc_is_Some in Hk as [v Hk]. rewrite Hk.
    by eapply Hvals.
  - done.
  - intros l0 Hl0. rewrite Hf1 by lia. by apply He.
  - unfold h1. rewrite length_app. simpl. lia.
  - intros k Hk. rewrite Hcobj.
    apply assoc_is_Some in Hk as [v Hk]. by rewrite Hk.
  - rewrite E. cbn [mbind result_bind w_parents w_heap w_path w_alive w_user
                    w_visits w_stopped l_mods after run_hook l_state].
    rewrite removelast_last.
    eexists h', _, _, s2. split; [reflexivity|]. split; [lia|].
    split; [|done]. intros l0 Hl0. rewrite Hfr' by lia. by apply Hf1.
Qed.

End Loop.

Lemma walker_map fuel : map_walks h0 fuel (walker fuel cb true).
Proof.
  induction fuel as [|fuel IH].
  - intros hp pth ps a vis st v _ (_ & Hnd & Hin & Hfuel).
    pose proof (distinct_refs_bound _ _ Hnd Hin) as Hb.
    rewrite length_fmap in Hb. lia.
  - cbn [walker]. by apply visit_map.
Qed.

End MapCycles.

(** X23.  [map] returns on cyclic data.  With a callback that only looks,
    on a heap without dangling references, cyclic or not, and with any
    fuel above its size, [map] of a root of the heap returns without
    throwing; every object of the heap is what it was and the facade holds
    the root it held; a scalar root is returned as it is, and for a
    composite root the result is a new object. *)
Theorem map_returns_on_cycles {A} (cb : handler A) (h : heap)
  (this : Traverse.t) (a : A) (fuel : nat) :
  looks_only cb ->
  closed h = true ->
  in_heap (length h) (Traverse.value this) = true ->
  length h < fuel ->
  exists w r,
    Traverse.map fuel h this a cb = Ok (w, this, r)
    /\ length h <= length (w_heap w)
    /\ (forall l, l < length h -> w_heap w !! l = h !! l)
    /\ r = (if isPureObj (Traverse.value this) then VRef (length h)
            else Traverse.value this).
Proof.
  intros Hcb Hc Hroot Hlt. unfold Traverse.map, walk.
  destruct (walker_map h Hc cb Hcb fuel h [] [] a [] None (Traverse.value this))
    as (h' & a' & vis' & s & E & Hlen & Hfr & Hs); [done | |].
  { split; [done|]. split; [constructor|]. split; [constructor|].
    simpl. lia. }
  rewrite E. cbn [mbind result_bind]. eexists _, _.
  split; [reflexivity|]. cbn [w_heap]. by repeat split.
Qed.

(** [map] with a callback that does nothing on [o = {}; o.self = o]. *)
Lemma map_returns_on_cycles_witness :
  exists w r,
    Traverse.map 2 Examples.self_heap (Traverse.Make (VRef 0)) tt Examples.noop
    = Ok (w, Traverse.Make (VRef 0), r)
    /\ length Examples.self_heap <= length (w_heap w)
    /\ (forall l, l < length Examples.self_heap ->
                  w_heap w !! l = Examples.self_heap !! l)
    /\ r = (if isPureObj (VRef 0) then VRef (length Examples.self_heap)
            else VRef 0).
Proof.
  apply (map_returns_on_cycles Examples.noop Examples.self_heap
           (Traverse.Make (VRef 0)) tt 2).
  - by intros a vw arg.
  - reflexivity.
  - reflexivity.
  - simpl. lia.
Defined.
